(** * Tumor network: layout engine and interactive renderer

    A shallow embedding of [docs/tumor_network.py]: the Python generation
    stage ([create_web_network]) and the renderer script that it embeds
    into the generated page ([handleWheel], [getNodeAtPosition],
    [optimizeLayout], [initialize], ...).

    Numbers.  Python and the browser compute in binary64.  The main
    development reads the program's expressions over exact numbers:
    table cells and the quantities derived from them by field operations
    only (correlations, edge weights) are rationals ([Q]); everything
    that goes through [cos], [sin], [sqrt] or [pi] (positions, the view
    transform) is a real number ([R]).  A statement that equates a value
    with the expression the program evaluates holds of the binary64 run
    as well; one that rests on an identity of the real field holds for
    exact arithmetic only and says so.  The module [Binary64] embeds the
    arithmetic of the tissue anchors and of [handleWheel] a second time,
    in IEEE 754 binary64 with rounding to nearest, to show where the two
    readings part. *)

From Stdlib Require Lqa Uint63 Floats.
From Stdlib Require Import List String Ascii Bool Arith ZArith Lia.
From Stdlib Require Import DecimalString.
From Stdlib Require Import QArith Qreals Reals Lra.
From Stdlib Require Import Permutation Sorted.
Import ListNotations.

Open Scope string_scope.
Open Scope list_scope.
Open Scope nat_scope.

(** ** Python dictionaries

    A [dict] keeps its keys in insertion order; assigning to a key that
    is present replaces the value in place. *)

Module Dict.
Section Defs.
Context {V : Type}.

Definition t := list (string * V).

Fixpoint get (k : string) (d : t) : option V :=
  match d with
  | [] => None
  | (k', v) :: d' => if String.eqb k k' then Some v else get k d'
  end.

Definition mem (k : string) (d : t) : bool :=
  match get k d with Some _ => true | None => false end.

Fixpoint set (k : string) (v : V) (d : t) : t :=
  match d with
  | [] => [(k, v)]
  | (k', v') :: d' =>
      if String.eqb k k' then (k', v) :: d' else (k', v') :: set k v d'
  end.

Definition keys (d : t) : list string := map fst d.
End Defs.
Arguments t : clear implicits.
End Dict.

Definition str_mem (s : string) (l : list string) : bool :=
  existsb (String.eqb s) l.

(** ** The table

    [pd.read_csv] labels the rows 0, 1, 2, ... (a [RangeIndex]); the
    label stays with the row through filtering and sorting.  A missing
    or unparsable correlation cell is NaN ([None]).  The rows are those
    of a table whose cells of [Tumor] and [Gene Symbol] all hold text;
    a table with an empty label cell (read as NaN) or with a numeric
    label is outside [raw_row], and what is proved of the layout and of
    the page is proved of tables of text labels. *)

Record raw_row := mk_raw {
  raw_Tumor : string;
  raw_Gene_Symbol : string;
  raw_PCC : option Q
}.

Record row := mk_row {
  idx : nat;
  Tumor : string;
  Gene_Symbol : string;
  PCC : Q
}.

Definition threshold : Q := 0.8%Q.

(** [df[df['PCC'] >= 0.8]]: NaN compares false. *)
Fixpoint filter_from (i : nat) (df : list raw_row) : list row :=
  match df with
  | [] => []
  | r :: df' =>
      match raw_PCC r with
      | Some p =>
          if Qle_bool threshold p
          then mk_row i (raw_Tumor r) (raw_Gene_Symbol r) p
                 :: filter_from (S i) df'
          else filter_from (S i) df'
      | None => filter_from (S i) df'
      end
  end.

Definition filter_df (df : list raw_row) : list row := filter_from 0 df.

(** [Series.unique()]: distinct values in order of first appearance. *)
Fixpoint unique_aux (seen : list string) (l : list string) : list string :=
  match l with
  | [] => []
  | s :: l' =>
      if str_mem s seen then unique_aux seen l'
      else s :: unique_aux (s :: seen) l'
  end.

Definition unique (l : list string) : list string := unique_aux [] l.

(** [Counter(filtered_df['Tumor'])[tissue]] *)
Definition Counter (l : list string) (k : string) : nat :=
  List.length (filter (String.eqb k) l).

(** [filtered_df[filtered_df['Tumor'] == tissue]] *)
Definition rows_of (tissue : string) (fdf : list row) : list row :=
  filter (fun r => String.eqb (Tumor r) tissue) fdf.

(** [DataFrame.head(n)] *)
Definition head (n : nat) (l : list row) : list row := firstn n l.

(** ** [DataFrame.sort_values('PCC', ascending=False)]

    The call leaves [kind] at its default, ['quicksort'], for which pandas
    promises a reordering of the rows with the key column descending and
    nothing about the relative order of rows whose keys are equal.  The
    layout is therefore stated over any function with that contract. *)

Definition desc (a b : row) : Prop := (PCC b <= PCC a)%Q.

Class SortValues := {
  sort_values : list row -> list row;
  sort_values_perm : forall l, Permutation l (sort_values l);
  sort_values_desc : forall l, StronglySorted desc (sort_values l)
}.

(** ** [networkx.Graph]

    Node attributes and adjacency are dictionaries keyed by node; an
    undirected edge is stored under both endpoints. *)

Inductive ntype := central | tissue | gene.

Definition ntype_eqb (a b : ntype) : bool :=
  match a, b with
  | central, central | tissue, tissue | gene, gene => true
  | _, _ => false
  end.

Record attrs := mk_attrs {
  a_node_type : option ntype;
  a_gene_count : option nat;
  a_pcc : option Q;
  a_tissue : option string
}.

Definition no_attrs : attrs := mk_attrs None None None None.

Definition or_else {A} (new old : option A) : option A :=
  match new with Some _ => new | None => old end.

(** [dict.update]: keys given in [kw] overwrite, the others stay. *)
Definition update (old kw : attrs) : attrs :=
  mk_attrs (or_else (a_node_type kw) (a_node_type old))
           (or_else (a_gene_count kw) (a_gene_count old))
           (or_else (a_pcc kw) (a_pcc old))
           (or_else (a_tissue kw) (a_tissue old)).

Record Graph := mk_graph {
  _node : Dict.t attrs;
  _adj : Dict.t (Dict.t Q)
}.

Definition empty_graph : Graph := mk_graph [] [].

(** [n in G] *)
Definition has_node (n : string) (g : Graph) : bool := Dict.mem n (_node g).

Definition add_node (n : string) (kw : attrs) (g : Graph) : Graph :=
  match Dict.get n (_node g) with
  | None => mk_graph (Dict.set n kw (_node g)) (Dict.set n [] (_adj g))
  | Some old => mk_graph (Dict.set n (update old kw) (_node g)) (_adj g)
  end.

Definition nbrs (n : string) (adj : Dict.t (Dict.t Q)) : Dict.t Q :=
  match Dict.get n adj with Some d => d | None => [] end.

Definition ensure_node (n : string) (g : Graph) : Graph :=
  if has_node n g then g
  else mk_graph (Dict.set n no_attrs (_node g)) (Dict.set n [] (_adj g)).

Definition add_edge (u v : string) (weight : Q) (g : Graph) : Graph :=
  let g1 := ensure_node v (ensure_node u g) in
  let adj1 := Dict.set u (Dict.set v weight (nbrs u (_adj g1))) (_adj g1) in
  let adj2 := Dict.set v (Dict.set u weight (nbrs v adj1)) adj1 in
  mk_graph (_node g1) adj2.

(** [G.nodes()] *)
Definition nodes (g : Graph) : list string := Dict.keys (_node g).

Definition get_attrs (n : string) (g : Graph) : attrs :=
  match Dict.get n (_node g) with Some a => a | None => no_attrs end.

(** [G.edges()]: each edge once, from the endpoint met first. *)
Fixpoint edges_from (seen : list string) (adj : Dict.t (Dict.t Q))
  : list (string * string * Q) :=
  match adj with
  | [] => []
  | (n, ns) :: rest =>
      map (fun e => (n, fst e, snd e))
          (filter (fun e => negb (str_mem (fst e) seen)) ns)
        ++ edges_from (n :: seen) rest
  end.

Definition edges (g : Graph) : list (string * string * Q) :=
  edges_from [] (_adj g).

Definition has_edge (u v : string) (g : Graph) : bool :=
  Dict.mem v (nbrs u (_adj g)).

(** ** Layout engine: [create_web_network], lines 17-166 *)

Definition color_list : list string :=
  [ "#4daf4a"; "#f781bf"; "#a65628"; "#984ea3"; "#999999"; "#e41a1c";
    "#377eb8"; "#ff7f00"; "#ffff33"; "#a6cee3"; "#1f78b4"; "#b2df8a";
    "#33a02c"; "#fb9a99"; "#e31a1c"; "#fdbf6f"; "#ff7f00"; "#cab2d6";
    "#6a3d9a"; "#ffff99"; "#b15928"; "#00ffff" ].

(** [enumerate] *)
Fixpoint enumerate_from {A} (i : nat) (l : list A) : list (nat * A) :=
  match l with
  | [] => []
  | a :: l' => (i, a) :: enumerate_from (S i) l'
  end.

Definition enumerate {A} (l : list A) : list (nat * A) := enumerate_from 0 l.

Definition tissue_colors (tissue_types : list string) : Dict.t string :=
  fold_left
    (fun d it =>
       Dict.set (snd it)
         (nth (fst it mod List.length color_list) color_list "") d)
    (enumerate tissue_types) [].

Definition radius : R := 400%R.

Definition golden_angle : R := (PI * (3 - sqrt 5))%R.

(** Position of the [i]-th tissue, lines 55-57. *)
Definition tissue_anchor (i : nat) : R * R :=
  let angle := (INR i * golden_angle)%R in
  ((radius * cos angle)%R, (radius * sin angle)%R).

Definition max_genes_per_tissue : nat := 150.

(** Lines 70-75. *)
Definition select_genes `{SortValues} (fdf : list row) (tissue : string)
  : list row :=
  let tissue_genes := sort_values (rows_of tissue fdf) in
  if max_genes_per_tissue <? List.length tissue_genes
  then head max_genes_per_tissue tissue_genes
  else tissue_genes.

(** Line 91: [idx] is the label that [iterrows] yields with the row. *)
Definition base_angle (idx n : nat) : R := (INR idx / INR n * 2 * PI)%R.

(** Line 93. *)
Definition base_distance (pcc : Q) : R := (50 + (1 - Q2R pcc) * 150)%R.

(** Line 97. *)
Definition noise_scale (pcc : Q) : Q := (0.3 + 0.6 * (1 - pcc))%Q.

(** The state that the two loops of the layout thread through; [drawn]
    counts the samples taken from [np.random] so far. *)
Record layout := mk_layout {
  G : Graph;
  fixed_positions : Dict.t (R * R);
  genes_added : nat;
  drawn : nat
}.

Definition position_of (n : string) (pos : Dict.t (R * R)) : R * R :=
  match Dict.get n pos with Some p => p | None => (0%R, 0%R) end.

Section Layout.

(** [standard_normal k] is the [k]-th sample of the ambient generator;
    [np.random.normal(0, s)] is [0 + s * sample] when [0 <= s], and
    raises otherwise (see [rejects] below). *)
Variable standard_normal : nat -> R.

Definition normal (k : nat) (scale : Q) : R :=
  (0 + Q2R scale * standard_normal k)%R.

Variable central_node : string.

(** Body of the loop of lines 54-62. *)
Definition place_tissue (counts : string -> nat) (st : layout)
  (it : nat * string) : layout :=
  let (i, t) := it in
  let pos := Dict.set t (tissue_anchor i) (fixed_positions st) in
  let g1 :=
    add_node t (mk_attrs (Some tissue) (Some (counts t)) None None) (G st) in
  let g2 := add_edge central_node t 5.0%Q g1 in
  mk_layout g2 pos (genes_added st) (drawn st).

(** Body of the loop of lines 78-107, for a tissue with [n] selected rows. *)
Definition place_gene (t : string) (n : nat) (st : layout) (r : row)
  : layout :=
  let gene_id := Gene_Symbol r in
  let pcc := PCC r in
  let fresh := negb (has_node gene_id (G st)) in
  let g1 :=
    if fresh
    then add_node gene_id (mk_attrs (Some gene) None (Some pcc) (Some t)) (G st)
    else G st in
  let added := if fresh then S (genes_added st) else genes_added st in
  let g2 := add_edge gene_id t (pcc * 3)%Q g1 in
  let angle := base_angle (idx r) n in
  let distance := base_distance pcc in
  let angle_noise := (normal (drawn st) (noise_scale pcc) * 0.5)%R in
  let distance_noise := (normal (S (drawn st)) (noise_scale pcc) * 50)%R in
  let cloud_angle := (angle + angle_noise)%R in
  let cloud_distance := (distance + distance_noise)%R in
  let anchor := position_of t (fixed_positions st) in
  let x := (fst anchor + cloud_distance * cos cloud_angle)%R in
  let y := (snd anchor + cloud_distance * sin cloud_angle)%R in
  mk_layout g2 (Dict.set gene_id (x, y) (fixed_positions st))
            added (S (S (drawn st))).

Context `{SortValues}.

(** Body of the loop of lines 68-107. *)
Definition place_genes_of (fdf : list row) (st : layout) (t : string)
  : layout :=
  let tissue_genes := select_genes fdf t in
  fold_left (place_gene t (List.length tissue_genes)) tissue_genes st.

Definition initial_layout : layout :=
  mk_layout (add_node central_node (mk_attrs (Some central) None None None)
               empty_graph)
            (Dict.set central_node (0%R, 0%R) []) 0 0.

(** The layout after the tissue loop (line 62). *)
Definition tissues_placed (fdf : list row) : layout :=
  let tissue_types := unique (map Tumor fdf) in
  fold_left (place_tissue (Counter (map Tumor fdf)))
            (enumerate tissue_types) initial_layout.

(** The layout after the gene loop (line 107). *)
Definition build_layout (fdf : list row) : layout :=
  let tissue_types := unique (map Tumor fdf) in
  fold_left (place_genes_of fdf) tissue_types (tissues_placed fdf).

End Layout.

(** ** Serialised data model, lines 111-166

    One record serves the three kinds of entries of [nodes_data]; the
    keys that an entry of some kind does not carry ([gene_count], [pcc],
    [tissue]) hold 0 or the empty string and are never read for that
    kind.  [size], [pcc], [x] and [y] are JSON numbers. *)

Module Node.
Record node := mk_node {
  id : string;
  name : string;
  node_type : ntype;
  size : R;
  color : string;
  gene_count : nat;
  pcc : R;
  tissue_of : string;
  x : R;
  y : R;
  label : string
}.
End Node.
Abbreviation node := Node.node.
Abbreviation mk_node := Node.mk_node.

Module Link.
Record link := mk_link {
  source : string;
  target : string;
  value : R
}.
End Link.
Abbreviation link := Link.link.
Abbreviation mk_link := Link.mk_link.

Definition str_of_nat (n : nat) : string :=
  NilZero.string_of_uint (Nat.to_uint n).

Definition get_or {V} (k : string) (d : Dict.t V) (default : V) : V :=
  match Dict.get k d with Some v => v | None => default end.

Definition from_option {A} (o : option A) (default : A) : A :=
  match o with Some a => a | None => default end.

Definition central_entry (central_node : string) (pos : Dict.t (R * R))
  : node :=
  mk_node central_node central_node central 50%R "red" 0 0%R ""
          (fst (position_of central_node pos))
          (snd (position_of central_node pos))
          (central_node ++ " (central)").

(** Body of the loop of lines 128-158. *)
Definition node_entry (central_node : string) (colors : Dict.t string)
  (st : layout) (n : string) : list node :=
  if String.eqb n central_node then []
  else
    let a := get_attrs n (G st) in
    let p := position_of n (fixed_positions st) in
    match a_node_type a with
    | Some tissue =>
        [ mk_node n n tissue 25%R (get_or n colors "#999999")
            (from_option (a_gene_count a) 0) 0%R "" (fst p) (snd p)
            (n ++ " (n=" ++ str_of_nat (from_option (a_gene_count a) 0)
               ++ ")") ]
    | Some gene =>
        let t := a_tissue a in
        [ mk_node n n gene 3%R
            (match t with
             | Some t' => get_or t' colors "#999999"
             | None => "#999999"
             end)
            0
            (Q2R (from_option (a_pcc a) 0%Q))
            (from_option t "") (fst p) (snd p) "" ]
    | _ => []
    end.

Definition nodes_data (central_node : string) (colors : Dict.t string)
  (st : layout) : list node :=
  central_entry central_node (fixed_positions st)
    :: flat_map (node_entry central_node colors st) (nodes (G st)).

Definition links_data (g : Graph) : list link :=
  map (fun e => mk_link (fst (fst e)) (snd (fst e)) (Q2R (snd e))) (edges g).

(** ** The failure boundary, lines 13-870 *)

(** Exceptions that printing, loading, laying out and writing raise; each
    of these classes derives from [Exception]. *)
Inductive exn :=
| FileNotFoundError
| ParserError
| KeyError
| TypeError
| ValueError
| OSError
| UnicodeEncodeError.

Record page := mk_page {
  page_nodes : list node;
  page_links : list link
}.

Inductive event :=
| Loading (input_file : string)
| Found (tissue_types genes : nat)
| Limiting (t : string) (from to : nat)
| Added (genes : nat)
| Written (output_file : string) (p : page)
| Saved (output_file : string)
| Opened (output_file : string)
| Error (e : exn)
| Traceback (e : exn).

(** What [pd.read_csv] hands back.  [Frame] and [NoGeneSymbol] are the
    frames whose cells of [Tumor] and [Gene Symbol] all hold text.  For
    any other frame (a label cell is missing or holds a number) the
    layout is not modelled: [Other] takes as given what lines 18-166
    print, whether they raise or else which graph, positions and page
    they build, and whether [json.dumps] (lines 852-853) raises. *)
Inductive frame :=
| Frame (rows : list raw_row)
| NoGeneSymbol (rows : list raw_row)
                    (* no column 'Gene Symbol'; the symbols are not read *)
| NoSuchColumn      (* the column 'PCC' or the column 'Tumor' is absent *)
| NotNumeric        (* the PCC column holds text *)
| Other (printed : list event)
        (built : exn + Graph * Dict.t (R * R) * page)
        (dumps : option exn).

(** The file system, the browser and the standard streams as the run
    meets them.  [streams done ev] is the exception that writing the
    message [ev] raises, if any, after the effects [done]. *)
Record world := mk_world {
  read_csv : string -> exn + frame;
  makedirs : string -> option exn;
  open_write : string -> option exn;
  webbrowser_open : string -> option exn;
  streams : list event -> event -> option exn
}.

(** Computations that act on the world and may raise; the list is the
    trace of what was printed and done. *)
Definition M (A : Type) : Type := list event -> (exn + A) * list event.

Definition ret {A} (a : A) : M A := fun log => (inr a, log).

Definition raise {A} (e : exn) : M A := fun log => (inl e, log).

Definition bind {A B} (m : M A) (k : A -> M B) : M B :=
  fun log =>
    match m log with
    | (inl e, log') => (inl e, log')
    | (inr a, log') => k a log'
    end.

(** An effect that has succeeded. *)
Definition emit (ev : event) : M unit := fun log => (inr tt, log ++ [ev]).

(** [print(...)], and [traceback.print_exc()]. *)
Definition print (w : world) (ev : event) : M unit :=
  fun log =>
    match streams w log ev with
    | Some e => (inl e, log)
    | None => (inr tt, log ++ [ev])
    end.

Definition lift {A} (r : exn + A) : M A :=
  match r with inl e => raise e | inr a => ret a end.

Definition guard (r : option exn) : M unit :=
  match r with Some e => raise e | None => ret tt end.

(** [try: body except Exception as e: handler e] *)
Definition try_except {A} (body : M A) (handler : exn -> M A) : M A :=
  fun log =>
    match body log with
    | (inl e, log') => handler e log'
    | (inr a, log') => (inr a, log')
    end.

Notation "x <- m ;; k" := (bind m (fun x => k))
  (at level 61, m at next level, right associativity).
Notation "m ;;; k" := (bind m (fun _ => k))
  (at level 61, right associativity).

Fixpoint print_all (w : world) (evs : list event) : M unit :=
  match evs with
  | [] => ret tt
  | ev :: evs' => print w ev ;;; print_all w evs'
  end.

Section Generator.

Variable standard_normal : nat -> R.
Context `{SortValues}.

(** [np.random.normal(0, noise_scale)] raises [ValueError] on a negative
    scale, that is for a row whose correlation exceeds 1.5. *)
Definition rejects (r : row) : bool :=
  negb (Qle_bool 0 (noise_scale (PCC r))).

(** The tissues that the gene loop enters: all of them, or those up to
    the first one with a selected row that is rejected. *)
Fixpoint entered (fdf : list row) (ts : list string) : list string * bool :=
  match ts with
  | [] => ([], false)
  | t :: ts' =>
      if existsb rejects (select_genes fdf t) then ([t], true)
      else let (l, failed) := entered fdf ts' in (t :: l, failed)
  end.

(** The messages of line 74, one per tissue entered that exceeds the
    cap. *)
Definition limiting (fdf : list row) (ts : list string) : list event :=
  flat_map
    (fun t =>
       let n := List.length (sort_values (rows_of t fdf)) in
       if max_genes_per_tissue <? n
       then [Limiting t n max_genes_per_tissue] else [])
    ts.

Definition make_page (central_node : string) (fdf : list row) : page :=
  let tissue_types := unique (map Tumor fdf) in
  let st := build_layout standard_normal central_node fdf in
  mk_page (nodes_data central_node (tissue_colors tissue_types) st)
          (links_data (G st)).

(** Lines 24-166 with the column 'Gene Symbol' ([symbols]) or without
    it: line 79 then raises [KeyError] at the first row of the first
    tissue, and is not reached when no row has passed the filter. *)
Definition lay_out (w : world) (central_node : string) (symbols : bool)
  (rows : list raw_row) : M (Graph * Dict.t (R * R) * page) :=
  let fdf := filter_df rows in
  let tissue_types := unique (map Tumor fdf) in
  print w (Found (List.length tissue_types) (List.length fdf)) ;;;
  (if symbols
   then
     print_all w (limiting fdf (fst (entered fdf tissue_types))) ;;;
     guard (if snd (entered fdf tissue_types) then Some ValueError
            else None)
   else
     match tissue_types with
     | [] => ret tt
     | t :: _ => print_all w (limiting fdf [t]) ;;; raise KeyError
     end) ;;;
  let st := build_layout standard_normal central_node fdf in
  print w (Added (genes_added st)) ;;;
  ret (G st, fixed_positions st, make_page central_node fdf).

(** Lines 18-166. *)
Definition build (w : world) (central_node : string) (df : frame)
  : M (Graph * Dict.t (R * R) * page) :=
  match df with
  | Frame rows => lay_out w central_node true rows
  | NoGeneSymbol rows => lay_out w central_node false rows
  | NoSuchColumn => raise KeyError
  | NotNumeric => raise TypeError
  | Other printed built _ => print_all w printed ;;; lift built
  end.

(** [json.dumps], lines 852-853: text, numbers and NaN are serialised. *)
Definition json_dumps (df : frame) : option exn :=
  match df with
  | Other _ _ dumps => dumps
  | _ => None
  end.

Definition create_web_network (w : world)
  (input_file central_node output_file : string)
  : M (option Graph * option (Dict.t (R * R))) :=
  print w (Loading input_file) ;;;
  try_except
    (df <- lift (read_csv w input_file) ;;
     built <- build w central_node df ;;
     guard (makedirs w output_file) ;;;
     guard (json_dumps df) ;;;
     guard (open_write w output_file) ;;;
     emit (Written output_file (snd built)) ;;;
     print w (Saved output_file) ;;;
     guard (webbrowser_open w output_file) ;;;
     emit (Opened output_file) ;;;
     ret (Some (fst (fst built)), Some (snd (fst built))))
    (fun e =>
       print w (Error e) ;;;
       print w (Traceback e) ;;;
       ret (None, None)).

End Generator.

(** A sorting procedure that meets the contract of [sort_values], to
    evaluate the layout on tables in which no two rows of a tissue have
    the same correlation; on such tables every procedure that meets the
    contract returns the same rows in the same order. *)

Fixpoint insert_before_ties (r : row) (l : list row) : list row :=
  match l with
  | [] => [r]
  | a :: l' =>
      if Qle_bool (PCC a) (PCC r) then r :: a :: l'
      else a :: insert_before_ties r l'
  end.

Fixpoint sort_keeping_ties (l : list row) : list row :=
  match l with
  | [] => []
  | r :: l' => insert_before_ties r (sort_keeping_ties l')
  end.

(** ** Interactive renderer: the script of lines 346-849

    Node objects are shared between [nodesData], [nodeMap], [dragNode]
    and the arrays that [filter] returns; a reference to a node is its
    index in [nodesData]. *)

Record mouse_event := mk_event {
  clientX : R;
  clientY : R;
  deltaY : R
}.

(** The document as the script reads it. *)
Record dom := mk_dom {
  clientWidth : R;
  clientHeight : R;
  rect_left : R;
  rect_top : R
}.

Inductive shape :=
| Segment (x1 y1 x2 y2 : R)
| Disc (cx cy r : R) (fill : string) (lineWidth : option R)
| Plate (cx cy : R) (text ink : string).

(** One repaint: the transform in force and what was drawn, in order. *)
Record picture := mk_picture {
  p_offsetX : R;
  p_offsetY : R;
  p_scale : R;
  shapes : list shape
}.

Record renderer := mk_renderer {
  nodesData : list node;
  linksData : list link;
  width : R;
  height : R;
  scale : R;
  offsetX : R;
  offsetY : R;
  dragNode : option nat;
  dragOffsetX : R;
  dragOffsetY : R;
  isDraggingCanvas : bool;
  startX : R;
  startY : R;
  used : nat;                (* samples taken from [Math.random] *)
  painted : list picture     (* every repaint so far, oldest first *)
}.

Definition MIN_SCALE : R := 0.1%R.
Definition MAX_SCALE : R := 5%R.

Definition Rleb (a b : R) : bool := if Rle_dec a b then true else false.
Definition Rltb (a b : R) : bool := if Rlt_dec a b then true else false.

Definition is_type (k : ntype) (nd : node) : bool :=
  ntype_eqb (Node.node_type nd) k.

(** [nodesData.filter(p)], as references. *)
Definition indices_where (p : node -> bool) (ns : list node) : list nat :=
  map fst (filter (fun it => p (snd it)) (enumerate ns)).

(** [nodesData.find(p)], as a reference. *)
Definition index_where (p : node -> bool) (ns : list node) : option nat :=
  match indices_where p ns with
  | [] => None
  | i :: _ => Some i
  end.

(** [nodeMap[k]]: the last node stored under that id. *)
Definition nodeMap (ns : list node) (k : string) : option nat :=
  match rev (indices_where (fun nd => String.eqb (Node.id nd) k) ns) with
  | [] => None
  | i :: _ => Some i
  end.

(** The nodes in the order in which [drawNetworkToContext] paints their
    discs: genes, then tissues, then the central node. *)
Definition draw_order (ns : list node) : list nat :=
  indices_where (is_type gene) ns
    ++ indices_where (is_type tissue) ns
    ++ match index_where (is_type central) ns with
       | Some i => [i]
       | None => []
       end.

Definition disc_of (nd : node) : shape :=
  Disc (Node.x nd) (Node.y nd) (Node.size nd) (Node.color nd)
       (match Node.node_type nd with
        | gene => None
        | tissue => Some 1%R
        | central => Some 2%R
        end).

Definition at_index {A} (l : list A) (i : nat) : list A :=
  match nth_error l i with Some a => [a] | None => [] end.

Definition drawNetworkToContext (st : renderer) : picture :=
  let ns := nodesData st in
  mk_picture (offsetX st) (offsetY st) (scale st)
    (flat_map
       (fun l =>
          match nodeMap ns (Link.source l), nodeMap ns (Link.target l) with
          | Some i, Some j =>
              match nth_error ns i, nth_error ns j with
              | Some s, Some t =>
                  [Segment (Node.x s) (Node.y s) (Node.x t) (Node.y t)]
              | _, _ => []
              end
          | _, _ => []
          end)
       (linksData st)
     ++ map disc_of (flat_map (at_index ns) (draw_order ns))
     ++ map (fun nd =>
               Plate (Node.x nd) (Node.y nd) (Node.label nd)
                     (if is_type central nd then "red" else "black"))
            (filter (fun nd => is_type tissue nd || is_type central nd) ns)).

Definition with_painted (st : renderer) (ps : list picture) : renderer :=
  mk_renderer (nodesData st) (linksData st) (width st) (height st)
    (scale st) (offsetX st) (offsetY st) (dragNode st) (dragOffsetX st)
    (dragOffsetY st) (isDraggingCanvas st) (startX st) (startY st)
    (used st) ps.

Definition with_view (st : renderer) (s ox oy : R) : renderer :=
  mk_renderer (nodesData st) (linksData st) (width st) (height st)
    s ox oy (dragNode st) (dragOffsetX st)
    (dragOffsetY st) (isDraggingCanvas st) (startX st) (startY st)
    (used st) (painted st).

Definition with_size (st : renderer) (w h : R) : renderer :=
  mk_renderer (nodesData st) (linksData st) w h
    (scale st) (offsetX st) (offsetY st) (dragNode st) (dragOffsetX st)
    (dragOffsetY st) (isDraggingCanvas st) (startX st) (startY st)
    (used st) (painted st).

Definition with_nodes (st : renderer) (ns : list node) (k : nat)
  : renderer :=
  mk_renderer ns (linksData st) (width st) (height st)
    (scale st) (offsetX st) (offsetY st) (dragNode st) (dragOffsetX st)
    (dragOffsetY st) (isDraggingCanvas st) (startX st) (startY st)
    k (painted st).

Definition with_drag (st : renderer) (nd : option nat) (dx dy : R)
  (canvas : bool) (sx sy : R) : renderer :=
  mk_renderer (nodesData st) (linksData st) (width st) (height st)
    (scale st) (offsetX st) (offsetY st) nd dx dy canvas sx sy
    (used st) (painted st).

(** [draw()]: clear the canvas and repaint. *)
Definition draw (st : renderer) : renderer :=
  with_painted st (painted st ++ [drawNetworkToContext st]).

Definition resetView (st : renderer) : renderer :=
  draw (with_view st 1%R (width st / 2)%R (height st / 2)%R).

Definition resizeCanvas (d : dom) (st : renderer) : renderer :=
  draw (with_size st (clientWidth d) (clientHeight d)).

(** The test of lines 808-809 on one node. *)
Definition hit (st : renderer) (px py : R) (nd : node) : bool :=
  let nodeScreenX := (Node.x nd * scale st + offsetX st)%R in
  let nodeScreenY := (Node.y nd * scale st + offsetY st)%R in
  let size := (Node.size nd * scale st)%R in
  let distance := sqrt ((px - nodeScreenX) ^ 2 + (py - nodeScreenY) ^ 2) in
  Rleb distance size.

(** The loop of [getNodeAtPosition] with [i] nodes left to look at:
    indices [i - 1] down to 0. *)
Fixpoint scan_down (st : renderer) (px py : R) (i : nat) : option nat :=
  match i with
  | O => None
  | S j =>
      match nth_error (nodesData st) j with
      | Some nd => if hit st px py nd then Some j else scan_down st px py j
      | None => scan_down st px py j
      end
  end.

Definition getNodeAtPosition (st : renderer) (px py : R) : option nat :=
  scan_down st px py (List.length (nodesData st)).

Section Handlers.

Variable d : dom.

(** [handleMouseDown] *)
Definition handleMouseDown (ev : mouse_event) (st : renderer) : renderer :=
  let mouseX := (clientX ev - rect_left d)%R in
  let mouseY := (clientY ev - rect_top d)%R in
  match getNodeAtPosition st mouseX mouseY with
  | Some i =>
      match nth_error (nodesData st) i with
      | Some nd =>
          with_drag st (Some i)
            ((mouseX - offsetX st) / scale st - Node.x nd)%R
            ((mouseY - offsetY st) / scale st - Node.y nd)%R
            (isDraggingCanvas st) (startX st) (startY st)
      | None => st
      end
  | None =>
      with_drag st (dragNode st) (dragOffsetX st) (dragOffsetY st)
        true mouseX mouseY
  end.

Definition set_xy (nx ny : R) (nd : node) : node :=
  mk_node (Node.id nd) (Node.name nd) (Node.node_type nd) (Node.size nd)
    (Node.color nd) (Node.gene_count nd) (Node.pcc nd) (Node.tissue_of nd)
    nx ny (Node.label nd).

(** Assignment to the fields [x] and [y] of the node behind reference [j]. *)
Fixpoint move_node (j : nat) (nx ny : R) (ns : list node) : list node :=
  match ns, j with
  | [], _ => []
  | nd :: ns', O => set_xy nx ny nd :: ns'
  | nd :: ns', S j' => nd :: move_node j' nx ny ns'
  end.

(** [handleMouseMove] (the hover branch changes nothing that is kept). *)
Definition handleMouseMove (ev : mouse_event) (st : renderer) : renderer :=
  let mouseX := (clientX ev - rect_left d)%R in
  let mouseY := (clientY ev - rect_top d)%R in
  match dragNode st with
  | Some j =>
      draw (with_nodes st
              (move_node j
                 ((mouseX - offsetX st) / scale st - dragOffsetX st)%R
                 ((mouseY - offsetY st) / scale st - dragOffsetY st)%R
                 (nodesData st))
              (used st))
  | None =>
      if isDraggingCanvas st
      then
        draw (with_drag
                (with_view st (scale st)
                   (offsetX st + (mouseX - startX st))%R
                   (offsetY st + (mouseY - startY st))%R)
                (dragNode st) (dragOffsetX st) (dragOffsetY st)
                (isDraggingCanvas st) mouseX mouseY)
      else st
  end.

(** [handleMouseUp] *)
Definition handleMouseUp (st : renderer) : renderer :=
  with_drag st None (dragOffsetX st) (dragOffsetY st) false
    (startX st) (startY st).

(** [handleWheel] *)
Definition handleWheel (ev : mouse_event) (st : renderer) : renderer :=
  let mouseX := (clientX ev - rect_left d)%R in
  let mouseY := (clientY ev - rect_top d)%R in
  let x := ((mouseX - offsetX st) / scale st)%R in
  let y := ((mouseY - offsetY st) / scale st)%R in
  let scale1 :=
    if Rltb (deltaY ev) 0 then (scale st * 1.1)%R else (scale st * 0.9)%R in
  let scale2 := Rmax MIN_SCALE (Rmin MAX_SCALE scale1) in
  draw (with_view st scale2 (mouseX - x * scale2)%R (mouseY - y * scale2)%R).

(** [random k] is the [k]-th value that [Math.random()] returns. *)
Variable random : nat -> R.

Definition pcc_at (ns : list node) (j : nat) : R :=
  match nth_error ns j with Some nd => Node.pcc nd | None => 0%R end.

(** [Array.prototype.sort] with the comparator [(a, b) => b.pcc - a.pcc],
    on references; the sort is stable. *)
Fixpoint insert_by_pcc (ns : list node) (j : nat) (l : list nat) : list nat :=
  match l with
  | [] => [j]
  | k :: l' =>
      if Rltb (pcc_at ns j) (pcc_at ns k) then k :: insert_by_pcc ns j l'
      else j :: k :: l'
  end.

Fixpoint sort_by_pcc (ns : list node) (l : list nat) : list nat :=
  match l with
  | [] => []
  | j :: l' => insert_by_pcc ns j (sort_by_pcc ns l')
  end.

(** Body of the inner [forEach] of [optimizeLayout], for the tissue behind
    reference [ti], the gene behind [snd it] at rank [fst it] of [n]. *)
Definition relocate (ti n : nat) (acc : list node * nat) (it : nat * nat)
  : list node * nat :=
  let (ns, k) := acc in
  let (idx, j) := it in
  match nth_error ns ti, nth_error ns j with
  | Some t, Some g =>
      let angle := (INR idx / INR n * 2 * PI)%R in
      let baseDistance := (40 + (1 - Node.pcc g) * 100)%R in
      let noiseScale := (0.2 + 0.5 * (1 - Node.pcc g))%R in
      let angleNoise := ((random k - 0.5) * noiseScale * PI)%R in
      let distanceNoise := ((random (S k) * 2 - 1) * noiseScale * 60)%R in
      let cloudAngle := (angle + angleNoise)%R in
      let cloudDistance := Rmax 20 (baseDistance + distanceNoise) in
      (move_node j (Node.x t + cloudDistance * cos cloudAngle)%R
                   (Node.y t + cloudDistance * sin cloudAngle)%R ns,
       S (S k))
  | _, _ => acc
  end.

(** Body of the outer [forEach]. *)
Definition relocate_genes_of (acc : list node * nat) (ti : nat)
  : list node * nat :=
  let ns := fst acc in
  match nth_error ns ti with
  | Some t =>
      let tissueGenes :=
        sort_by_pcc ns
          (indices_where
             (fun nd => is_type gene nd
                        && String.eqb (Node.tissue_of nd) (Node.name t))
             ns) in
      fold_left (relocate ti (List.length tissueGenes))
                (enumerate tissueGenes) acc
  | None => acc
  end.

Definition optimizeLayout (st : renderer) : renderer :=
  let tissueNodes := indices_where (is_type tissue) (nodesData st) in
  let acc := fold_left relocate_genes_of tissueNodes (nodesData st, used st) in
  draw (with_nodes st (fst acc) (snd acc)).

(** [initialize]; the legend and the listeners leave the state alone. *)
Definition initialize (st : renderer) : renderer :=
  optimizeLayout (resizeCanvas d st).

(** The state in which the script runs [initialize()], lines 347-378. *)
Definition start (ns : list node) (ls : list link) : renderer :=
  mk_renderer ns ls (clientWidth d) (clientHeight d) 1%R
    (clientWidth d / 2)%R (clientHeight d / 2)%R None 0%R 0%R false 0%R 0%R
    0 [].

End Handlers.

(** ** Binary64: the anchors of lines 51-57 and [handleWheel], lines
    769-797, as the machine computes them *)

Module Binary64.

Import PrimFloat.
#[local] Set Warnings "-inexact-float".
#[local] Open Scope float_scope.

Abbreviation float := PrimFloat.float.

(** [Math.max] and [Math.min] of two numbers. *)
Definition Math_max (a b : float) : float :=
  if is_nan a || is_nan b then nan
  else if a <? b then b
  else if b <? a then a
  else if get_sign a then b else a.

Definition Math_min (a b : float) : float :=
  if is_nan a || is_nan b then nan
  else if a <? b then a
  else if b <? a then b
  else if get_sign a then a else b.

(** [math.pi] *)
Definition pi : float := 0x1.921fb54442d18p+1.

Definition radius : float := 400.

(** [math.sqrt] is correctly rounded. *)
Definition golden_angle : float := pi * (3 - sqrt 5).

(** The rank [i] as a number; ranks stay far below 2^53. *)
Definition of_nat (i : nat) : float := of_uint63 (Uint63.of_Z (Z.of_nat i)).

Section Libm.

(** [math.cos] and [math.sin] are those of the platform's C library. *)
Variables cos sin : float -> float.

Definition tissue_anchor (i : nat) : float * float :=
  let angle := of_nat i * golden_angle in
  (radius * cos angle, radius * sin angle).

End Libm.

Record mouse_event := mk_event {
  clientX : float;
  clientY : float;
  deltaY : float
}.

Record dom := mk_dom {
  rect_left : float;
  rect_top : float
}.

(** The part of the state that [handleWheel] reads and writes. *)
Record view := mk_view {
  scale : float;
  offsetX : float;
  offsetY : float
}.

Definition MIN_SCALE : float := 0.1.
Definition MAX_SCALE : float := 5.

Definition handleWheel (d : dom) (ev : mouse_event) (st : view) : view :=
  let mouseX := clientX ev - rect_left d in
  let mouseY := clientY ev - rect_top d in
  let x := (mouseX - offsetX st) / scale st in
  let y := (mouseY - offsetY st) / scale st in
  let scale1 := if deltaY ev <? 0 then scale st * 1.1 else scale st * 0.9 in
  let scale2 := Math_max MIN_SCALE (Math_min MAX_SCALE scale1) in
  mk_view scale2 (mouseX - x * scale2) (mouseY - y * scale2).

(** The plane coordinates under the cursor, through the view
    transform. *)
Definition under_cursor (d : dom) (ev : mouse_event) (st : view)
  : float * float :=
  ((clientX ev - rect_left d - offsetX st) / scale st,
   (clientY ev - rect_top d - offsetY st) / scale st).

(** The rational number that a finite number denotes. *)
Definition exact (x : float) : Q :=
  match FloatOps.Prim2SF x with
  | SpecFloat.S754_finite s m e =>
      let z := if s then Z.neg m else Z.pos m in
      match e with
      | Zneg p => Qmake z (2 ^ p)
      | _ => inject_Z (z * 2 ^ e)
      end
  | _ => 0%Q
  end.

(** The point is at distance [radius] from the origin: as [math.sqrt]
    of the sum of the squares computes it, or as the numbers that the
    coordinates denote have it. *)
Definition distance_from_origin (p : float * float) : float :=
  sqrt (fst p * fst p + snd p * snd p).

Definition on_circle (p : float * float) : bool :=
  (distance_from_origin p =? radius)
  || Qeq_bool (exact (fst p) * exact (fst p) + exact (snd p) * exact (snd p))
              (exact radius * exact radius).

(** A number and its two neighbours. *)
Definition near (x : float) : list float := [next_down x; x; next_up x].

End Binary64.

(** * Properties *)

(** ** The sorting procedure meets the contract *)

Lemma insert_before_ties_perm r l : Permutation (r :: l) (insert_before_ties r l).
Proof.
  induction l as [|a l IH]; simpl; [reflexivity|].
  destruct (Qle_bool (PCC a) (PCC r)); [reflexivity|].
  rewrite perm_swap. now constructor.
Qed.

Lemma sort_keeping_ties_perm l : Permutation l (sort_keeping_ties l).
Proof.
  induction l as [|r l IH]; simpl; [constructor|].
  rewrite <- insert_before_ties_perm. now constructor.
Qed.

Lemma Qle_bool_false a b : Qle_bool a b = false -> (b < a)%Q.
Proof.
  intros E. apply Qnot_le_lt. intros Hle.
  apply Qle_bool_iff in Hle. congruence.
Qed.

Lemma insert_before_ties_sorted r l :
  StronglySorted desc l -> StronglySorted desc (insert_before_ties r l).
Proof.
  induction 1 as [|a l Hs IH Ha]; simpl.
  - repeat constructor.
  - destruct (Qle_bool (PCC a) (PCC r)) eqn:E.
    + apply Qle_bool_iff in E.
      constructor; [now constructor|].
      constructor; [exact E|].
      rewrite Forall_forall in *. intros b Hb. unfold desc in *.
      eapply Qle_trans; [apply Ha, Hb | exact E].
    + apply Qle_bool_false in E.
      constructor; [exact IH|].
      rewrite Forall_forall in *. intros b Hb.
      apply (Permutation_in _ (Permutation_sym (insert_before_ties_perm r l))) in Hb.
      destruct Hb as [<-|Hb]; [now apply Qlt_le_weak | now apply Ha].
Qed.

Lemma sort_keeping_ties_sorted l : StronglySorted desc (sort_keeping_ties l).
Proof.
  induction l; simpl; [constructor | now apply insert_before_ties_sorted].
Qed.

Definition keeping_ties : SortValues :=
  Build_SortValues sort_keeping_ties sort_keeping_ties_perm
                   sort_keeping_ties_sorted.

(** The table of the end-to-end scenario. *)
Definition three_rows : list raw_row :=
  [ mk_raw "TissueA" "Gene1" (Some 0.95%Q);
    mk_raw "TissueA" "Gene2" (Some 0.81%Q);
    mk_raw "TissueB" "Gene3" (Some 0.79%Q) ].

Definition no_noise (k : nat) : R := 0%R.

(** ** Selection *)

Lemma sorted_pair_unique `{SortValues} (a b : row) :
  (PCC b < PCC a)%Q -> sort_values [a; b] = [a; b].
Proof.
  intros Hlt.
  destruct (Permutation_length_2_inv (sort_values_perm [a; b])) as [E|E];
    [exact E|].
  pose proof (sort_values_desc [a; b]) as Hs. rewrite E in Hs.
  inversion Hs as [|? ? _ Hall]; subst.
  inversion Hall as [|? ? Hd _]; subst.
  unfold desc in Hd. exfalso. apply (Qlt_irrefl (PCC a)).
  eapply Qle_lt_trans; eassumption.
Qed.

Lemma sorted_pair_swapped `{SortValues} (a b : row) :
  (PCC a < PCC b)%Q -> sort_values [a; b] = [b; a].
Proof.
  intros Hlt.
  destruct (Permutation_length_2_inv (sort_values_perm [a; b])) as [E|E];
    [|exact E].
  pose proof (sort_values_desc [a; b]) as Hs. rewrite E in Hs.
  inversion Hs as [|? ? _ Hall]; subst.
  inversion Hall as [|? ? Hd _]; subst.
  unfold desc in Hd. exfalso. apply (Qlt_irrefl (PCC b)).
  eapply Qle_lt_trans; eassumption.
Qed.

Lemma In_firstn {A} n (l : list A) a : In a (firstn n l) -> In a l.
Proof.
  intros Hin. rewrite <- (firstn_skipn n l). apply in_or_app. now left.
Qed.

Lemma select_genes_length `{SortValues} fdf t :
  List.length (select_genes fdf t) <= max_genes_per_tissue.
Proof.
  unfold select_genes, head.
  destruct (max_genes_per_tissue <? _) eqn:E.
  - apply firstn_le_length.
  - apply Nat.ltb_ge in E. exact E.
Qed.

Lemma select_genes_firstn `{SortValues} fdf t :
  select_genes fdf t
  = firstn max_genes_per_tissue (sort_values (rows_of t fdf)).
Proof.
  unfold select_genes, head.
  destruct (max_genes_per_tissue <? _) eqn:E; [reflexivity|].
  apply Nat.ltb_ge in E. symmetry. now apply firstn_all2.
Qed.

Lemma select_genes_In `{SortValues} fdf t r :
  In r (select_genes fdf t) -> In r fdf /\ Tumor r = t.
Proof.
  rewrite select_genes_firstn. intros Hin.
  apply In_firstn in Hin.
  apply (Permutation_in _ (Permutation_sym (sort_values_perm _))) in Hin.
  unfold rows_of in Hin. apply filter_In in Hin as [Hin E].
  apply String.eqb_eq in E. now split.
Qed.

Lemma filter_from_threshold i df r :
  In r (filter_from i df) -> (threshold <= PCC r)%Q.
Proof.
  revert i. induction df as [|a df IH]; intros i; simpl; [tauto|].
  destruct (raw_PCC a) as [p|]; [|apply IH].
  destruct (Qle_bool threshold p) eqn:E; [|apply IH].
  intros [<-|Hin]; [|eapply IH; eassumption].
  simpl. now apply Qle_bool_iff.
Qed.

Lemma StronglySorted_split {A} (R : A -> A -> Prop) n l :
  StronglySorted R l ->
  forall a b, In a (firstn n l) -> In b (skipn n l) -> R a b.
Proof.
  intros Hs. revert n. induction Hs as [|c l Hs IH Hc]; intros n a b.
  - destruct n; simpl; tauto.
  - destruct n as [|n]; simpl; [tauto|].
    intros [<-|Ha] Hb.
    + rewrite Forall_forall in Hc. apply Hc.
      rewrite <- (firstn_skipn n l). apply in_or_app. now right.
    + now apply (IH n).
Qed.

(** ** Dictionaries *)

Lemma dict_get_set_eq {V} k (v : V) d : Dict.get k (Dict.set k v d) = Some v.
Proof.
  induction d as [|[k' v'] d IH]; simpl.
  - now rewrite String.eqb_refl.
  - destruct (String.eqb k k') eqn:E; simpl; rewrite E; [reflexivity|exact IH].
Qed.

Lemma dict_get_set_neq {V} k k' (v : V) d :
  k <> k' -> Dict.get k' (Dict.set k v d) = Dict.get k' d.
Proof.
  intros Hne. assert (Hb : String.eqb k' k = false).
  { apply String.eqb_neq. congruence. }
  induction d as [|[k0 v0] d IH]; simpl.
  - now rewrite Hb.
  - destruct (String.eqb k k0) eqn:E; simpl.
    + apply String.eqb_eq in E. subst k0. now rewrite Hb.
    + now rewrite IH.
Qed.

Lemma dict_get_set {V} k k' (v : V) d :
  Dict.get k' (Dict.set k v d)
  = if String.eqb k' k then Some v else Dict.get k' d.
Proof.
  destruct (String.eqb k' k) eqn:E.
  - apply String.eqb_eq in E. subst. apply dict_get_set_eq.
  - apply String.eqb_neq in E. apply dict_get_set_neq. congruence.
Qed.

Lemma dict_mem_set {V} k k' (v : V) d :
  Dict.mem k' (Dict.set k v d) = String.eqb k' k || Dict.mem k' d.
Proof.
  unfold Dict.mem. rewrite dict_get_set.
  now destruct (String.eqb k' k).
Qed.

Lemma dict_mem_In {V} k (d : Dict.t V) :
  Dict.mem k d = true <-> In k (Dict.keys d).
Proof.
  unfold Dict.mem, Dict.keys.
  induction d as [|[k' v'] d IH]; simpl.
  - split; [discriminate|tauto].
  - destruct (String.eqb k k') eqn:E.
    + apply String.eqb_eq in E. subst. split; auto.
    + apply String.eqb_neq in E. rewrite IH. split; [auto|].
      intros [E'|Hin]; [congruence|exact Hin].
Qed.

Lemma dict_keys_set {V} k (v : V) d :
  Dict.keys (Dict.set k v d)
  = if Dict.mem k d then Dict.keys d else Dict.keys d ++ [k].
Proof.
  unfold Dict.mem, Dict.keys.
  induction d as [|[k' v'] d IH]; simpl; [reflexivity|].
  destruct (String.eqb k k') eqn:E; simpl; [reflexivity|].
  rewrite IH. now destruct (Dict.get k d).
Qed.

Lemma str_mem_In s l : str_mem s l = true <-> In s l.
Proof.
  unfold str_mem. rewrite existsb_exists. split.
  - intros [x [Hin E]]. apply String.eqb_eq in E. now subst.
  - intros Hin. exists s. split; [exact Hin|apply String.eqb_refl].
Qed.

(** ** [unique] *)

Lemma unique_aux_spec seen l :
  NoDup (unique_aux seen l)
  /\ forall s, In s (unique_aux seen l) <-> In s l /\ ~ In s seen.
Proof.
  revert seen. induction l as [|a l IH]; intros seen; simpl.
  - split; [constructor|]. intros s. tauto.
  - destruct (str_mem a seen) eqn:E.
    + apply str_mem_In in E. destruct (IH seen) as [Hnd Hin].
      split; [exact Hnd|]. intros s. rewrite Hin.
      split; [tauto|]. intros [[<-|Hs] Hn]; tauto.
    + assert (Ha : ~ In a seen).
      { intros Hin. apply str_mem_In in Hin. congruence. }
      destruct (IH (a :: seen)) as [Hnd Hin]. split.
      * constructor; [|exact Hnd]. rewrite Hin. simpl. tauto.
      * intros s. simpl. rewrite Hin. simpl.
        destruct (string_dec a s) as [<-|Hne]; tauto.
Qed.

Lemma unique_NoDup l : NoDup (unique l).
Proof. apply unique_aux_spec. Qed.

Lemma unique_In l s : In s (unique l) <-> In s l.
Proof.
  unfold unique. destruct (unique_aux_spec [] l) as [_ Hin].
  rewrite Hin. simpl. tauto.
Qed.

(** ** Folds *)

Lemma filter_none {A} (f : A -> bool) l :
  (forall a, In a l -> f a = false) -> filter f l = [].
Proof.
  induction l as [|a l IH]; intros Hf; simpl; [reflexivity|].
  rewrite (Hf a (or_introl eq_refl)). apply IH.
  intros b Hb. apply Hf. now right.
Qed.

Lemma fold_left_invariant {A B} (P : A -> Prop) (f : A -> B -> A) l a :
  (forall a b, In b l -> P a -> P (f a b)) ->
  P a -> P (fold_left f l a).
Proof.
  revert a. induction l as [|b l IH]; intros a Hstep Ha; simpl; [exact Ha|].
  apply IH.
  - intros a' b' Hin. apply Hstep. now right.
  - apply Hstep; [now left|exact Ha].
Qed.

(** ** Graph operations *)

Lemma node_ensure n m g a :
  Dict.get n (_node (ensure_node m g)) = Some a ->
  Dict.get n (_node g) = Some a \/ a = no_attrs.
Proof.
  unfold ensure_node. destruct (has_node m g); [now left|]. simpl.
  rewrite dict_get_set. destruct (String.eqb n m); [|now left].
  intros [= <-]. now right.
Qed.

Lemma node_add_edge n u v w g a :
  Dict.get n (_node (add_edge u v w g)) = Some a ->
  Dict.get n (_node g) = Some a \/ a = no_attrs.
Proof.
  unfold add_edge. simpl. intros Hget.
  apply node_ensure in Hget as [Hget|E]; [|now right].
  now apply node_ensure in Hget.
Qed.

Lemma node_add_node n m kw g a :
  Dict.get n (_node (add_node m kw g)) = Some a ->
  (n <> m /\ Dict.get n (_node g) = Some a)
  \/ (n = m /\ a = match Dict.get m (_node g) with
                   | Some old => update old kw
                   | None => kw
                   end).
Proof.
  unfold add_node.
  destruct (Dict.get m (_node g)) as [old|] eqn:E; simpl;
    rewrite dict_get_set; destruct (String.eqb n m) eqn:En.
  - apply String.eqb_eq in En. intros [= <-]. now right.
  - apply String.eqb_neq in En. now left.
  - apply String.eqb_eq in En. intros [= <-]. now right.
  - apply String.eqb_neq in En. now left.
Qed.

(** Gene nodes that carry tissue [t]. *)
Definition is_gene_of (t : string) (a : attrs) : bool :=
  match a_node_type a with
  | Some gene => String.eqb (from_option (a_tissue a) "") t
  | _ => false
  end.

Definition gene_nodes_of (t : string) (g : Graph) : list string :=
  filter (fun n => is_gene_of t (get_attrs n g)) (nodes g).

Lemma gene_nodes_fresh t m a g g' :
  has_node m g = false ->
  _node g' = Dict.set m a (_node g) ->
  gene_nodes_of t g'
  = gene_nodes_of t g ++ (if is_gene_of t a then [m] else []).
Proof.
  intros Hfresh E. unfold gene_nodes_of, nodes, get_attrs. rewrite E.
  rewrite dict_keys_set. unfold has_node in Hfresh. rewrite Hfresh.
  rewrite filter_app. f_equal.
  - apply filter_ext_in. intros n Hin. rewrite dict_get_set.
    destruct (String.eqb n m) eqn:En; [|reflexivity].
    apply String.eqb_eq in En. subst n.
    apply dict_mem_In in Hin. congruence.
  - simpl. now rewrite dict_get_set_eq.
Qed.

Lemma gene_nodes_same t g g' :
  _node g' = _node g -> gene_nodes_of t g' = gene_nodes_of t g.
Proof.
  intros E. unfold gene_nodes_of, nodes, get_attrs. now rewrite E.
Qed.

Lemma gene_nodes_ensure t m g :
  gene_nodes_of t (ensure_node m g) = gene_nodes_of t g.
Proof.
  unfold ensure_node. destruct (has_node m g) eqn:E; [reflexivity|].
  rewrite (gene_nodes_fresh t m no_attrs g); [|exact E|reflexivity].
  simpl. apply app_nil_r.
Qed.

Lemma gene_nodes_add_edge t u v w g :
  gene_nodes_of t (add_edge u v w g) = gene_nodes_of t g.
Proof.
  rewrite (gene_nodes_same t (ensure_node v (ensure_node u g)));
    [|reflexivity].
  now rewrite !gene_nodes_ensure.
Qed.

(** ** Invariants of the layout loops *)

Lemma get_attrs_get n g :
  In n (nodes g) -> Dict.get n (_node g) = Some (get_attrs n g).
Proof.
  intros Hin. apply dict_mem_In in Hin. unfold Dict.mem in Hin.
  unfold get_attrs. now destruct (Dict.get n (_node g)).
Qed.

Lemma has_node_false n g : has_node n g = false -> Dict.get n (_node g) = None.
Proof.
  unfold has_node, Dict.mem. now destruct (Dict.get n (_node g)).
Qed.

Section LayoutFacts.

Variable standard_normal : nat -> R.
Variable central_node : string.
Context `{SortValues}.
Variable fdf : list row.

Let tissue_types := unique (map Tumor fdf).

(** No node is a gene node before the gene loop. *)
Definition gene_free (g : Graph) : Prop :=
  forall n a, Dict.get n (_node g) = Some a -> a_node_type a <> Some gene.

(** Every gene node stems from a selected row of the tissue it names. *)
Definition from_selection (g : Graph) : Prop :=
  forall n a,
    Dict.get n (_node g) = Some a -> a_node_type a = Some gene ->
    exists t r,
      In t tissue_types /\ In r (select_genes fdf t) /\ Gene_Symbol r = n
      /\ a_pcc a = Some (PCC r) /\ a_tissue a = Some t.

Lemma tissues_placed_gene_free :
  gene_free (G (tissues_placed central_node fdf)).
Proof.
  unfold tissues_placed. apply fold_left_invariant.
  - intros st [i t] _ Hst n a. unfold place_tissue. simpl G. intros Hget.
    apply node_add_edge in Hget as [Hget| ->]; [|discriminate].
    apply node_add_node in Hget as [[_ Hget]|[_ ->]].
    + now apply (Hst n).
    + destruct (Dict.get t (_node (G st))); simpl; discriminate.
  - intros n a. unfold initial_layout, add_node. simpl.
    destruct (String.eqb n central_node); [|discriminate].
    intros [= <-]. discriminate.
Qed.

Lemma place_gene_from_selection t n st r :
  In t tissue_types -> In r (select_genes fdf t) ->
  from_selection (G st) ->
  from_selection (G (place_gene standard_normal t n st r)).
Proof.
  intros Ht Hr Hst m a. unfold place_gene. simpl G. intros Hget Hty.
  apply node_add_edge in Hget as [Hget| ->]; [|discriminate].
  destruct (has_node (Gene_Symbol r) (G st)) eqn:E; simpl in Hget.
  - now apply (Hst m).
  - apply node_add_node in Hget as [[_ Hget]|[-> ->]].
    + now apply (Hst m).
    + rewrite (has_node_false _ _ E). simpl. now exists t, r.
Qed.

Lemma build_layout_from_selection :
  from_selection (G (build_layout standard_normal central_node fdf)).
Proof.
  unfold build_layout. apply fold_left_invariant.
  - intros st t Ht Hst. unfold place_genes_of.
    apply fold_left_invariant; [|exact Hst].
    intros st' r Hr. now apply place_gene_from_selection.
  - intros n a Hget Hty.
    now destruct (tissues_placed_gene_free n a Hget).
Qed.

Lemma place_gene_count t t' n st r :
  List.length (gene_nodes_of t (G (place_gene standard_normal t' n st r)))
  <= List.length (gene_nodes_of t (G st))
     + (if String.eqb t' t then 1 else 0).
Proof.
  unfold place_gene. simpl G. rewrite gene_nodes_add_edge.
  destruct (has_node (Gene_Symbol r) (G st)) eqn:E; simpl negb; cbv iota.
  - lia.
  - rewrite (gene_nodes_fresh t (Gene_Symbol r)
               (mk_attrs (Some gene) None (Some (PCC r)) (Some t')) (G st));
      [|exact E|].
    + rewrite length_app. unfold is_gene_of. simpl.
      destruct (String.eqb t' t); simpl; lia.
    + unfold add_node. now rewrite (has_node_false _ _ E).
Qed.

Lemma place_genes_count t t' n l st :
  List.length
    (gene_nodes_of t (G (fold_left (place_gene standard_normal t' n) l st)))
  <= List.length (gene_nodes_of t (G st))
     + (if String.eqb t' t then List.length l else 0).
Proof.
  revert st. induction l as [|r l IH]; intros st; simpl fold_left.
  - destruct (String.eqb t' t); simpl; lia.
  - specialize (IH (place_gene standard_normal t' n st r)).
    pose proof (place_gene_count t t' n st r) as Hstep.
    destruct (String.eqb t' t); simpl List.length in *; lia.
Qed.

Lemma place_genes_of_count t t' st :
  List.length (gene_nodes_of t (G (place_genes_of standard_normal fdf st t')))
  <= List.length (gene_nodes_of t (G st))
     + (if String.eqb t' t then max_genes_per_tissue else 0).
Proof.
  unfold place_genes_of.
  pose proof (place_genes_count t t'
                (List.length (select_genes fdf t')) (select_genes fdf t') st)
    as Hle.
  pose proof (select_genes_length fdf t') as Hcap.
  destruct (String.eqb t' t); lia.
Qed.

Lemma tissues_count t l st :
  NoDup l ->
  List.length
    (gene_nodes_of t (G (fold_left (place_genes_of standard_normal fdf) l st)))
  <= List.length (gene_nodes_of t (G st))
     + (if str_mem t l then max_genes_per_tissue else 0).
Proof.
  intros Hnd. revert st.
  induction Hnd as [|t' l Hnotin Hnd IH]; intros st; simpl fold_left.
  - simpl. lia.
  - specialize (IH (place_genes_of standard_normal fdf st t')).
    pose proof (place_genes_of_count t t' st) as Hstep.
    unfold str_mem in *. simpl existsb.
    rewrite (String.eqb_sym t t').
    destruct (String.eqb t' t) eqn:E; simpl orb.
    + apply String.eqb_eq in E. subst t'.
      destruct (existsb (String.eqb t) l) eqn:Hm; [|lia].
      exfalso. apply Hnotin. now apply str_mem_In.
    + lia.
Qed.

Lemma gene_free_count t g : gene_free g -> gene_nodes_of t g = [].
Proof.
  intros Hfree. unfold gene_nodes_of.
  apply filter_none. intros n Hin.
  apply get_attrs_get in Hin. specialize (Hfree _ _ Hin).
  unfold is_gene_of. destruct (a_node_type (get_attrs n g)) as [[]|];
    try reflexivity.
  congruence.
Qed.

Lemma build_layout_count t :
  List.length
    (gene_nodes_of t (G (build_layout standard_normal central_node fdf)))
  <= max_genes_per_tissue.
Proof.
  unfold build_layout.
  pose proof (tissues_count t (unique (map Tumor fdf))
                (tissues_placed central_node fdf)
                (unique_NoDup _)) as Hle.
  rewrite (gene_free_count t _ tissues_placed_gene_free) in Hle.
  simpl List.length in Hle.
  destruct (str_mem t (unique (map Tumor fdf))); lia.
Qed.

End LayoutFacts.

(** ** From the graph to [nodes_data] *)

Lemma node_entry_gene c colors st n nd :
  In n (nodes (G st)) ->
  In nd (node_entry c colors st n) -> Node.node_type nd = gene ->
  Node.id nd = n
  /\ a_node_type (get_attrs n (G st)) = Some gene
  /\ Node.pcc nd = Q2R (from_option (a_pcc (get_attrs n (G st))) 0%Q)
  /\ Node.tissue_of nd = from_option (a_tissue (get_attrs n (G st))) "".
Proof.
  intros Hn. unfold node_entry.
  destruct (String.eqb n c); [intros []|].
  destruct (a_node_type (get_attrs n (G st))) as [[]|]; simpl.
  - intros [].
  - intros [<-|[]]; simpl; discriminate.
  - intros [<-|[]] _; simpl. repeat split.
  - intros [].
Qed.

Lemma nodes_data_gene c colors st nd :
  In nd (nodes_data c colors st) -> Node.node_type nd = gene ->
  exists a,
    Dict.get (Node.id nd) (_node (G st)) = Some a
    /\ a_node_type a = Some gene
    /\ Node.pcc nd = Q2R (from_option (a_pcc a) 0%Q)
    /\ Node.tissue_of nd = from_option (a_tissue a) "".
Proof.
  unfold nodes_data. intros [<-|Hin]; [discriminate|]. intros Hty.
  apply in_flat_map in Hin as [n [Hn Hin]].
  destruct (node_entry_gene _ _ _ _ _ Hn Hin Hty) as (-> & Ha & Hp & Ht).
  exists (get_attrs n (G st)). repeat split; try assumption.
  now apply get_attrs_get.
Qed.

Definition gene_of (t : string) (nd : node) : bool :=
  is_type gene nd && String.eqb (Node.tissue_of nd) t.

Lemma node_entry_count c colors st t n :
  List.length (filter (gene_of t) (node_entry c colors st n))
  <= if is_gene_of t (get_attrs n (G st)) then 1 else 0.
Proof.
  unfold node_entry, is_gene_of.
  destruct (String.eqb n c); [simpl; lia|].
  destruct (a_node_type (get_attrs n (G st))) as [[]|]; simpl; try lia.
  unfold gene_of, is_type. simpl.
  destruct (String.eqb _ t); simpl; lia.
Qed.

Lemma nodes_data_count c colors st t :
  List.length (filter (gene_of t) (nodes_data c colors st))
  <= List.length (gene_nodes_of t (G st)).
Proof.
  unfold nodes_data, gene_nodes_of. simpl filter.
  change (gene_of t (central_entry c (fixed_positions st))) with false.
  cbv iota. induction (nodes (G st)) as [|n l IH]; simpl; [lia|].
  rewrite filter_app, length_app.
  pose proof (node_entry_count c colors st t n) as Hn.
  destruct (is_gene_of t (get_attrs n (G st))); simpl; lia.
Qed.

Lemma Q2R_threshold : Q2R threshold = 0.8%R.
Proof. unfold threshold, Q2R. simpl. lra. Qed.

(** C1. For every table, every gene node of the generated page has a
    correlation of at least 0.8, and no tissue label is carried by more
    than 150 gene nodes; the rows selected for a tissue are the first
    150 of its filtered rows in descending order of correlation, so that
    no row left out has a larger correlation than a row kept. *)
Theorem filter_and_cap `{SortValues} (standard_normal : nat -> R)
  (df : list raw_row) (central_node : string) :
  let fdf := filter_df df in
  let out := page_nodes (make_page standard_normal central_node fdf) in
  (forall nd, In nd out -> Node.node_type nd = gene ->
     (0.8 <= Node.pcc nd)%R)
  /\ (forall t, List.length (filter (gene_of t) out) <= 150)
  /\ (forall t,
        let sorted := sort_values (rows_of t fdf) in
        select_genes fdf t = firstn 150 sorted
        /\ List.length (select_genes fdf t) <= 150
        /\ Permutation (rows_of t fdf) (select_genes fdf t ++ skipn 150 sorted)
        /\ forall kept dropped,
             In kept (select_genes fdf t) -> In dropped (skipn 150 sorted) ->
             (PCC dropped <= PCC kept)%Q).
Proof.
  intros fdf out. split; [|split].
  - intros nd Hin Hty.
    destruct (nodes_data_gene _ _ _ _ Hin Hty) as (a & Hget & Ha & Hp & _).
    destruct (build_layout_from_selection standard_normal central_node fdf
                _ _ Hget Ha) as (t & r & _ & Hr & _ & Hpcc & _).
    rewrite Hp, Hpcc. simpl. rewrite <- Q2R_threshold. apply Qle_Rle.
    apply select_genes_In in Hr as [Hr _].
    eapply filter_from_threshold. exact Hr.
  - intros t. unfold out, make_page. simpl page_nodes.
    etransitivity; [apply nodes_data_count|].
    apply build_layout_count.
  - intros t sorted. split; [apply select_genes_firstn|].
    split; [apply select_genes_length|].
    rewrite select_genes_firstn.
    fold sorted. change max_genes_per_tissue with 150. split.
    + rewrite firstn_skipn. apply sort_values_perm.
    + intros kept dropped Hk Hd.
      exact (StronglySorted_split desc 150 sorted (sort_values_desc _)
               kept dropped Hk Hd).
Qed.

(** ** The end-to-end scenario *)

Definition count_type (k : ntype) (ns : list node) : nat :=
  List.length (filter (is_type k) ns).

Definition joins (l : link) (u v : string) : Prop :=
  (Link.source l = u /\ Link.target l = v)
  \/ (Link.source l = v /\ Link.target l = u).

(** Each gene node has an edge to the tissue it names, of weight three
    times its correlation. *)
Definition gene_weights (p : page) : Prop :=
  forall nd, In nd (page_nodes p) -> Node.node_type nd = gene ->
    exists l, In l (page_links p)
              /\ joins l (Node.id nd) (Node.tissue_of nd)
              /\ Link.value l = (Node.pcc nd * 3)%R.

Definition has_id (s : string) (p : page) : Prop :=
  exists nd, In nd (page_nodes p) /\ Node.id nd = s.

(** The scenario as the specification words it. *)
Definition end_to_end_as_specified (p : page) : Prop :=
  ~ has_id "Gene3" p
  /\ count_type tissue (page_nodes p) = 2
  /\ count_type gene (page_nodes p) = 2
  /\ gene_weights p.

Lemma three_rows_filtered :
  filter_df three_rows
  = [ mk_row 0 "TissueA" "Gene1" 0.95%Q; mk_row 1 "TissueA" "Gene2" 0.81%Q ].
Proof. reflexivity. Qed.

Lemma three_rows_layout `{SortValues} sn c :
  build_layout sn c (filter_df three_rows)
  = fold_left (place_gene sn "TissueA" 2)
      [ mk_row 0 "TissueA" "Gene1" 0.95%Q; mk_row 1 "TissueA" "Gene2" 0.81%Q ]
      (tissues_placed c (filter_df three_rows)).
Proof.
  unfold build_layout. rewrite three_rows_filtered at 1 2.
  change (unique (map Tumor _)) with ["TissueA"].
  simpl fold_left. unfold place_genes_of.
  assert (E : select_genes
                [ mk_row 0 "TissueA" "Gene1" 0.95%Q;
                  mk_row 1 "TissueA" "Gene2" 0.81%Q ] "TissueA"
              = [ mk_row 0 "TissueA" "Gene1" 0.95%Q;
                  mk_row 1 "TissueA" "Gene2" 0.81%Q ]).
  { rewrite select_genes_firstn.
    change (rows_of "TissueA" _)
      with [ mk_row 0 "TissueA" "Gene1" 0.95%Q;
             mk_row 1 "TissueA" "Gene2" 0.81%Q ].
    rewrite sorted_pair_unique; [reflexivity|]. reflexivity. }
  rewrite E. reflexivity.
Qed.

Lemma three_rows_nodes `{SortValues} sn :
  map (fun nd => (Node.id nd, Node.node_type nd, Node.tissue_of nd,
                  Node.pcc nd))
      (page_nodes (make_page sn "GCH1" (filter_df three_rows)))
  = [ ("GCH1", central, "", 0%R);
      ("TissueA", tissue, "", 0%R);
      ("Gene1", gene, "TissueA", Q2R 0.95%Q);
      ("Gene2", gene, "TissueA", Q2R 0.81%Q) ].
Proof.
  unfold make_page. simpl page_nodes. rewrite three_rows_layout.
  reflexivity.
Qed.

Lemma three_rows_links `{SortValues} sn :
  map (fun l => (Link.source l, Link.target l, Link.value l))
      (page_links (make_page sn "GCH1" (filter_df three_rows)))
  = [ ("GCH1", "TissueA", Q2R 5.0%Q);
      ("TissueA", "Gene1", Q2R (0.95 * 3)%Q);
      ("TissueA", "Gene2", Q2R (0.81 * 3)%Q) ].
Proof.
  unfold make_page. simpl page_links. rewrite three_rows_layout.
  reflexivity.
Qed.

Lemma three_rows_counts `{SortValues} sn :
  let p := make_page sn "GCH1" (filter_df three_rows) in
  count_type tissue (page_nodes p) = 1 /\ count_type gene (page_nodes p) = 2.
Proof.
  unfold make_page. simpl page_nodes. rewrite three_rows_layout.
  split; reflexivity.
Qed.

Lemma Q2R_times_3 q : Q2R (q * 3) = (Q2R q * 3)%R.
Proof. rewrite Q2R_mult. f_equal. unfold Q2R. simpl. lra. Qed.

Lemma three_rows_weights `{SortValues} sn :
  gene_weights (make_page sn "GCH1" (filter_df three_rows)).
Proof.
  intros nd Hin Hty.
  apply (in_map (fun nd => (Node.id nd, Node.node_type nd, Node.tissue_of nd,
                            Node.pcc nd))) in Hin.
  rewrite three_rows_nodes in Hin.
  pose proof (three_rows_links sn) as Hl.
  assert (Hex : forall g q,
             In ("TissueA", g, Q2R (q * 3))
                (map (fun l => (Link.source l, Link.target l, Link.value l))
                   (page_links (make_page sn "GCH1" (filter_df three_rows)))) ->
             Node.id nd = g -> Node.tissue_of nd = "TissueA" ->
             Node.pcc nd = Q2R q ->
             exists l, In l (page_links
                               (make_page sn "GCH1" (filter_df three_rows)))
                       /\ joins l (Node.id nd) (Node.tissue_of nd)
                       /\ Link.value l = (Node.pcc nd * 3)%R).
  { intros g q Hm Hid Ht Hp.
    apply in_map_iff in Hm as (l & E & Hm). exists l.
    injection E as Es Et Ev. split; [exact Hm|]. split.
    - right. now rewrite Hid, Ht.
    - now rewrite Ev, Hp, Q2R_times_3. }
  rewrite Hl in Hex.
  destruct Hin as [E|[E|[E|[E|[]]]]]; injection E as Hid Hk Ht Hp;
    try congruence.
  - apply (Hex "Gene1" 0.95%Q); auto. right. left. reflexivity.
  - apply (Hex "Gene2" 0.81%Q); auto. right. right. left. reflexivity.
Qed.

Lemma three_rows_ids `{SortValues} sn s :
  has_id s (make_page sn "GCH1" (filter_df three_rows)) ->
  In s ["GCH1"; "TissueA"; "Gene1"; "Gene2"].
Proof.
  intros (nd & Hin & <-).
  apply (in_map (fun nd => (Node.id nd, Node.node_type nd, Node.tissue_of nd,
                            Node.pcc nd))) in Hin.
  rewrite three_rows_nodes in Hin.
  destruct Hin as [E|[E|[E|[E|[]]]]]; injection E as Hid _ _ _;
    rewrite <- Hid; simpl; tauto.
Qed.

(** C5 (as the code behaves). For the rows (TissueA, Gene1, 0.95),
    (TissueA, Gene2, 0.81), (TissueB, Gene3, 0.79) the page holds no node
    for Gene3 and none for TissueB, exactly one tissue node and exactly
    two gene nodes, and each gene node has an edge to its tissue whose
    weight is three times its correlation. *)
Theorem end_to_end `{SortValues} (standard_normal : nat -> R) :
  let p := make_page standard_normal "GCH1" (filter_df three_rows) in
  ~ has_id "Gene3" p
  /\ ~ has_id "TissueB" p
  /\ count_type tissue (page_nodes p) = 1
  /\ count_type gene (page_nodes p) = 2
  /\ gene_weights p.
Proof.
  intros p. repeat split.
  - intros Hid. apply three_rows_ids in Hid. simpl in Hid.
    repeat destruct Hid as [Hid|Hid]; try discriminate; exact Hid.
  - intros Hid. apply three_rows_ids in Hid. simpl in Hid.
    repeat destruct Hid as [Hid|Hid]; try discriminate; exact Hid.
  - apply three_rows_counts.
  - apply three_rows_counts.
  - apply three_rows_weights.
Qed.

(** C5 as specified fails: TissueB has no row left after filtering, so
    it never becomes a tissue node and the page has one tissue node, not
    two. *)
Lemma end_to_end_two_tissues_fails :
  count_type tissue
    (page_nodes (@make_page no_noise keeping_ties "GCH1"
                   (filter_df three_rows))) = 1
  /\ ~ end_to_end_as_specified
        (@make_page no_noise keeping_ties "GCH1" (filter_df three_rows)).
Proof.
  destruct (@three_rows_counts keeping_ties no_noise) as [Hone _].
  cbv zeta in Hone. split; [exact Hone|].
  intros (_ & Hcount & _). rewrite Hone in Hcount. discriminate.
Qed.

(** ** Edges *)

(** Every node with an adjacency entry is a node of the graph. *)
Definition adj_wf (g : Graph) : Prop :=
  forall n, Dict.mem n (_adj g) = true -> has_node n g = true.

Lemma nbrs_set u k d adj :
  nbrs u (Dict.set k d adj) = if String.eqb u k then d else nbrs u adj.
Proof. unfold nbrs. rewrite dict_get_set. now destruct (String.eqb u k). Qed.

Lemma has_edge_mem u v g : has_edge u v g = true -> Dict.mem u (_adj g) = true.
Proof.
  unfold has_edge, nbrs, Dict.mem at 2.
  destruct (Dict.get u (_adj g)); [reflexivity|discriminate].
Qed.

Lemma ensure_node_wf m g : adj_wf g -> adj_wf (ensure_node m g).
Proof.
  intros Hwf. unfold ensure_node. destruct (has_node m g) eqn:E; [exact Hwf|].
  intros n. unfold has_node. simpl. rewrite !dict_mem_set.
  destruct (String.eqb n m); [reflexivity|]. apply Hwf.
Qed.

Lemma has_node_ensure n m g :
  has_node n (ensure_node m g) = String.eqb n m || has_node n g.
Proof.
  unfold ensure_node. destruct (has_node m g) eqn:E.
  - destruct (String.eqb n m) eqn:En; [|reflexivity].
    apply String.eqb_eq in En. now subst.
  - unfold has_node. simpl. apply dict_mem_set.
Qed.

Lemma add_node_wf m kw g : adj_wf g -> adj_wf (add_node m kw g).
Proof.
  intros Hwf n. unfold add_node.
  destruct (Dict.get m (_node g)); unfold has_node; simpl; intros Hn;
    rewrite dict_mem_set.
  - apply Hwf in Hn. unfold has_node in Hn. rewrite Hn. apply orb_true_r.
  - rewrite dict_mem_set in Hn.
    destruct (String.eqb n m); [reflexivity|]. now apply Hwf.
Qed.

Lemma add_edge_wf u v w g : adj_wf g -> adj_wf (add_edge u v w g).
Proof.
  intros Hwf n. set (g1 := ensure_node v (ensure_node u g)).
  assert (Hwf1 : adj_wf g1) by (apply ensure_node_wf, ensure_node_wf, Hwf).
  change (has_node n (add_edge u v w g)) with (has_node n g1).
  unfold add_edge. fold g1. simpl. rewrite !dict_mem_set. intros Hn.
  destruct (String.eqb n v) eqn:Ev.
  - unfold g1. now rewrite has_node_ensure, Ev.
  - destruct (String.eqb n u) eqn:Eu.
    + unfold g1. rewrite !has_node_ensure, Eu. now rewrite orb_true_r.
    + apply Hwf1. exact Hn.
Qed.

Lemma has_edge_ensure u v m g :
  adj_wf g -> has_edge u v g = true -> has_edge u v (ensure_node m g) = true.
Proof.
  intros Hwf He. unfold ensure_node. destruct (has_node m g) eqn:E;
    [exact He|].
  unfold has_edge. simpl. rewrite nbrs_set.
  destruct (String.eqb u m) eqn:Eu; [|exact He].
  apply String.eqb_eq in Eu. subst u.
  apply has_edge_mem, Hwf in He. congruence.
Qed.

Lemma has_edge_add_node u v m kw g :
  adj_wf g -> has_edge u v g = true -> has_edge u v (add_node m kw g) = true.
Proof.
  intros Hwf He. unfold add_node.
  destruct (Dict.get m (_node g)) eqn:E; [exact He|].
  unfold has_edge. simpl. rewrite nbrs_set.
  destruct (String.eqb u m) eqn:Eu; [|exact He].
  apply String.eqb_eq in Eu. subst u.
  apply has_edge_mem, Hwf in He. unfold has_node, Dict.mem in He.
  now rewrite E in He.
Qed.

Lemma has_edge_add_edge u v u' v' w g :
  adj_wf g -> has_edge u v g = true ->
  has_edge u v (add_edge u' v' w g) = true.
Proof.
  intros Hwf He.
  assert (He1 : has_edge u v (ensure_node v' (ensure_node u' g)) = true).
  { apply has_edge_ensure; [now apply ensure_node_wf|].
    now apply has_edge_ensure. }
  unfold add_edge, has_edge in *. simpl. rewrite !nbrs_set.
  destruct (String.eqb u v') eqn:E1.
  - rewrite dict_mem_set. apply String.eqb_eq in E1. subst u.
    destruct (String.eqb v' u') eqn:E2.
    + apply String.eqb_eq in E2. subst u'.
      rewrite dict_mem_set. now rewrite He1, !orb_true_r.
    + now rewrite He1, orb_true_r.
  - destruct (String.eqb u u') eqn:E2; [|exact He1].
    apply String.eqb_eq in E2. subst u.
    rewrite dict_mem_set. now rewrite He1, orb_true_r.
Qed.

Lemma has_edge_new u v w g : has_edge u v (add_edge u v w g) = true.
Proof.
  unfold add_edge, has_edge. simpl. rewrite !nbrs_set.
  destruct (String.eqb u v) eqn:E.
  - rewrite dict_mem_set. apply String.eqb_eq in E. subst.
    now rewrite String.eqb_refl.
  - rewrite String.eqb_refl, dict_mem_set. now rewrite String.eqb_refl.
Qed.

Lemma fold_left_reaches {A B} (Inv Q : A -> Prop) (f : A -> B -> A) l a x :
  In x l -> Inv a ->
  (forall a b, Inv a -> Inv (f a b)) ->
  (forall a, Inv a -> Q (f a x)) ->
  (forall a b, Inv a -> Q a -> Q (f a b)) ->
  Q (fold_left f l a).
Proof.
  intros Hin Ha Hinv Hx Hq. revert a Ha Hin.
  induction l as [|b l IH]; intros a Ha Hin; [destruct Hin|].
  simpl. destruct Hin as [->|Hin].
  - assert (Hgo : forall l' a', Inv a' -> Q a' -> Q (fold_left f l' a')).
    { clear -Hinv Hq. intros l'. induction l' as [|c l' IH]; intros a' Hi Hq';
        simpl; [exact Hq'|]. apply IH; [now apply Hinv|now apply Hq]. }
    apply Hgo; [now apply Hinv|now apply Hx].
  - apply IH; [now apply Hinv|exact Hin].
Qed.

Lemma has_edge_new_sym u v w g : has_edge v u (add_edge u v w g) = true.
Proof.
  unfold add_edge, has_edge. simpl. rewrite nbrs_set, String.eqb_refl.
  rewrite dict_mem_set. now rewrite String.eqb_refl.
Qed.

Lemma dict_mem_entry {V} k (d : Dict.t V) :
  Dict.mem k d = true -> exists v, In (k, v) d.
Proof.
  unfold Dict.mem. induction d as [|[k' v'] d IH]; simpl; [discriminate|].
  destruct (String.eqb k k') eqn:E.
  - apply String.eqb_eq in E. subst. intros _. exists v'. now left.
  - intros Hm. destruct (IH Hm) as [v Hv]. exists v. now right.
Qed.

(** An edge stored under both endpoints is listed by [G.edges()]. *)
Lemma edges_from_joins adj seen u v :
  Dict.mem v (nbrs u adj) = true -> Dict.mem u (nbrs v adj) = true ->
  ~ In u seen -> ~ In v seen ->
  exists e, In e (edges_from seen adj)
            /\ ((fst (fst e) = u /\ snd (fst e) = v)
                \/ (fst (fst e) = v /\ snd (fst e) = u)).
Proof.
  revert seen. induction adj as [|[n ns] adj IH]; intros seen Huv Hvu Hu Hv.
  - discriminate.
  - simpl. unfold nbrs in Huv, Hvu. simpl in Huv, Hvu.
    fold (nbrs u adj) in Huv. fold (nbrs v adj) in Hvu.
    assert (Hpick : forall b,
               Dict.mem b ns = true -> ~ In b seen ->
               exists e, In e (map (fun e => (n, fst e, snd e))
                                 (filter (fun e => negb (str_mem (fst e) seen))
                                    ns))
                         /\ fst (fst e) = n /\ snd (fst e) = b).
    { intros b Hb Hnb. destruct (dict_mem_entry _ _ Hb) as [w Hw].
      exists (n, b, w). split; [|now split].
      apply in_map_iff. exists (b, w). split; [reflexivity|].
      apply filter_In. split; [exact Hw|]. simpl.
      destruct (str_mem b seen) eqn:E; [|reflexivity].
      apply str_mem_In in E. contradiction. }
    destruct (String.eqb u n) eqn:Eu.
    + destruct (Hpick v Huv Hv) as (e & He & H1 & H2).
      apply String.eqb_eq in Eu. subst n.
      exists e. split; [apply in_or_app; now left|]. left. now split.
    + destruct (String.eqb v n) eqn:Ev.
      * destruct (Hpick u Hvu Hu) as (e & He & H1 & H2).
        apply String.eqb_eq in Ev. subst n.
        exists e. split; [apply in_or_app; now left|]. right. now split.
      * apply String.eqb_neq in Eu, Ev.
        destruct (IH (n :: seen)) as (e & He & Hj); try assumption.
        -- simpl. intros [E|Hin]; [congruence|contradiction].
        -- simpl. intros [E|Hin]; [congruence|contradiction].
        -- exists e. split; [apply in_or_app; now right|exact Hj].
Qed.

Lemma links_data_joins g u v :
  has_edge u v g = true -> has_edge v u g = true ->
  exists l, In l (links_data g) /\ joins l u v.
Proof.
  intros Huv Hvu.
  destruct (edges_from_joins (_adj g) [] u v Huv Hvu) as (e & He & Hj);
    try (intros []).
  exists (mk_link (fst (fst e)) (snd (fst e)) (Q2R (snd e))). split.
  - unfold links_data, edges. apply in_map_iff. now exists e.
  - exact Hj.
Qed.

(** ** Node identifiers *)

Lemma dict_keys_NoDup {V} k (v : V) d :
  NoDup (Dict.keys d) -> NoDup (Dict.keys (Dict.set k v d)).
Proof.
  intros Hnd. rewrite dict_keys_set. destruct (Dict.mem k d) eqn:E;
    [exact Hnd|].
  apply NoDup_app; [exact Hnd|repeat constructor; intros []|].
  intros a Ha [<-|[]]. apply dict_mem_In in Ha. congruence.
Qed.

Lemma ensure_node_NoDup m g : NoDup (nodes g) -> NoDup (nodes (ensure_node m g)).
Proof.
  unfold ensure_node. destruct (has_node m g); [auto|].
  apply dict_keys_NoDup.
Qed.

Lemma add_node_NoDup m kw g : NoDup (nodes g) -> NoDup (nodes (add_node m kw g)).
Proof.
  unfold add_node. destruct (Dict.get m (_node g)); apply dict_keys_NoDup.
Qed.

Lemma add_edge_NoDup u v w g : NoDup (nodes g) -> NoDup (nodes (add_edge u v w g)).
Proof.
  intros Hnd. unfold add_edge, nodes. simpl.
  now apply ensure_node_NoDup, ensure_node_NoDup.
Qed.

Lemma node_entry_ids c colors st l :
  NoDup l ->
  NoDup (map Node.id (flat_map (node_entry c colors st) l))
  /\ forall s, In s (map Node.id (flat_map (node_entry c colors st) l)) ->
               In s l /\ s <> c.
Proof.
  induction 1 as [|n l Hn Hnd [IH1 IH2]]; simpl.
  - split; [constructor|intros s []].
  - rewrite map_app. unfold node_entry at 1 3.
    destruct (String.eqb n c) eqn:E; simpl.
    + split; [exact IH1|]. intros s Hs. destruct (IH2 s Hs). tauto.
    + apply String.eqb_neq in E.
      destruct (a_node_type (get_attrs n (G st))) as [[]|]; simpl;
        try (split; [exact IH1|]; intros s Hs; destruct (IH2 s Hs); tauto).
      * split.
        -- constructor; [|exact IH1]. intros Hin. now apply IH2 in Hin.
        -- intros s [<-|Hs]; [tauto|]. destruct (IH2 s Hs). tauto.
      * split.
        -- constructor; [|exact IH1]. intros Hin. now apply IH2 in Hin.
        -- intros s [<-|Hs]; [tauto|]. destruct (IH2 s Hs). tauto.
Qed.

Lemma nodes_data_ids c colors st :
  NoDup (nodes (G st)) -> NoDup (map Node.id (nodes_data c colors st)).
Proof.
  intros Hnd. unfold nodes_data. simpl.
  destruct (node_entry_ids c colors st _ Hnd) as [H1 H2].
  constructor; [|exact H1]. intros Hin. apply H2 in Hin. tauto.
Qed.

Section Association.

Variable standard_normal : nat -> R.
Variable central_node : string.
Context `{SortValues}.
Variable fdf : list row.

(** What the loops keep true of the graph. *)
Definition well_kept (g : Graph) : Prop := adj_wf g /\ NoDup (nodes g).

Lemma tissues_placed_kept : well_kept (G (tissues_placed central_node fdf)).
Proof.
  unfold tissues_placed. apply fold_left_invariant.
  - intros st [i t] _ [Hwf Hnd]. unfold place_tissue. simpl G. split.
    + now apply add_edge_wf, add_node_wf.
    + now apply add_edge_NoDup, add_node_NoDup.
  - unfold initial_layout. simpl G. split.
    + apply add_node_wf. intros n. discriminate.
    + apply add_node_NoDup. constructor.
Qed.

Lemma place_gene_kept t n st r :
  well_kept (G st) -> well_kept (G (place_gene standard_normal t n st r)).
Proof.
  intros [Hwf Hnd]. unfold place_gene. simpl G.
  destruct (has_node (Gene_Symbol r) (G st)); simpl negb; cbv iota; split.
  - now apply add_edge_wf.
  - now apply add_edge_NoDup.
  - now apply add_edge_wf, add_node_wf.
  - now apply add_edge_NoDup, add_node_NoDup.
Qed.

Lemma place_genes_of_kept st t :
  well_kept (G st) -> well_kept (G (place_genes_of standard_normal fdf st t)).
Proof.
  intros Hk. unfold place_genes_of. apply fold_left_invariant; [|exact Hk].
  intros st' r _. apply place_gene_kept.
Qed.

Lemma build_layout_kept :
  well_kept (G (build_layout standard_normal central_node fdf)).
Proof.
  unfold build_layout. apply fold_left_invariant.
  - intros st t _. apply place_genes_of_kept.
  - apply tissues_placed_kept.
Qed.

Definition linked (u v : string) (st : layout) : Prop :=
  has_edge u v (G st) = true /\ has_edge v u (G st) = true.

Lemma place_gene_links t n st r :
  linked (Gene_Symbol r) t (place_gene standard_normal t n st r).
Proof.
  unfold linked, place_gene. simpl G.
  split; [apply has_edge_new|apply has_edge_new_sym].
Qed.

Lemma place_gene_keeps_links u v t n st r :
  well_kept (G st) -> linked u v st ->
  linked u v (place_gene standard_normal t n st r).
Proof.
  intros [Hwf _] [H1 H2]. unfold linked, place_gene. simpl G.
  destruct (has_node (Gene_Symbol r) (G st)); simpl negb; cbv iota; split;
    apply has_edge_add_edge; auto using add_node_wf, has_edge_add_node.
Qed.

Lemma build_layout_links t r :
  In t (unique (map Tumor fdf)) -> In r (select_genes fdf t) ->
  linked (Gene_Symbol r) t (build_layout standard_normal central_node fdf).
Proof.
  intros Ht Hr. unfold build_layout.
  apply (fold_left_reaches (fun st => well_kept (G st))
           (linked (Gene_Symbol r) t) _ _ _ t Ht tissues_placed_kept).
  - intros st t' Hk. now apply place_genes_of_kept.
  - intros st Hk. unfold place_genes_of.
    apply (fold_left_reaches (fun st => well_kept (G st))
             (linked (Gene_Symbol r) t) _ _ _ r Hr Hk).
    + intros st' r' Hk'. now apply place_gene_kept.
    + intros st' _. apply place_gene_links.
    + intros st' r' Hk' Hl. now apply place_gene_keeps_links.
  - intros st t' Hk Hl. unfold place_genes_of.
    apply (fold_left_invariant
             (fun st => well_kept (G st) /\ linked (Gene_Symbol r) t st)).
    + intros st' r' _ [Hk' Hl']. split;
        [now apply place_gene_kept|now apply place_gene_keeps_links].
    + now split.
Qed.

End Association.

(** C8 (as the code behaves). Every gene symbol has one node; the node
    carries one tissue label, a tissue under which the symbol was
    selected; and the page has an edge between the symbol and every
    tissue under which it was selected. *)
Theorem gene_node_tissues `{SortValues} (standard_normal : nat -> R)
  (df : list raw_row) (central_node : string) :
  let fdf := filter_df df in
  let p := make_page standard_normal central_node fdf in
  NoDup (map Node.id (page_nodes p))
  /\ (forall nd, In nd (page_nodes p) -> Node.node_type nd = gene ->
        In (Node.tissue_of nd) (unique (map Tumor fdf))
        /\ exists r, In r (select_genes fdf (Node.tissue_of nd))
                     /\ Gene_Symbol r = Node.id nd)
  /\ (forall t r,
        In t (unique (map Tumor fdf)) -> In r (select_genes fdf t) ->
        exists l, In l (page_links p) /\ joins l (Gene_Symbol r) t).
Proof.
  intros fdf p. split; [|split].
  - apply nodes_data_ids. apply build_layout_kept.
  - intros nd Hin Hty.
    destruct (nodes_data_gene _ _ _ _ Hin Hty) as (a & Hget & Ha & _ & Ht).
    destruct (build_layout_from_selection standard_normal central_node fdf
                _ _ Hget Ha) as (t & r & Hin_t & Hr & Hid & _ & Hat).
    rewrite Ht, Hat. simpl. split; [exact Hin_t|]. now exists r.
  - intros t r Ht Hr.
    destruct (build_layout_links standard_normal central_node fdf t r Ht Hr)
      as [H1 H2].
    now apply links_data_joins.
Qed.

(** C8 as specified: a gene node is joined to no tissue node but the one
    it names. *)
Definition single_tissue_as_specified (p : page) : Prop :=
  forall nd t l,
    In nd (page_nodes p) -> Node.node_type nd = gene ->
    In t (page_nodes p) -> Node.node_type t = tissue ->
    In l (page_links p) -> joins l (Node.id nd) (Node.id t) ->
    Node.id t = Node.tissue_of nd.

Definition shared_gene_rows : list raw_row :=
  [ mk_raw "TissueA" "Gene1" (Some 0.9%Q);
    mk_raw "TissueB" "Gene1" (Some 0.95%Q) ].

Definition shared_gene_page : page :=
  @make_page no_noise keeping_ties "GCH1" (filter_df shared_gene_rows).

Definition node_summary (nd : node) : string * ntype * string :=
  (Node.id nd, Node.node_type nd, Node.tissue_of nd).

Definition link_ends (l : link) : string * string :=
  (Link.source l, Link.target l).

Lemma find_by {A B} (f : A -> B) (l : list A) (b : B) :
  In b (map f l) -> exists a, In a l /\ f a = b.
Proof.
  intros Hin. apply in_map_iff in Hin as (a & E & Hin). now exists a.
Qed.

(** C8 as specified fails: a symbol selected under two tissues has one
    node, labelled with the first of them, and an edge to each. *)
Lemma shared_gene_has_two_tissues :
  map node_summary (page_nodes shared_gene_page)
  = [ ("GCH1", central, ""); ("TissueA", tissue, "");
      ("TissueB", tissue, ""); ("Gene1", gene, "TissueA") ]
  /\ map link_ends (page_links shared_gene_page)
     = [ ("GCH1", "TissueA"); ("GCH1", "TissueB");
         ("TissueA", "Gene1"); ("TissueB", "Gene1") ]
  /\ ~ single_tissue_as_specified shared_gene_page.
Proof.
  assert (Hn : map node_summary (page_nodes shared_gene_page)
               = [ ("GCH1", central, ""); ("TissueA", tissue, "");
                   ("TissueB", tissue, ""); ("Gene1", gene, "TissueA") ])
    by reflexivity.
  assert (Hl : map link_ends (page_links shared_gene_page)
               = [ ("GCH1", "TissueA"); ("GCH1", "TissueB");
                   ("TissueA", "Gene1"); ("TissueB", "Gene1") ])
    by reflexivity.
  split; [exact Hn|]. split; [exact Hl|]. intros Hspec.
  destruct (find_by node_summary (page_nodes shared_gene_page)
              ("Gene1", gene, "TissueA"))
    as (g & Hg & Eg); [rewrite Hn; simpl; tauto|].
  destruct (find_by node_summary (page_nodes shared_gene_page)
              ("TissueB", tissue, ""))
    as (t & Ht & Et); [rewrite Hn; simpl; tauto|].
  destruct (find_by link_ends (page_links shared_gene_page)
              ("TissueB", "Gene1"))
    as (l & Hl' & El); [rewrite Hl; simpl; tauto|].
  unfold node_summary in Eg, Et. unfold link_ends in El.
  injection Eg as Eg1 Eg2 Eg3. injection Et as Et1 Et2 Et3.
  injection El as El1 El2.
  specialize (Hspec g t l Hg Eg2 Ht Et2 Hl').
  rewrite Eg1, Et1, Eg3 in Hspec.
  assert (E : "TissueB" = "TissueA"); [|discriminate].
  apply Hspec. right. now split.
Qed.

(** ** Placement of a gene *)

Lemma place_gene_position sn t n st r :
  position_of (Gene_Symbol r) (fixed_positions (place_gene sn t n st r))
  = let anchor := position_of t (fixed_positions st) in
    let angle_noise := (normal sn (drawn st) (noise_scale (PCC r)) * 0.5)%R in
    let distance_noise :=
      (normal sn (S (drawn st)) (noise_scale (PCC r)) * 50)%R in
    ((fst anchor + (base_distance (PCC r) + distance_noise)
                   * cos (base_angle (idx r) n + angle_noise))%R,
     (snd anchor + (base_distance (PCC r) + distance_noise)
                   * sin (base_angle (idx r) n + angle_noise))%R).
Proof.
  unfold place_gene, position_of. simpl fixed_positions.
  now rewrite dict_get_set_eq.
Qed.

Definition two_rows : list raw_row :=
  [ mk_raw "TissueA" "Gene1" (Some 0.81%Q);
    mk_raw "TissueA" "Gene2" (Some 0.95%Q) ].

Lemma two_rows_selected `{SortValues} :
  select_genes (filter_df two_rows) "TissueA"
  = [ mk_row 1 "TissueA" "Gene2" 0.95%Q; mk_row 0 "TissueA" "Gene1" 0.81%Q ].
Proof.
  rewrite select_genes_firstn.
  change (rows_of "TissueA" (filter_df two_rows))
    with [ mk_row 0 "TissueA" "Gene1" 0.81%Q;
           mk_row 1 "TissueA" "Gene2" 0.95%Q ].
  rewrite sorted_pair_swapped; reflexivity.
Qed.

Lemma two_rows_layout `{SortValues} sn c :
  build_layout sn c (filter_df two_rows)
  = fold_left (place_gene sn "TissueA" 2)
      [ mk_row 1 "TissueA" "Gene2" 0.95%Q; mk_row 0 "TissueA" "Gene1" 0.81%Q ]
      (tissues_placed c (filter_df two_rows)).
Proof.
  unfold build_layout.
  change (unique (map Tumor (filter_df two_rows))) with ["TissueA"].
  simpl fold_left. unfold place_genes_of.
  rewrite two_rows_selected. reflexivity.
Qed.

Lemma tissue_anchor_0 : tissue_anchor 0 = (400%R, 0%R).
Proof.
  unfold tissue_anchor, radius. simpl INR.
  rewrite Rmult_0_l, cos_0, sin_0. f_equal; lra.
Qed.

Lemma normal_no_noise k s : normal no_noise k s = 0%R.
Proof. unfold normal, no_noise. lra. Qed.

Lemma base_angle_half : base_angle 1 2 = PI.
Proof. unfold base_angle. simpl INR. field. Qed.

Lemma base_angle_zero n : base_angle 0 n = 0%R.
Proof. unfold base_angle. simpl INR. unfold Rdiv. ring. Qed.

Lemma two_rows_positions `{SortValues} :
  let st := build_layout no_noise "GCH1" (filter_df two_rows) in
  position_of "Gene2" (fixed_positions st) = (342.5%R, 0%R)
  /\ position_of "Gene1" (fixed_positions st) = (478.5%R, 0%R).
Proof.
  cbv zeta. rewrite two_rows_layout. simpl fold_left. split.
  - transitivity
      (position_of "Gene2"
         (fixed_positions
            (place_gene no_noise "TissueA" 2
               (tissues_placed "GCH1" (filter_df two_rows))
               (mk_row 1 "TissueA" "Gene2" 0.95%Q)))).
    { reflexivity. }
    rewrite (place_gene_position no_noise "TissueA" 2 _
               (mk_row 1 "TissueA" "Gene2" 0.95%Q)).
    cbv zeta. rewrite !normal_no_noise. simpl idx. simpl PCC.
    change (position_of "TissueA" _) with (tissue_anchor 0).
    rewrite tissue_anchor_0, base_angle_half. simpl fst. simpl snd.
    replace (PI + 0 * 0.5)%R with PI by lra. rewrite cos_PI, sin_PI.
    unfold base_distance, Q2R. simpl. f_equal; lra.
  - rewrite (place_gene_position no_noise "TissueA" 2 _
               (mk_row 0 "TissueA" "Gene1" 0.81%Q)).
    cbv zeta. rewrite !normal_no_noise. simpl idx. simpl PCC.
    change (position_of "TissueA" _) with (tissue_anchor 0).
    rewrite tissue_anchor_0, base_angle_zero. simpl fst. simpl snd.
    replace (0 + 0 * 0.5)%R with 0%R by lra. rewrite cos_0, sin_0.
    unfold base_distance, Q2R. simpl. f_equal; lra.
Qed.

(** C3, at the table (TissueA, Gene1, 0.81), (TissueA, Gene2, 0.95).
    The base distance is [50 + (1 - pcc) * 150], but the base angle is
    computed from the row's label in the table, not from its rank in the
    selection: Gene2 is selected first (rank 0 of 2) and carries label 1,
    so it is placed at the angle [pi], to the left of the tissue, where
    rank 0 would put it at the angle 0, to the right; and Gene1, of rank
    1 and label 0, is placed at the angle 0. *)
Theorem angle_from_row_label `{SortValues} :
  let fdf := filter_df two_rows in
  let st := build_layout no_noise "GCH1" fdf in
  (forall sn t n st r,
     position_of (Gene_Symbol r) (fixed_positions (place_gene sn t n st r))
     = let anchor := position_of t (fixed_positions st) in
       let angle_noise :=
         (normal sn (drawn st) (noise_scale (PCC r)) * 0.5)%R in
       let distance_noise :=
         (normal sn (S (drawn st)) (noise_scale (PCC r)) * 50)%R in
       ((fst anchor + (base_distance (PCC r) + distance_noise)
                      * cos (base_angle (idx r) n + angle_noise))%R,
        (snd anchor + (base_distance (PCC r) + distance_noise)
                      * sin (base_angle (idx r) n + angle_noise))%R))
  /\ select_genes fdf "TissueA"
     = [ mk_row 1 "TissueA" "Gene2" 0.95%Q; mk_row 0 "TissueA" "Gene1" 0.81%Q ]
  /\ base_angle 1 2 = PI
  /\ position_of "TissueA" (fixed_positions st) = (400%R, 0%R)
  /\ position_of "Gene2" (fixed_positions st) = (342.5%R, 0%R)
  /\ position_of "Gene1" (fixed_positions st) = (478.5%R, 0%R).
Proof.
  intros fdf st. split; [exact place_gene_position|].
  split; [exact two_rows_selected|]. split; [exact base_angle_half|].
  split; [|exact two_rows_positions].
  unfold st. rewrite two_rows_layout. rewrite <- tissue_anchor_0.
  reflexivity.
Qed.

(** ** Tissue anchors *)

Lemma place_tissues_other c counts l k st t :
  ~ In t l ->
  Dict.get t (fixed_positions
                (fold_left (place_tissue c counts) (enumerate_from k l) st))
  = Dict.get t (fixed_positions st).
Proof.
  revert k st. induction l as [|a l IH]; intros k st Hnot; simpl;
    [reflexivity|].
  rewrite IH by (intros Hin; apply Hnot; now right).
  simpl. apply dict_get_set_neq. intros ->. apply Hnot. now left.
Qed.

Lemma place_tissues_anchor c counts l k st i t :
  NoDup l -> nth_error l i = Some t ->
  Dict.get t (fixed_positions
                (fold_left (place_tissue c counts) (enumerate_from k l) st))
  = Some (tissue_anchor (k + i)).
Proof.
  intros Hnd. revert k st i.
  induction Hnd as [|a l Hnot Hnd IH]; intros k st i Hnth.
  - now destruct i.
  - destruct i as [|i]; simpl in Hnth.
    + injection Hnth as ->. simpl fold_left.
      rewrite place_tissues_other by exact Hnot.
      simpl. rewrite Nat.add_0_r. apply dict_get_set_eq.
    + simpl fold_left. rewrite (IH (S k) _ i Hnth).
      f_equal. f_equal. lia.
Qed.









(** Numbers of the binary64 run of the third tissue (rank 2). *)
Module Rank2.
Import PrimFloat.
#[local] Set Warnings "-inexact-float".
#[local] Open Scope float_scope.

(** Twice the golden angle. *)
Definition angle : Binary64.float := 4.799926459457306.

(** What [math.cos] and [math.sin] return at [angle] with the GNU C
    library. *)
Definition cosine : Binary64.float := 0.08742572471695988.
Definition sine : Binary64.float := -0.9961710408648278.

(** The anchor that is stored, and what [math.sqrt] of the sum of the
    squares of its coordinates gives. *)
Definition anchor : Binary64.float * Binary64.float :=
  (34.97028988678395, -398.46841634593113).
Definition distance : Binary64.float := 400.00000000000006.

End Rank2.

(** The third anchor as the machine stores it is off the circle, also
    for a C library whose cosine and sine differ from these in the last
    place. *)
Lemma third_anchor_off_circle (cos sin : Binary64.float -> Binary64.float) :
  In (cos Rank2.angle) (Binary64.near Rank2.cosine) ->
  In (sin Rank2.angle) (Binary64.near Rank2.sine) ->
  Binary64.on_circle (Binary64.tissue_anchor cos sin 2) = false.
Proof.
  unfold Binary64.tissue_anchor.
  change (PrimFloat.mul (Binary64.of_nat 2) Binary64.golden_angle)
    with Rank2.angle.
  intros Hc Hs.
  assert (Hall : forallb
                   (fun c =>
                      forallb
                        (fun s =>
                           negb (Binary64.on_circle
                                   (PrimFloat.mul Binary64.radius c,
                                    PrimFloat.mul Binary64.radius s)))
                        (Binary64.near Rank2.sine))
                   (Binary64.near Rank2.cosine) = true)
    by (vm_compute; reflexivity).
  rewrite forallb_forall in Hall. specialize (Hall _ Hc).
  rewrite forallb_forall in Hall. specialize (Hall _ Hs).
  now apply negb_true_iff in Hall.
Qed.


(** ** Zoom *)

Lemma Rleb_true a b : (a <= b)%R -> Rleb a b = true.
Proof. intros Hle. unfold Rleb. now destruct (Rle_dec a b). Qed.

Lemma Rleb_false a b : (b < a)%R -> Rleb a b = false.
Proof. intros Hlt. unfold Rleb. destruct (Rle_dec a b); [lra|reflexivity]. Qed.

Lemma Rleb_iff a b : Rleb a b = true <-> (a <= b)%R.
Proof.
  unfold Rleb. destruct (Rle_dec a b); split; auto; discriminate.
Qed.

Lemma Rltb_iff a b : Rltb a b = true <-> (a < b)%R.
Proof.
  unfold Rltb. destruct (Rlt_dec a b); split; auto; discriminate.
Qed.

Lemma clamp_bounds s :
  (MIN_SCALE <= Rmax MIN_SCALE (Rmin MAX_SCALE s) <= MAX_SCALE)%R.
Proof.
  unfold MIN_SCALE, MAX_SCALE. split; [apply Rmax_l|].
  apply Rmax_lub; [lra|apply Rmin_l].
Qed.

(** C4 (as the code behaves).  A wheel event multiplies the scale by
    1.1 (upwards, [deltaY < 0]) or by 0.9 (otherwise), clamps it to
    [0.1, 5], and sets the offset to
    [mouse - (mouse - offset) / scale * newScale].  With these
    expressions read over the real numbers, and from a view whose scale
    lies in [0.1, 5], the plane point under the cursor,
    [(mouse - offset) / scale], is the same after the event as before.
    The page evaluates them in binary64, where the point is kept up to
    rounding only, as the example after the witness shows. *)
Theorem zoom_keeps_cursor_point (d : dom) (ev : mouse_event) (st : renderer) :
  (0.1 <= scale st <= 5)%R ->
  let st' := handleWheel d ev st in
  let mouseX := (clientX ev - rect_left d)%R in
  let mouseY := (clientY ev - rect_top d)%R in
  ((deltaY ev < 0)%R ->
   scale st' = Rmax 0.1 (Rmin 5 (scale st * 1.1)))
  /\ (~ (deltaY ev < 0)%R ->
      scale st' = Rmax 0.1 (Rmin 5 (scale st * 0.9)))
  /\ (0.1 <= scale st' <= 5)%R
  /\ ((mouseX - offsetX st') / scale st' = (mouseX - offsetX st) / scale st)%R
  /\ ((mouseY - offsetY st') / scale st' = (mouseY - offsetY st) / scale st)%R
  /\ offsetX st' = (mouseX - (mouseX - offsetX st) / scale st * scale st')%R
  /\ offsetY st' = (mouseY - (mouseY - offsetY st) / scale st * scale st')%R.
Proof.
  intros Hs st' mouseX mouseY. unfold st', handleWheel, draw. simpl.
  fold mouseX mouseY.
  set (s1 := if Rltb (deltaY ev) 0 then _ else _).
  pose proof (clamp_bounds s1) as Hb. unfold MIN_SCALE, MAX_SCALE in *.
  set (s2 := Rmax 0.1 (Rmin 5 s1)) in *.
  repeat split; try lra.
  - intros Hup. unfold s2, s1. apply Rltb_iff in Hup. now rewrite Hup.
  - intros Hdown. unfold s2, s1. destruct (Rltb (deltaY ev) 0) eqn:E;
      [apply Rltb_iff in E; contradiction|reflexivity].
  - field. lra.
  - field. lra.
Qed.

Definition sample_dom : dom := mk_dom 800 600 0 0.

Definition sample_view : renderer :=
  mk_renderer [] [] 800 600 1 400 300 None 0 0 false 0 0 0 [].

Definition wheel_up : mouse_event := mk_event 100 50 (-1).

(** A wheel turn upwards over the point (100, 50) of an 800 by 600
    canvas at scale 1, over the real numbers. *)
Lemma zoom_keeps_cursor_point_witness :
  scale (handleWheel sample_dom wheel_up sample_view)
  = Rmax 0.1 (Rmin 5 (1 * 1.1))
  /\ ((100 - 0 - offsetX (handleWheel sample_dom wheel_up sample_view))
      / scale (handleWheel sample_dom wheel_up sample_view)
      = (100 - 0 - 400) / 1)%R
  /\ ((50 - 0 - offsetY (handleWheel sample_dom wheel_up sample_view))
      / scale (handleWheel sample_dom wheel_up sample_view)
      = (50 - 0 - 300) / 1)%R.
Proof.
  assert (Hs : (0.1 <= scale sample_view <= 5)%R) by (simpl; lra).
  destruct (zoom_keeps_cursor_point sample_dom wheel_up sample_view Hs)
    as (Hup & _ & _ & Hx & Hy & _).
  split; [apply Hup; simpl; lra|split; [exact Hx|exact Hy]].
Defined.

(** Numbers of a binary64 session on an 800 by 600 canvas. *)
Module Wheel64.
Import PrimFloat.
#[local] Set Warnings "-inexact-float".
#[local] Open Scope float_scope.

Definition canvas : Binary64.dom := Binary64.mk_dom 0 0.

(** The view after load. *)
Definition loaded : Binary64.view := Binary64.mk_view 1 400 300.

Definition up_at_100_50 : Binary64.mouse_event :=
  Binary64.mk_event 100 50 (-1).
Definition up_at_origin : Binary64.mouse_event := Binary64.mk_event 0 0 (-1).

(** The view after one wheel step up at (100, 50), and the plane
    coordinates under the cursor before and after it. *)
Definition zoomed_once : Binary64.view := Binary64.mk_view 1.1 430 325.
Definition under_before : Binary64.float * Binary64.float := (-300, -250).
Definition under_after : Binary64.float * Binary64.float :=
  (-300, -249.99999999999997).

(** The view after seventeen wheel steps up at (100, 50), and after one
    more at (0, 0). *)
Definition at_limit : Binary64.view :=
  Binary64.mk_view 5 1600 1299.9999999999993.
Definition drifted : Binary64.view :=
  Binary64.mk_view 5 1600 1299.9999999999995.

End Wheel64.

(** The same wheel turn in binary64: the view (1, 400, 300) becomes
    (1.1, 430, 325), and the plane point under the cursor at (100, 50)
    moves from (-300, -250) to (-300, -249.99999999999997). *)
Lemma wheel_moves_plane_point :
  Binary64.handleWheel Wheel64.canvas Wheel64.up_at_100_50 Wheel64.loaded
  = Wheel64.zoomed_once
  /\ Binary64.under_cursor Wheel64.canvas Wheel64.up_at_100_50 Wheel64.loaded
     = Wheel64.under_before
  /\ Binary64.under_cursor Wheel64.canvas Wheel64.up_at_100_50
       Wheel64.zoomed_once
     = Wheel64.under_after
  /\ PrimFloat.eqb (snd Wheel64.under_after) (snd Wheel64.under_before)
     = false.
Proof. repeat split. Qed.

(** ** Hit-testing *)

Definition hit_at (st : renderer) (px py : R) (i : nat) : bool :=
  match nth_error (nodesData st) i with
  | Some nd => hit st px py nd
  | None => false
  end.

(** Hit-testing as the specification words it: the nodes are tried in the
    reverse of the order in which they are painted. *)
Definition hit_in_reverse_draw_order (st : renderer) (px py : R)
  : option nat :=
  find (hit_at st px py) (rev (draw_order (nodesData st))).

Lemma scan_down_spec st px py n :
  match scan_down st px py n with
  | Some i =>
      i < n /\ hit_at st px py i = true
      /\ forall j, i < j < n -> hit_at st px py j = false
  | None => forall j, j < n -> hit_at st px py j = false
  end.
Proof.
  induction n as [|n IH]; simpl.
  - intros j Hj. lia.
  - unfold hit_at at 1 2 in IH. unfold hit_at.
    destruct (nth_error (nodesData st) n) as [nd|] eqn:En.
    + destruct (hit st px py nd) eqn:Eh.
      * split; [lia|]. rewrite En. split; [exact Eh|]. intros j Hj. lia.
      * destruct (scan_down st px py n) as [i|].
        -- destruct IH as (Hi & Hhit & Hrest). split; [lia|].
           split; [exact Hhit|]. intros j Hj.
           destruct (Nat.eq_dec j n) as [->|Hne]; [now rewrite En|].
           apply Hrest. lia.
        -- intros j Hj.
           destruct (Nat.eq_dec j n) as [->|Hne]; [now rewrite En|].
           apply IH. lia.
    + destruct (scan_down st px py n) as [i|].
      * destruct IH as (Hi & Hhit & Hrest). split; [lia|].
        split; [exact Hhit|]. intros j Hj.
        destruct (Nat.eq_dec j n) as [->|Hne]; [now rewrite En|].
        apply Hrest. lia.
      * intros j Hj.
        destruct (Nat.eq_dec j n) as [->|Hne]; [now rewrite En|].
        apply IH. lia.
Qed.

Lemma hit_at_length st px py i :
  hit_at st px py i = true -> i < List.length (nodesData st).
Proof.
  unfold hit_at. destruct (nth_error (nodesData st) i) eqn:E;
    [|discriminate].
  intros _. apply nth_error_Some. congruence.
Qed.

(** C6 (as the code behaves). Hit-testing tries the nodes from the last
    element of the node array to the first and returns the first one
    whose test succeeds, that is the node of largest index that is hit;
    a node is hit exactly when the Euclidean distance on screen from the
    pointer to the projected centre of the node is at most
    [node.size * scale]. *)
Theorem hit_test_last_in_array (st : renderer) (px py : R) :
  (forall i,
     getNodeAtPosition st px py = Some i <->
     hit_at st px py i = true
     /\ forall j, i < j -> hit_at st px py j = false)
  /\ (getNodeAtPosition st px py = None <->
      forall j, hit_at st px py j = false)
  /\ (forall nd,
        hit st px py nd = true <->
        (sqrt ((px - (Node.x nd * scale st + offsetX st)) ^ 2
               + (py - (Node.y nd * scale st + offsetY st)) ^ 2)
         <= Node.size nd * scale st)%R).
Proof.
  pose proof (scan_down_spec st px py (List.length (nodesData st))) as Hs.
  fold (getNodeAtPosition st px py) in Hs.
  assert (Hout : forall j, List.length (nodesData st) <= j ->
                           hit_at st px py j = false).
  { intros j Hj. destruct (hit_at st px py j) eqn:E; [|reflexivity].
    apply hit_at_length in E. lia. }
  split; [|split].
  - intros i. split.
    + intros E. rewrite E in Hs. destruct Hs as (Hi & Hhit & Hrest).
      split; [exact Hhit|]. intros j Hj.
      destruct (Nat.lt_ge_cases j (List.length (nodesData st)));
        [apply Hrest; lia|now apply Hout].
    + intros [Hhit Hrest].
      destruct (getNodeAtPosition st px py) as [k|].
      * destruct Hs as (Hk & Hhitk & Hrestk). f_equal.
        destruct (Nat.lt_trichotomy i k) as [Hlt|[E|Hgt]]; [|auto|].
        -- rewrite (Hrest k Hlt) in Hhitk. discriminate.
        -- pose proof (hit_at_length _ _ _ _ Hhit) as Hlen.
           rewrite (Hrestk i ltac:(lia)) in Hhit. discriminate.
      * apply hit_at_length in Hhit as Hlen.
        rewrite (Hs i Hlen) in Hhit. discriminate.
  - split.
    + intros E. rewrite E in Hs. intros j.
      destruct (Nat.lt_ge_cases j (List.length (nodesData st)));
        [now apply Hs|now apply Hout].
    + intros Hnone. destruct (getNodeAtPosition st px py) as [k|];
        [|reflexivity].
      destruct Hs as (_ & Hhit & _). rewrite Hnone in Hhit. discriminate.
  - intros nd. unfold hit. apply Rleb_iff.
Qed.

(** A node array of the generator's shape (central node, tissue, gene)
    in which the gene lies 22 units from its tissue, under the tissue's
    disc of radius 25. *)
Definition covered_gene : list node :=
  [ mk_node "GCH1" "GCH1" central 50 "red" 0 0 "" 0 0 "GCH1 (central)";
    mk_node "TissueA" "TissueA" tissue 25 "#4daf4a" 1 0 "" 400 0
            "TissueA (n=1)";
    mk_node "Gene1" "Gene1" gene 3 "#4daf4a" 0 0.9 "TissueA" 422 0 "" ].

Definition covered_view : renderer :=
  mk_renderer covered_gene [] 800 600 1 0 0 None 0 0 false 0 0 0 [].

Lemma sqrt_le_of_square v s : (0 <= s)%R -> (v <= s * s)%R -> (sqrt v <= s)%R.
Proof.
  intros Hs Hv. rewrite <- (sqrt_square s Hs). now apply sqrt_le_1_alt.
Qed.

Lemma sqrt_gt_of_square v s : (0 <= s)%R -> (s * s < v)%R -> (s < sqrt v)%R.
Proof.
  intros Hs Hv. rewrite <- (sqrt_square s Hs) at 1.
  apply sqrt_lt_1_alt. split; [nra|exact Hv].
Qed.

(** C6 as specified fails: the tissue is painted after the gene, over
    it, and the reverse of the painting order would find the tissue; the
    code tries the gene first and returns it. *)
Lemma hit_test_prefers_covered_gene :
  draw_order (nodesData covered_view) = [2; 1; 0]
  /\ getNodeAtPosition covered_view 422 0 = Some 2
  /\ hit_in_reverse_draw_order covered_view 422 0 = Some 1.
Proof.
  split; [reflexivity|].
  assert (Hgene : hit_at covered_view 422 0 2 = true).
  { unfold hit_at, hit. simpl. apply Rleb_true.
    apply sqrt_le_of_square; lra. }
  assert (Htissue : hit_at covered_view 422 0 1 = true).
  { unfold hit_at, hit. simpl. apply Rleb_true.
    apply sqrt_le_of_square; lra. }
  assert (Hcentral : hit_at covered_view 422 0 0 = false).
  { unfold hit_at, hit. simpl. apply Rleb_false.
    apply sqrt_gt_of_square; lra. }
  split.
  - unfold getNodeAtPosition. simpl List.length. simpl scan_down.
    unfold hit_at in Hgene. simpl nth_error in Hgene. now rewrite Hgene.
  - unfold hit_in_reverse_draw_order.
    change (rev (draw_order (nodesData covered_view))) with [0; 1; 2].
    simpl find. now rewrite Hcentral, Htissue.
Qed.

(** ** The failure boundary *)

(** Every print succeeds. *)
Definition quiet (w : world) : Prop :=
  forall done ev, streams w done ev = None.




Lemma print_quiet w ev log :
  quiet w -> print w ev log = (inr tt, log ++ [ev]).
Proof. intros Hq. unfold print. now rewrite Hq. Qed.

Lemma print_all_quiet w evs log :
  quiet w -> print_all w evs log = (inr tt, log ++ evs).
Proof.
  intros Hq. revert log. induction evs as [|ev evs IH]; intros log; simpl.
  - unfold ret. now rewrite app_nil_r.
  - unfold bind. rewrite print_quiet by exact Hq. rewrite IH.
    now rewrite <- app_assoc.
Qed.








(** ** Relayout at start-up *)

(** A node with its position masked. *)
Definition frozen (nd : node) : node := set_xy 0 0 nd.

(** A test that does not look at the position. *)
Definition static (p : node -> bool) : Prop :=
  forall nd, p nd = p (frozen nd).

Lemma frozen_set_xy nx ny nd : frozen (set_xy nx ny nd) = frozen nd.
Proof. reflexivity. Qed.

Lemma nth_error_move_node j nx ny ns i :
  nth_error (move_node j nx ny ns) i
  = if Nat.eqb i j then option_map (set_xy nx ny) (nth_error ns i)
    else nth_error ns i.
Proof.
  revert j i. induction ns as [|nd ns IH]; intros [|j] [|i]; simpl;
    try reflexivity.
  - now destruct (Nat.eqb i j).
  - apply IH.
Qed.

Lemma frozen_move_node j nx ny ns :
  map frozen (move_node j nx ny ns) = map frozen ns.
Proof.
  revert j. induction ns as [|nd ns IH]; intros [|j]; simpl;
    try reflexivity.
  now rewrite IH.
Qed.

Lemma enumerate_from_In {A} k (l : list A) i a :
  In (i, a) (enumerate_from k l) <-> k <= i /\ nth_error l (i - k) = Some a.
Proof.
  revert k. induction l as [|b l IH]; intros k; simpl.
  - split; [tauto|]. intros [_ E]. now destruct (i - k).
  - rewrite IH. split.
    + intros [E|[Hle Hnth]].
      * injection E as -> ->. split; [lia|]. now rewrite Nat.sub_diag.
      * split; [lia|]. replace (i - k) with (S (i - S k)) by lia. exact Hnth.
    + intros [Hle Hnth]. destruct (Nat.eq_dec i k) as [->|Hne].
      * left. rewrite Nat.sub_diag in Hnth. simpl in Hnth. congruence.
      * right. split; [lia|].
        replace (i - k) with (S (i - S k)) in Hnth by lia. exact Hnth.
Qed.

Lemma enumerate_from_snd {A} k (l : list A) : map snd (enumerate_from k l) = l.
Proof.
  revert k. induction l as [|a l IH]; intros k; simpl; [reflexivity|].
  now rewrite IH.
Qed.

Lemma enumerate_from_fst_NoDup {A} k (l : list A) :
  NoDup (map fst (enumerate_from k l)).
Proof.
  revert k. induction l as [|a l IH]; intros k; simpl; constructor.
  - intros Hin. apply in_map_iff in Hin as ([i b] & E & Hin). simpl in E.
    subst i. apply enumerate_from_In in Hin. lia.
  - apply IH.
Qed.

Lemma NoDup_map_filter {A B} (f : A -> B) (p : A -> bool) l :
  NoDup (map f l) -> NoDup (map f (filter p l)).
Proof.
  induction l as [|a l IH]; simpl; intros Hnd; [constructor|].
  inversion Hnd as [|? ? Hnot Hnd']; subst.
  destruct (p a); simpl; [constructor|]; auto.
  intros Hin. apply Hnot. apply in_map_iff in Hin as (b & E & Hin).
  apply filter_In in Hin as [Hin _]. apply in_map_iff. now exists b.
Qed.

Lemma indices_where_In p ns i :
  In i (indices_where p ns) <->
  exists nd, nth_error ns i = Some nd /\ p nd = true.
Proof.
  unfold indices_where, enumerate. rewrite in_map_iff. split.
  - intros ([i' nd] & E & Hin). simpl in E. subst i'.
    apply filter_In in Hin as [Hin Hp]. apply enumerate_from_In in Hin.
    rewrite Nat.sub_0_r in Hin. exists nd. tauto.
  - intros (nd & Hnth & Hp). exists (i, nd). split; [reflexivity|].
    apply filter_In. split; [|exact Hp]. apply enumerate_from_In.
    rewrite Nat.sub_0_r. split; [lia|exact Hnth].
Qed.

Lemma indices_where_NoDup p ns : NoDup (indices_where p ns).
Proof.
  unfold indices_where. apply NoDup_map_filter, enumerate_from_fst_NoDup.
Qed.

Lemma cons_eq {A} (a b : A) l l' : a :: l = b :: l' -> a = b /\ l = l'.
Proof. intros E. injection E as -> ->. now split. Qed.

Lemma indices_where_frozen p ns ns' :
  static p -> map frozen ns = map frozen ns' ->
  indices_where p ns = indices_where p ns'.
Proof.
  intros Hp. unfold indices_where, enumerate. generalize 0.
  revert ns'. induction ns as [|nd ns IH]; intros [|nd' ns'] k E;
    try discriminate; [reflexivity|].
  destruct (cons_eq _ _ _ _ E) as [E1 E2]. simpl.
  rewrite (Hp nd), (Hp nd'), E1.
  destruct (p (frozen nd')); simpl; [f_equal|]; now apply IH.
Qed.

Lemma frozen_nth ns ns' i nd :
  map frozen ns = map frozen ns' -> nth_error ns i = Some nd ->
  exists nd', nth_error ns' i = Some nd' /\ frozen nd' = frozen nd.
Proof.
  intros E Hnth.
  assert (H1 : nth_error (map frozen ns) i = Some (frozen nd))
    by (rewrite nth_error_map, Hnth; reflexivity).
  rewrite E, nth_error_map in H1.
  destruct (nth_error ns' i) as [nd'|]; [|discriminate].
  exists nd'. split; [reflexivity|]. simpl in H1. congruence.
Qed.

Section Relayout.

Variable random : nat -> R.

Definition noiseScale_of (g : node) : R := (0.2 + 0.5 * (1 - Node.pcc g))%R.

(** [cloudAngle] and [cloudDistance] of [optimizeLayout] for the gene [g]
    at rank [idx] of [n], with the samples [k] and [k + 1]. *)
Definition cloud_angle (g : node) (idx n k : nat) : R :=
  (INR idx / INR n * 2 * PI + (random k - 0.5) * noiseScale_of g * PI)%R.

Definition cloud_distance (g : node) (k : nat) : R :=
  Rmax 20 (40 + (1 - Node.pcc g) * 100
           + (random (S k) * 2 - 1) * noiseScale_of g * 60).

Definition placed (t g : node) (idx n k : nat) : node :=
  set_xy (Node.x t + cloud_distance g k * cos (cloud_angle g idx n k))%R
         (Node.y t + cloud_distance g k * sin (cloud_angle g idx n k))%R g.

Lemma relocate_hit ti n ns k idx j t g :
  nth_error ns ti = Some t -> nth_error ns j = Some g ->
  relocate random ti n (ns, k) (idx, j)
  = (move_node j (Node.x (placed t g idx n k)) (Node.y (placed t g idx n k))
       ns, S (S k)).
Proof. intros Ht Hg. unfold relocate. now rewrite Ht, Hg. Qed.

Lemma relocate_cases ti n acc it :
  relocate random ti n acc it = acc
  \/ exists nx ny k,
       relocate random ti n acc it = (move_node (snd it) nx ny (fst acc), k).
Proof.
  destruct acc as [ns k], it as [idx j]. unfold relocate.
  destruct (nth_error ns ti); [|now left].
  destruct (nth_error ns j); [|now left].
  right. eexists. eexists. eexists. reflexivity.
Qed.

Lemma relocate_frozen ti n acc it :
  map frozen (fst (relocate random ti n acc it)) = map frozen (fst acc).
Proof.
  destruct (relocate_cases ti n acc it) as [->|(nx & ny & k & ->)];
    [reflexivity|apply frozen_move_node].
Qed.

Lemma relocate_other ti n acc it i :
  i <> snd it ->
  nth_error (fst (relocate random ti n acc it)) i = nth_error (fst acc) i.
Proof.
  intros Hne.
  destruct (relocate_cases ti n acc it) as [->|(nx & ny & k & ->)];
    [reflexivity|].
  simpl. rewrite nth_error_move_node.
  destruct (Nat.eqb i (snd it)) eqn:E; [|reflexivity].
  apply Nat.eqb_eq in E. contradiction.
Qed.

Lemma relocate_all_frozen ti n l acc :
  map frozen (fst (fold_left (relocate random ti n) l acc))
  = map frozen (fst acc).
Proof.
  revert acc. induction l as [|it l IH]; intros acc; simpl; [reflexivity|].
  rewrite IH. apply relocate_frozen.
Qed.

Lemma relocate_all_other ti n l acc i :
  ~ In i (map snd l) ->
  nth_error (fst (fold_left (relocate random ti n) l acc)) i
  = nth_error (fst acc) i.
Proof.
  revert acc. induction l as [|it l IH]; intros acc Hnot; simpl;
    [reflexivity|].
  rewrite IH by (intros Hin; apply Hnot; now right).
  apply relocate_other. intros ->. apply Hnot. now left.
Qed.

Lemma relocate_all_placed ti n t g idx j l acc :
  NoDup (map snd l) -> ~ In ti (map snd l) -> In (idx, j) l ->
  nth_error (fst acc) ti = Some t -> nth_error (fst acc) j = Some g ->
  exists k,
    nth_error (fst (fold_left (relocate random ti n) l acc)) j
    = Some (placed t g idx n k).
Proof.
  revert acc. induction l as [|[idx' j'] l IH]; intros acc Hnd Hti Hin Ht Hg;
    [destruct Hin|].
  simpl in Hnd, Hti. inversion Hnd as [|? ? Hnot Hnd']; subst.
  simpl fold_left. destruct Hin as [E|Hin].
  - injection E as -> ->. destruct acc as [ns k]. simpl in Ht, Hg.
    rewrite (relocate_hit ti n ns k idx j t g Ht Hg).
    exists k. rewrite relocate_all_other by exact Hnot. simpl.
    rewrite nth_error_move_node, Nat.eqb_refl, Hg. reflexivity.
  - assert (Hj : j <> j').
    { intros ->. apply Hnot. apply in_map_iff. now exists (idx, j'). }
    apply IH; auto.
    + rewrite relocate_other; [exact Ht|]. simpl. intros ->. apply Hti.
      now left.
    + rewrite relocate_other; [exact Hg|]. exact Hj.
Qed.

Lemma insert_by_pcc_perm ns j l : Permutation (j :: l) (insert_by_pcc ns j l).
Proof.
  induction l as [|k l IH]; simpl; [reflexivity|].
  destruct (Rltb _ _); [|reflexivity].
  rewrite perm_swap. now constructor.
Qed.

Lemma sort_by_pcc_perm ns l : Permutation l (sort_by_pcc ns l).
Proof.
  induction l as [|j l IH]; simpl; [constructor|].
  rewrite <- insert_by_pcc_perm. now constructor.
Qed.

End Relayout.

Lemma fold_left_once {A B O} (Inv : A -> Prop) (obs : A -> O) (Q : O -> Prop)
  (f : A -> B -> A) l x a o0 :
  NoDup l -> In x l -> Inv a -> obs a = o0 ->
  (forall a b, In b l -> Inv a -> Inv (f a b)) ->
  (forall a b, In b l -> b <> x -> Inv a -> obs (f a b) = obs a) ->
  (forall a, Inv a -> obs a = o0 -> Q (obs (f a x))) ->
  Q (obs (fold_left f l a)).
Proof.
  intros Hnd. revert a.
  induction Hnd as [|b l Hnot Hnd IH]; intros a Hin Ha Ho Hinv Hother Hx;
    [destruct Hin|].
  simpl. destruct Hin as [->|Hin].
  - assert (Hrest : forall l' a',
               (forall c, In c l' -> In c l) -> Inv a' ->
               obs (fold_left f l' a') = obs a').
    { induction l' as [|c l' IHl]; intros a' Hsub Ha'; simpl; [reflexivity|].
      assert (Hc : In c l) by (apply Hsub; now left).
      rewrite IHl.
      - apply Hother; [now right| |exact Ha']. intros ->. contradiction.
      - intros c' Hc'. apply Hsub. now right.
      - apply Hinv; [now right|exact Ha']. }
    rewrite Hrest; [now apply Hx|auto|]. apply Hinv; [now left|exact Ha].
  - assert (Hb : b <> x) by (intros ->; contradiction).
    apply IH; auto.
    + apply Hinv; [now left|exact Ha].
    + rewrite Hother; auto. now left.
    + intros a' b' Hb'. apply Hinv. now right.
    + intros a' b' Hb'. apply Hother. now right.
Qed.

Section RelayoutOfArray.

Variable random : nat -> R.
Variable ns0 : list node.

(** What [optimizeLayout] keeps of the array it started from: every
    field but the position, and the position of what is not a gene. *)
Definition kept (acc : list node * nat) : Prop :=
  map frozen (fst acc) = map frozen ns0
  /\ forall i nd, nth_error ns0 i = Some nd -> is_type gene nd = false ->
                  nth_error (fst acc) i = Some nd.

Lemma static_gene_of s : static (gene_of s).
Proof. intros nd. reflexivity. Qed.

Lemma static_is_type k : static (is_type k).
Proof. intros nd. reflexivity. Qed.

Lemma gene_of_is_gene s nd : gene_of s nd = true -> is_type gene nd = true.
Proof. unfold gene_of. now intros [H _]%andb_prop. Qed.

Lemma kept_same_node acc i nd nd' :
  kept acc -> nth_error ns0 i = Some nd -> nth_error (fst acc) i = Some nd' ->
  frozen nd' = frozen nd.
Proof.
  intros [Hf _] H0 H1.
  destruct (frozen_nth _ _ _ _ (eq_sym Hf) H0) as (nd2 & H2 & E).
  congruence.
Qed.

Lemma relocate_genes_of_kept acc b :
  kept acc -> kept (relocate_genes_of random acc b).
Proof.
  intros [Hf Hs]. unfold relocate_genes_of.
  destruct (nth_error (fst acc) b) as [t'|]; [|now split]. split.
  - now rewrite relocate_all_frozen.
  - intros i nd Hnth Hng. rewrite relocate_all_other; [now apply Hs|].
    unfold enumerate. rewrite enumerate_from_snd. intros Hin.
    apply (Permutation_in _ (Permutation_sym (sort_by_pcc_perm _ _))) in Hin.
    apply indices_where_In in Hin as (nd1 & H1 & Hp).
    rewrite (Hs i nd Hnth Hng) in H1. injection H1 as <-.
    apply (gene_of_is_gene (Node.name t')) in Hp. congruence.
Qed.

Lemma relocate_genes_of_other acc b j g :
  kept acc -> nth_error ns0 j = Some g ->
  (forall t', nth_error (fst acc) b = Some t' ->
              Node.name t' <> Node.tissue_of g) ->
  nth_error (fst (relocate_genes_of random acc b)) j = nth_error (fst acc) j.
Proof.
  intros Hk Hg Hname. unfold relocate_genes_of.
  destruct (nth_error (fst acc) b) as [t'|] eqn:Eb; [|reflexivity].
  apply relocate_all_other. unfold enumerate. rewrite enumerate_from_snd.
  intros Hin.
  apply (Permutation_in _ (Permutation_sym (sort_by_pcc_perm _ _))) in Hin.
  apply indices_where_In in Hin as (g1 & H1 & Hp).
  pose proof (kept_same_node _ _ _ _ Hk Hg H1) as E.
  apply (f_equal Node.tissue_of) in E. simpl in E.
  apply andb_prop in Hp as [_ Hp]. apply String.eqb_eq in Hp.
  apply (Hname t' eq_refl). congruence.
Qed.

Lemma relocate_genes_of_placed acc ti t g j :
  nth_error (fst acc) ti = Some t -> is_type gene t = false ->
  nth_error (fst acc) j = Some g -> gene_of (Node.name t) g = true ->
  exists idx n k,
    idx < n
    /\ nth_error (fst (relocate_genes_of random acc ti)) j
       = Some (placed random t g idx n k).
Proof.
  intros Ht Hng Hg Hp. unfold relocate_genes_of. rewrite Ht.
  set (tg := sort_by_pcc _ _).
  assert (Hperm : Permutation
                    (indices_where (gene_of (Node.name t)) (fst acc)) tg)
    by apply sort_by_pcc_perm.
  assert (Hj : In j tg).
  { apply (Permutation_in _ Hperm). apply indices_where_In. now exists g. }
  rewrite <- (enumerate_from_snd 0 tg) in Hj.
  apply in_map_iff in Hj as ([idx j'] & E & Hin). simpl in E. subst j'.
  exists idx, (List.length tg).
  destruct (relocate_all_placed random ti (List.length tg) t g idx j
              (enumerate tg) acc) as [k Hk]; auto.
  - unfold enumerate. rewrite enumerate_from_snd.
    apply (Permutation_NoDup Hperm), indices_where_NoDup.
  - unfold enumerate. rewrite enumerate_from_snd. intros Hti.
    apply (Permutation_in _ (Permutation_sym Hperm)) in Hti.
    apply indices_where_In in Hti as (nd & H1 & Hp1).
    rewrite Ht in H1. injection H1 as <-.
    apply gene_of_is_gene in Hp1. congruence.
  - exists k. split; [|exact Hk].
    apply enumerate_from_In in Hin as [_ Hin]. rewrite Nat.sub_0_r in Hin.
    apply nth_error_Some. congruence.
Qed.

Lemma tissue_not_gene nd : Node.node_type nd = tissue -> is_type gene nd = false.
Proof. unfold is_type. now intros ->. Qed.

Lemma optimize_places k0 j ti g t :
  nth_error ns0 j = Some g -> Node.node_type g = gene ->
  nth_error ns0 ti = Some t -> Node.node_type t = tissue ->
  Node.name t = Node.tissue_of g ->
  (forall ti' t',
     nth_error ns0 ti' = Some t' -> Node.node_type t' = tissue ->
     Node.name t' = Node.tissue_of g -> ti' = ti) ->
  let acc :=
    fold_left (relocate_genes_of random)
              (indices_where (is_type tissue) ns0) (ns0, k0) in
  nth_error (fst acc) ti = Some t
  /\ exists idx n k,
       idx < n /\ nth_error (fst acc) j = Some (placed random t g idx n k).
Proof.
  intros Hg Hgt Ht Htt Hname Huniq acc.
  assert (Hk0 : kept (ns0, k0)) by (split; auto).
  assert (Hkept : kept acc).
  { unfold acc. apply fold_left_invariant; [|exact Hk0].
    intros a b _. apply relocate_genes_of_kept. }
  split; [apply Hkept; auto using tissue_not_gene|].
  unfold acc.
  apply (fold_left_once kept (fun a => nth_error (fst a) j)
           (fun o => exists idx n k,
                       idx < n /\ o = Some (placed random t g idx n k))
           _ _ ti (ns0, k0) (Some g)); auto.
  - apply indices_where_NoDup.
  - apply indices_where_In. exists t. split; [exact Ht|].
    unfold is_type. now rewrite Htt.
  - intros a b _. apply relocate_genes_of_kept.
  - intros a b Hb Hne Ha. apply (relocate_genes_of_other a b j g Ha Hg).
    intros t' Hb' En. apply Hne.
    apply indices_where_In in Hb as (t0 & H0 & Hty).
    assert (Htis : Node.node_type t0 = tissue).
    { unfold is_type in Hty. now destruct (Node.node_type t0). }
    pose proof (proj2 Ha b t0 H0 (tissue_not_gene _ Htis)) as H1.
    rewrite Hb' in H1. injection H1 as ->.
    now apply (Huniq b t0).
  - intros a Ha Hobs.
    apply (relocate_genes_of_placed a ti t g j); auto.
    + apply Ha; auto using tissue_not_gene.
    + now apply tissue_not_gene.
    + unfold gene_of, is_type. rewrite Hgt, Hname. simpl.
      apply String.eqb_refl.
Qed.

End RelayoutOfArray.

(** ** Tissue nodes of a generated page *)

Lemma node_kept_ensure n m g a :
  Dict.get n (_node g) = Some a ->
  Dict.get n (_node (ensure_node m g)) = Some a.
Proof.
  intros Hget. unfold ensure_node. destruct (has_node m g) eqn:E;
    [exact Hget|].
  simpl. rewrite dict_get_set. destruct (String.eqb n m) eqn:En;
    [|exact Hget].
  apply String.eqb_eq in En. subst. apply has_node_false in E. congruence.
Qed.

Lemma node_kept_add_edge n u v w g a :
  Dict.get n (_node g) = Some a ->
  Dict.get n (_node (add_edge u v w g)) = Some a.
Proof.
  intros Hget. unfold add_edge. simpl. now apply node_kept_ensure, node_kept_ensure.
Qed.

(** The node [t] is a tissue node of the graph. *)
Definition tissue_typed (t : string) (g : Graph) : Prop :=
  exists a, Dict.get t (_node g) = Some a /\ a_node_type a = Some tissue.

Lemma add_tissue_typed t counts g :
  tissue_typed t
    (add_node t (mk_attrs (Some tissue) (Some (counts t)) None None) g).
Proof.
  unfold tissue_typed, add_node.
  destruct (Dict.get t (_node g)) as [old|]; simpl; rewrite dict_get_set_eq;
    eexists; split; reflexivity.
Qed.

Lemma add_node_keeps_typed t m kw g :
  m <> t -> tissue_typed t g -> tissue_typed t (add_node m kw g).
Proof.
  intros Hne (a & Hget & Hty). exists a. split; [|exact Hty].
  unfold add_node. destruct (Dict.get m (_node g)); simpl;
    now rewrite dict_get_set_neq.
Qed.

Lemma add_edge_keeps_typed t u v w g :
  tissue_typed t g -> tissue_typed t (add_edge u v w g).
Proof.
  intros (a & Hget & Hty). exists a. split; [|exact Hty].
  now apply node_kept_add_edge.
Qed.

Section TissueNodes.

Variable standard_normal : nat -> R.
Variable central_node : string.
Context `{SortValues}.
Variable fdf : list row.

Lemma tissues_placed_typed t :
  In t (unique (map Tumor fdf)) ->
  tissue_typed t (G (tissues_placed central_node fdf)).
Proof.
  intros Ht. unfold tissues_placed.
  assert (Hin : exists i, In (i, t) (enumerate (unique (map Tumor fdf)))).
  { apply In_nth_error in Ht as [i Hi]. exists i.
    apply enumerate_from_In. rewrite Nat.sub_0_r. split; [lia|exact Hi]. }
  destruct Hin as [i Hin].
  apply (fold_left_reaches (fun _ => True) (fun st => tissue_typed t (G st))
           _ _ _ (i, t) Hin I); auto.
  - intros st _. unfold place_tissue. simpl G.
    apply add_edge_keeps_typed, add_tissue_typed.
  - intros st [i' t'] _ Hty. unfold place_tissue. simpl G.
    apply add_edge_keeps_typed.
    destruct (string_dec t' t) as [->|Hne];
      [apply add_tissue_typed|now apply add_node_keeps_typed].
Qed.

Lemma place_gene_keeps_typed t t' n st r :
  tissue_typed t (G st) ->
  tissue_typed t (G (place_gene standard_normal t' n st r)).
Proof.
  intros Hty. unfold place_gene. simpl G. apply add_edge_keeps_typed.
  destruct (has_node (Gene_Symbol r) (G st)) eqn:E; simpl negb; cbv iota;
    [exact Hty|].
  apply add_node_keeps_typed; [|exact Hty]. intros Heq. rewrite Heq in E.
  destruct Hty as (a & Hget & _). apply has_node_false in E. congruence.
Qed.

Lemma build_layout_typed t :
  In t (unique (map Tumor fdf)) ->
  tissue_typed t (G (build_layout standard_normal central_node fdf)).
Proof.
  intros Ht. unfold build_layout. apply fold_left_invariant.
  - intros st t' _ Hty. unfold place_genes_of.
    apply fold_left_invariant; [|exact Hty].
    intros st' r _. apply place_gene_keeps_typed.
  - now apply tissues_placed_typed.
Qed.

Lemma nodes_data_names colors st nd :
  In nd (nodes_data central_node colors st) -> Node.name nd = Node.id nd.
Proof.
  unfold nodes_data. intros [<-|Hin]; [reflexivity|].
  apply in_flat_map in Hin as (n & _ & Hin). unfold node_entry in Hin.
  destruct (String.eqb n central_node); [destruct Hin|].
  destruct (a_node_type (get_attrs n (G st))) as [[]|]; simpl in Hin;
    try tauto; destruct Hin as [<-|[]]; reflexivity.
Qed.

Lemma nodes_data_tissue colors st t :
  tissue_typed t (G st) -> t <> central_node ->
  exists nd, In nd (nodes_data central_node colors st)
             /\ Node.node_type nd = tissue /\ Node.id nd = t.
Proof.
  intros (a & Hget & Hty) Hne.
  assert (Hin : In t (nodes (G st))).
  { apply dict_mem_In. unfold Dict.mem. now rewrite Hget. }
  assert (Ha : get_attrs t (G st) = a) by (unfold get_attrs; now rewrite Hget).
  apply String.eqb_neq in Hne.
  eexists. split.
  - unfold nodes_data. right. apply in_flat_map. exists t.
    split; [exact Hin|]. unfold node_entry. rewrite Hne, Ha, Hty.
    left. reflexivity.
  - split; reflexivity.
Qed.

(** In a generated page every gene node whose tissue label is not the
    identifier of the central node has exactly one tissue node of that
    name. *)
Lemma generated_gene_has_tissue j g :
  let ns := page_nodes (make_page standard_normal central_node fdf) in
  nth_error ns j = Some g -> Node.node_type g = gene ->
  Node.tissue_of g <> central_node ->
  exists ti t,
    nth_error ns ti = Some t /\ Node.node_type t = tissue
    /\ Node.name t = Node.tissue_of g
    /\ forall ti' t',
         nth_error ns ti' = Some t' -> Node.node_type t' = tissue ->
         Node.name t' = Node.tissue_of g -> ti' = ti.
Proof.
  intros ns Hg Hgt Hne. unfold ns, make_page in *. simpl page_nodes in *.
  set (colors := tissue_colors _) in *.
  set (st := build_layout standard_normal central_node fdf) in *.
  assert (Hin : In g (nodes_data central_node colors st))
    by (eapply nth_error_In; exact Hg).
  destruct (nodes_data_gene _ _ _ _ Hin Hgt) as (a & Hget & Ha & _ & Ht).
  destruct (build_layout_from_selection standard_normal central_node fdf
              _ _ Hget Ha) as (t & r & Hin_t & _ & _ & _ & Hat).
  rewrite Hat in Ht. simpl in Ht.
  destruct (nodes_data_tissue colors st t (build_layout_typed t Hin_t))
    as (nd & Hnd & Hty & Hid); [congruence|].
  destruct (In_nth_error _ _ Hnd) as [ti Hti].
  exists ti, nd. split; [exact Hti|]. split; [exact Hty|].
  assert (Hname : Node.name nd = Node.tissue_of g).
  { rewrite (nodes_data_names colors st nd Hnd). congruence. }
  split; [exact Hname|].
  intros ti' t' Hti' _ Hname'.
  pose proof (nodes_data_ids central_node colors st
                (proj2 (build_layout_kept standard_normal central_node fdf)))
    as Hnd_ids.
  apply (proj1 (NoDup_nth_error _) Hnd_ids).
  - rewrite length_map. apply nth_error_Some. congruence.
  - rewrite !nth_error_map, Hti, Hti'. simpl. f_equal.
    rewrite <- (nodes_data_names colors st t'), <- (nodes_data_names colors st nd);
      [congruence|exact Hnd|].
    eapply nth_error_In. exact Hti'.
Qed.

End TissueNodes.

Lemma cloud_distance_floor random g k : (20 <= cloud_distance random g k)%R.
Proof. unfold cloud_distance. apply Rmax_l. Qed.

Lemma placed_distance random t g idx n k :
  sqrt ((Node.x (placed random t g idx n k) - Node.x t) ^ 2
        + (Node.y (placed random t g idx n k) - Node.y t) ^ 2)
  = cloud_distance random g k.
Proof.
  unfold placed. simpl Node.x. simpl Node.y.
  set (cd := cloud_distance random g k).
  set (a := cloud_angle random g idx n k).
  replace ((Node.x t + cd * cos a - Node.x t) ^ 2
           + (Node.y t + cd * sin a - Node.y t) ^ 2)%R
    with (cd * cd * (Rsqr (sin a) + Rsqr (cos a)))%R
    by (unfold Rsqr; ring).
  rewrite sin2_cos2, Rmult_1_r. apply sqrt_square.
  pose proof (cloud_distance_floor random g k). fold cd in H. lra.
Qed.

(** C10 (as the code behaves). [initialize] runs [optimizeLayout] once,
    after [resizeCanvas] has painted the generated positions and before
    it returns; the canvas is then repainted from the new positions.
    Every gene node of a generated page whose tissue label is not the
    identifier of the central node is moved to
    [tissue + cloudDistance * (cos cloudAngle, sin cloudAngle)] with
    [cloudDistance = max 20 (40 + (1 - pcc) * 100 + jitter)], hence at
    distance [cloudDistance >= 20] from its tissue node, which stays
    where it was. *)
Theorem initialize_relocates_genes `{SortValues} (standard_normal : nat -> R)
  (df : list raw_row) (central_node : string) (d : dom) (random : nat -> R)
  (j : nat) (g : node) :
  let p := make_page standard_normal central_node (filter_df df) in
  let st0 := start d (page_nodes p) (page_links p) in
  let st' := initialize d random st0 in
  nth_error (page_nodes p) j = Some g ->
  Node.node_type g = gene ->
  Node.tissue_of g <> central_node ->
  st' = optimizeLayout random (resizeCanvas d st0)
  /\ (exists first, painted st' = [first; drawNetworkToContext st'])
  /\ exists ti t idx n k,
       nth_error (page_nodes p) ti = Some t
       /\ Node.node_type t = tissue
       /\ Node.name t = Node.tissue_of g
       /\ nth_error (nodesData st') ti = Some t
       /\ idx < n
       /\ nth_error (nodesData st') j = Some (placed random t g idx n k)
       /\ cloud_distance random g k
          = Rmax 20 (40 + (1 - Node.pcc g) * 100
                     + (random (S k) * 2 - 1)
                       * (0.2 + 0.5 * (1 - Node.pcc g)) * 60)
       /\ (20 <= cloud_distance random g k)%R
       /\ sqrt ((Node.x (placed random t g idx n k) - Node.x t) ^ 2
                + (Node.y (placed random t g idx n k) - Node.y t) ^ 2)
          = cloud_distance random g k.
Proof.
  intros p st0 st' Hg Hgt Hne.
  split; [reflexivity|]. split; [eexists; reflexivity|].
  destruct (generated_gene_has_tissue standard_normal central_node
              (filter_df df) j g Hg Hgt Hne)
    as (ti & t & Ht & Htt & Hname & Huniq).
  destruct (optimize_places random (page_nodes p) 0 j ti g t
              Hg Hgt Ht Htt Hname Huniq)
    as (Hkeep & idx & n & k & Hlt & Hplaced).
  exists ti, t, idx, n, k.
  repeat split; try assumption.
  - apply cloud_distance_floor.
  - apply placed_distance.
Qed.

Definition half (k : nat) : R := 0.5%R.

Definition far_node : node := mk_node "" "" central 0 "" 0 0 "" 0 0 "".

Definition three_rows_page : page :=
  @make_page no_noise keeping_ties "GCH1" (filter_df three_rows).

(** Start-up on the page of the end-to-end scenario: the node of index 2,
    Gene1, is moved next to TissueA. *)
Lemma initialize_relocates_genes_witness :
  exists t idx n k,
    nth_error
      (nodesData
         (initialize sample_dom half
            (start sample_dom (page_nodes three_rows_page)
               (page_links three_rows_page)))) 2
    = Some (placed half t (nth 2 (page_nodes three_rows_page) far_node)
              idx n k)
    /\ (20 <= cloud_distance half
                (nth 2 (page_nodes three_rows_page) far_node) k)%R.
Proof.
  destruct (@initialize_relocates_genes keeping_ties no_noise three_rows
              "GCH1" sample_dom half 2
              (nth 2 (page_nodes three_rows_page) far_node))
    as (_ & _ & ti & t & idx & n & k & _ & _ & _ & _ & _ & Hp & _ & Hd & _).
  - reflexivity.
  - reflexivity.
  - discriminate.
  - exists t, idx, n, k. split; [exact Hp|exact Hd].
Defined.

(** C10 as specified: every gene node of the array is moved next to a
    tissue node of the array that bears the name of its tissue. *)
Definition relocated_as_specified (random : nat -> R) (ns ns' : list node)
  : Prop :=
  forall j g,
    nth_error ns j = Some g -> Node.node_type g = gene ->
    exists t idx n k,
      In t ns /\ Node.node_type t = tissue
      /\ Node.name t = Node.tissue_of g
      /\ nth_error ns' j = Some (placed random t g idx n k).

Definition central_as_tissue : list raw_row :=
  [ mk_raw "GCH1" "Gene1" (Some 0.9%Q) ].

Definition central_as_tissue_page : page :=
  @make_page no_noise keeping_ties "GCH1" (filter_df central_as_tissue).

(** C10 as specified fails: when a tissue label is the identifier of the
    central node, the page has no tissue node of that name, and start-up
    leaves the genes of that tissue where the generator put them. *)
Lemma start_up_keeps_generated_position :
  map node_summary (page_nodes central_as_tissue_page)
  = [ ("GCH1", central, ""); ("Gene1", gene, "GCH1") ]
  /\ nodesData
       (initialize sample_dom half
          (start sample_dom (page_nodes central_as_tissue_page)
             (page_links central_as_tissue_page)))
     = page_nodes central_as_tissue_page
  /\ ~ relocated_as_specified half
         (page_nodes central_as_tissue_page)
         (nodesData
            (initialize sample_dom half
               (start sample_dom (page_nodes central_as_tissue_page)
                  (page_links central_as_tissue_page)))).
Proof.
  assert (Hn : map node_summary (page_nodes central_as_tissue_page)
               = [ ("GCH1", central, ""); ("Gene1", gene, "GCH1") ])
    by reflexivity.
  split; [exact Hn|]. split; [reflexivity|].
  intros Hspec.
  destruct (Hspec 1 (nth 1 (page_nodes central_as_tissue_page) far_node))
    as (t & _ & _ & _ & Hin & Hty & _); [reflexivity|reflexivity|].
  apply (in_map node_summary) in Hin. rewrite Hn in Hin.
  unfold node_summary in Hin.
  destruct Hin as [E|[E|[]]]; injection E as _ Ek _; congruence.
Qed.

(** * The renderer as a whole *)

(** ** Dispatch of the listeners registered by [initialize], lines 661-668

    Each input comes with the document as it is when the input arrives. *)

Inductive input :=
| MouseDown (ev : mouse_event)     (* canvas, 'mousedown' *)
| MouseMove (ev : mouse_event)     (* canvas, 'mousemove' *)
| MouseUp                          (* window, 'mouseup' *)
| Wheel (ev : mouse_event)         (* canvas, 'wheel' *)
| Resize                           (* window, 'resize' *)
| ResetView                        (* reset-zoom, 'click' *)
| OptimizeLayout.                  (* auto-cluster, 'click' *)

Definition step (random : nat -> R) (st : renderer) (i : dom * input)
  : renderer :=
  match snd i with
  | MouseDown ev => handleMouseDown (fst i) ev st
  | MouseMove ev => handleMouseMove (fst i) ev st
  | MouseUp => handleMouseUp st
  | Wheel ev => handleWheel (fst i) ev st
  | Resize => resizeCanvas (fst i) st
  | ResetView => resetView st
  | OptimizeLayout => optimizeLayout random st
  end.

(** The state after the script has run and the inputs have been handled. *)
Definition session (random : nat -> R) (d : dom) (ns : list node)
  (ls : list link) (inputs : list (dom * input)) : renderer :=
  fold_left (step random) inputs (initialize d random (start d ns ls)).

(** The size of the container at the last resize, or at load. *)
Definition last_size (d : dom) (inputs : list (dom * input)) : R * R :=
  fold_left
    (fun sz i =>
       match snd i with
       | Resize => (clientWidth (fst i), clientHeight (fst i))
       | _ => sz
       end)
    inputs (clientWidth d, clientHeight d).

(** ** What [optimizeLayout] leaves alone *)

Lemma optimize_kept random ns k :
  kept ns
    (fold_left (relocate_genes_of random)
       (indices_where (is_type tissue) ns) (ns, k)).
Proof.
  apply fold_left_invariant.
  - intros a b _. apply relocate_genes_of_kept.
  - split; auto.
Qed.

Lemma not_gene_is_type nd : Node.node_type nd <> gene -> is_type gene nd = false.
Proof. unfold is_type. destruct (Node.node_type nd); simpl; congruence. Qed.

Lemma optimize_frozen random st :
  map frozen (nodesData (optimizeLayout random st))
  = map frozen (nodesData st)
  /\ linksData (optimizeLayout random st) = linksData st.
Proof.
  unfold optimizeLayout. simpl.
  pose proof (optimize_kept random (nodesData st) (used st)) as [Hf _].
  split; [exact Hf|reflexivity].
Qed.

(** X1. [optimizeLayout] changes nothing but the coordinates of gene nodes
    that have a tissue node of their tissue's name: the array keeps its
    length and every other field, the central and tissue nodes stay in
    place, a gene without such a tissue node stays in place, and the
    view is untouched. *)
Theorem optimize_moves_only_genes (random : nat -> R) (st : renderer) :
  let st' := optimizeLayout random st in
  map frozen (nodesData st') = map frozen (nodesData st)
  /\ List.length (nodesData st') = List.length (nodesData st)
  /\ (forall i nd,
        nth_error (nodesData st) i = Some nd -> Node.node_type nd <> gene ->
        nth_error (nodesData st') i = Some nd)
  /\ (forall j g,
        nth_error (nodesData st) j = Some g ->
        (forall t, In t (nodesData st) -> Node.node_type t = tissue ->
                   Node.name t <> Node.tissue_of g) ->
        nth_error (nodesData st') j = Some g)
  /\ linksData st' = linksData st
  /\ (scale st', offsetX st', offsetY st') = (scale st, offsetX st, offsetY st).
Proof.
  intros st'. unfold st', optimizeLayout. simpl.
  pose proof (optimize_kept random (nodesData st) (used st)) as [Hf Hs].
  split; [exact Hf|]. split.
  - rewrite <- (length_map frozen), Hf. apply length_map.
  - split; [|split; [|split; reflexivity]].
    + intros i nd Hnth Hty. apply Hs; [exact Hnth|].
      now apply not_gene_is_type.
    + intros j g Hg Hnone.
      apply (fold_left_invariant
               (fun a => kept (nodesData st) a
                         /\ nth_error (fst a) j = Some g)).
      * intros a b Hb [Hk Hj]. split; [now apply relocate_genes_of_kept|].
        rewrite (relocate_genes_of_other random (nodesData st) a b j g Hk Hg);
          [exact Hj|].
        intros t' Hb'.
        apply indices_where_In in Hb as (t0 & H0 & Hty).
        assert (Htis : Node.node_type t0 = tissue).
        { unfold is_type in Hty. now destruct (Node.node_type t0). }
        pose proof (proj2 Hk b t0 H0 (tissue_not_gene _ Htis)) as H1.
        rewrite Hb' in H1. injection H1 as ->.
        apply Hnone; [|exact Htis]. eapply nth_error_In. exact H0.
      * split; [split; auto|exact Hg].
Qed.

(** ** Invariants of a session *)

(** What every handler keeps true: the scale within its bounds, the node
    array unchanged but for positions, the links unchanged, and the last
    repaint made from the current state. *)
Definition steady (ns : list node) (ls : list link) (st : renderer) : Prop :=
  (MIN_SCALE <= scale st <= MAX_SCALE)%R
  /\ map frozen (nodesData st) = map frozen ns
  /\ linksData st = ls
  /\ exists ps, painted st = ps ++ [drawNetworkToContext st].

Lemma steady_draw ns ls st :
  (MIN_SCALE <= scale st <= MAX_SCALE)%R ->
  map frozen (nodesData st) = map frozen ns -> linksData st = ls ->
  steady ns ls (draw st).
Proof.
  intros Hs Hn Hl. split; [exact Hs|]. split; [exact Hn|].
  split; [exact Hl|]. exists (painted st). reflexivity.
Qed.

Lemma steady_same ns ls st st' :
  steady ns ls st ->
  scale st' = scale st -> nodesData st' = nodesData st ->
  linksData st' = linksData st -> painted st' = painted st ->
  offsetX st' = offsetX st -> offsetY st' = offsetY st ->
  steady ns ls st'.
Proof.
  intros (Hs & Hn & Hl & ps & Hp) E1 E2 E3 E4 E5 E6.
  split; [now rewrite E1|]. split; [now rewrite E2|].
  split; [now rewrite E3|]. exists ps. rewrite E4, Hp.
  unfold drawNetworkToContext. now rewrite E1, E2, E3, E5, E6.
Qed.

Lemma steady_start d random ns ls :
  steady ns ls (initialize d random (start d ns ls)).
Proof.
  unfold initialize. set (st := resizeCanvas d (start d ns ls)).
  destruct (optimize_frozen random st) as [Hf Hl].
  split; [|split; [|split]].
  - unfold MIN_SCALE, MAX_SCALE. simpl. lra.
  - rewrite Hf. reflexivity.
  - rewrite Hl. reflexivity.
  - eexists. reflexivity.
Qed.

Lemma steady_step random ns ls st i :
  steady ns ls st -> steady ns ls (step random st i).
Proof.
  intros Hst. pose proof Hst as (Hs & Hn & Hl & ps & Hp).
  destruct i as [d [ev|ev| |ev| | |]];
    unfold step; simpl fst; simpl snd; cbv iota.
  - unfold handleMouseDown.
    destruct (getNodeAtPosition st _ _) as [i|];
      [destruct (nth_error (nodesData st) i)|];
      try exact Hst; now apply (steady_same ns ls st).
  - unfold handleMouseMove. destruct (dragNode st) as [j|].
    + apply steady_draw; simpl; auto. now rewrite frozen_move_node.
    + destruct (isDraggingCanvas st).
      * apply steady_draw; simpl; auto.
      * exact Hst.
  - now apply (steady_same ns ls st).
  - unfold handleWheel. apply steady_draw; simpl; auto.
    apply clamp_bounds.
  - unfold resizeCanvas. apply steady_draw; simpl; auto.
  - unfold resetView. apply steady_draw; simpl; auto.
    unfold MIN_SCALE, MAX_SCALE. lra.
  - destruct (optimize_frozen random st) as [Hf Hl'].
    split; [|split; [|split]].
    + exact Hs.
    + now rewrite Hf.
    + now rewrite Hl'.
    + eexists. reflexivity.
Qed.

Lemma steady_session random d ns ls inputs :
  steady ns ls (session random d ns ls inputs).
Proof.
  unfold session. apply fold_left_invariant.
  - intros st i _. apply steady_step.
  - apply steady_start.
Qed.

(** X2. Whatever the user does, the scale stays within [0.1, 5]. *)
Theorem session_scale_bounded (random : nat -> R) (d : dom) (ns : list node)
  (ls : list link) (inputs : list (dom * input)) :
  (0.1 <= scale (session random d ns ls inputs) <= 5)%R.
Proof. exact (proj1 (steady_session random d ns ls inputs)). Qed.

(** X3. Whatever the user does, no node is added, removed or reordered and
    no field of a node other than its position changes; the links stay
    as they were loaded. *)
Theorem session_keeps_data (random : nat -> R) (d : dom) (ns : list node)
  (ls : list link) (inputs : list (dom * input)) :
  let st := session random d ns ls inputs in
  List.length (nodesData st) = List.length ns
  /\ (forall i nd',
        nth_error (nodesData st) i = Some nd' ->
        exists nd, nth_error ns i = Some nd
                   /\ nd' = set_xy (Node.x nd') (Node.y nd') nd)
  /\ linksData st = ls.
Proof.
  intros st. destruct (steady_session random d ns ls inputs)
    as (_ & Hn & Hl & _). fold st in Hn, Hl.
  split; [|split; [|exact Hl]].
  - rewrite <- (length_map frozen), Hn. apply length_map.
  - intros i nd' Hnth.
    destruct (frozen_nth _ _ _ _ Hn Hnth) as (nd & H0 & E).
    exists nd. split; [exact H0|].
    destruct nd', nd. unfold frozen, set_xy in *. simpl in *.
    injection E as -> -> -> -> -> -> -> -> ->. reflexivity.
Qed.

(** X4. After every input the canvas shows the state as it is: the last
    repaint was made from the current positions and the current view. *)
Theorem session_canvas_current (random : nat -> R) (d : dom) (ns : list node)
  (ls : list link) (inputs : list (dom * input)) :
  let st := session random d ns ls inputs in
  exists earlier, painted st = earlier ++ [drawNetworkToContext st].
Proof.
  exact (proj2 (proj2 (proj2 (steady_session random d ns ls inputs)))).
Qed.

(** ** Reset View *)

Lemma step_size random st i :
  (width (step random st i), height (step random st i))
  = match snd i with
    | Resize => (clientWidth (fst i), clientHeight (fst i))
    | _ => (width st, height st)
    end.
Proof.
  destruct i as [d [ev|ev| |ev| | |]]; unfold step; simpl fst; simpl snd;
    cbv iota; try reflexivity.
  - unfold handleMouseDown.
    destruct (getNodeAtPosition st _ _) as [i|];
      [destruct (nth_error (nodesData st) i)|]; reflexivity.
  - unfold handleMouseMove. destruct (dragNode st); [reflexivity|].
    destruct (isDraggingCanvas st); reflexivity.
Qed.

Lemma session_size random d ns ls inputs :
  (width (session random d ns ls inputs),
   height (session random d ns ls inputs))
  = last_size d inputs.
Proof.
  unfold session, last_size.
  assert (Hgo : forall l st sz,
             (width st, height st) = sz ->
             (width (fold_left (step random) l st),
              height (fold_left (step random) l st))
             = fold_left
                 (fun sz i =>
                    match snd i with
                    | Resize => (clientWidth (fst i), clientHeight (fst i))
                    | _ => sz
                    end) l sz).
  { induction l as [|i l IH]; intros st sz E; simpl; [exact E|].
    apply IH. rewrite step_size. rewrite E. now destruct (snd i). }
  apply Hgo. reflexivity.
Qed.

(** X5. After any inputs, Reset View sets the scale to 1 and the offset to
    the middle of the canvas as last sized, and moves no node. *)
Theorem reset_view_centres (random : nat -> R) (d d' : dom) (ns : list node)
  (ls : list link) (inputs : list (dom * input)) :
  let before := session random d ns ls inputs in
  let st := session random d ns ls (inputs ++ [(d', ResetView)]) in
  scale st = 1%R
  /\ offsetX st = (fst (last_size d inputs) / 2)%R
  /\ offsetY st = (snd (last_size d inputs) / 2)%R
  /\ nodesData st = nodesData before
  /\ resetView st = draw st.
Proof.
  intros before st. unfold st, session. rewrite fold_left_app. simpl.
  fold (session random d ns ls inputs). fold before.
  pose proof (session_size random d ns ls inputs) as Hsz. fold before in Hsz.
  rewrite <- Hsz. simpl. repeat split.
Qed.

(** ** Zoom at the limits, in binary64 *)

(** X6. In binary64, a wheel step up at scale 5 and a wheel step down at
    scale 0.1 leave the scale as it is.  The offset is recomputed all
    the same and can move by rounding: seventeen steps up at (100, 50)
    from the view after load give the view (5, 1600,
    1299.9999999999993), and one more step up, at (0, 0), moves its
    vertical offset to 1299.9999999999995. *)
Theorem zoom_limits_pin_scale :
  (forall d ev st,
     (Binary64.scale st = Binary64.MAX_SCALE
      /\ PrimFloat.ltb (Binary64.deltaY ev) PrimFloat.zero = true)
     \/ (Binary64.scale st = Binary64.MIN_SCALE
         /\ PrimFloat.ltb (Binary64.deltaY ev) PrimFloat.zero = false) ->
     Binary64.scale (Binary64.handleWheel d ev st) = Binary64.scale st)
  /\ fold_left (fun st ev => Binary64.handleWheel Wheel64.canvas ev st)
               (repeat Wheel64.up_at_100_50 17) Wheel64.loaded
     = Wheel64.at_limit
  /\ Binary64.handleWheel Wheel64.canvas Wheel64.up_at_origin
       Wheel64.at_limit
     = Wheel64.drifted
  /\ PrimFloat.eqb (Binary64.offsetY Wheel64.drifted)
                   (Binary64.offsetY Wheel64.at_limit) = false.
Proof.
  split; [|repeat split].
  intros d ev st [[Hs Hup]|[Hs Hdown]]; unfold Binary64.handleWheel;
    unfold PrimFloat.zero in *; simpl Binary64.scale.
  - rewrite Hup, Hs. reflexivity.
  - rewrite Hdown, Hs. reflexivity.
Qed.

(** ** Dragging a node, releasing *)

Lemma getNodeAtPosition_node st px py i :
  getNodeAtPosition st px py = Some i ->
  exists nd, nth_error (nodesData st) i = Some nd /\ hit st px py nd = true.
Proof.
  intros E.
  pose proof (scan_down_spec st px py (List.length (nodesData st))) as Hs.
  fold (getNodeAtPosition st px py) in Hs. rewrite E in Hs.
  destruct Hs as (_ & Hhit & _). unfold hit_at in Hhit.
  destruct (nth_error (nodesData st) i) as [nd|]; [|discriminate].
  now exists nd.
Qed.

(** X8. Pressing the button over a node grabs it; a mouse move then sets
    its position to [(mouse - offset) / scale - dragOffset], where
    [dragOffset = (press - offset) / scale - position] was computed at
    the press.  No other node moves, no other field of the node changes,
    the view stays, and the node stays grabbed. *)
Theorem drag_follows_cursor (d : dom) (down move : mouse_event)
  (st : renderer) (i : nat) :
  getNodeAtPosition st (clientX down - rect_left d)%R
    (clientY down - rect_top d)%R = Some i ->
  let st' := handleMouseMove d move (handleMouseDown d down st) in
  (exists nd,
     nth_error (nodesData st) i = Some nd
     /\ nth_error (nodesData st') i
        = Some (set_xy
                  ((clientX move - rect_left d - offsetX st) / scale st
                   - ((clientX down - rect_left d - offsetX st) / scale st
                      - Node.x nd))%R
                  ((clientY move - rect_top d - offsetY st) / scale st
                   - ((clientY down - rect_top d - offsetY st) / scale st
                      - Node.y nd))%R
                  nd))
  /\ (forall j, j <> i ->
                nth_error (nodesData st') j = nth_error (nodesData st) j)
  /\ (scale st', offsetX st', offsetY st') = (scale st, offsetX st, offsetY st)
  /\ dragNode st' = Some i.
Proof.
  intros Hhit st'.
  destruct (getNodeAtPosition_node _ _ _ _ Hhit) as (nd & Hnd & _).
  unfold st', handleMouseDown. rewrite Hhit, Hnd.
  unfold handleMouseMove. simpl. split; [|split; [|split; reflexivity]].
  - exists nd. split; [reflexivity|].
    rewrite nth_error_move_node, Nat.eqb_refl, Hnd. reflexivity.
  - intros j Hj. rewrite nth_error_move_node.
    destruct (Nat.eqb j i) eqn:E; [|reflexivity].
    apply Nat.eqb_eq in E. contradiction.
Qed.

Lemma covered_gene_grabbed :
  getNodeAtPosition covered_view (422 - rect_left sample_dom)%R
    (0 - rect_top sample_dom)%R = Some 2.
Proof.
  unfold getNodeAtPosition. simpl List.length. simpl scan_down.
  assert (Hgene : hit covered_view (422 - 0) (0 - 0)
                    (mk_node "Gene1" "Gene1" gene 3 "#4daf4a" 0 0.9
                       "TissueA" 422 0 "") = true).
  { unfold hit. simpl. apply Rleb_true. apply sqrt_le_of_square; lra. }
  now rewrite Hgene.
Qed.

Definition press_gene : mouse_event := mk_event 422 0 0.
Definition move_away : mouse_event := mk_event 432 5 0.

(** Grabbing the gene at (422, 0) and moving the mouse by (10, 5). *)
Lemma drag_follows_cursor_witness :
  dragNode (handleMouseMove sample_dom move_away
              (handleMouseDown sample_dom press_gene covered_view))
  = Some 2.
Proof.
  destruct (drag_follows_cursor sample_dom press_gene move_away
              covered_view 2) as (_ & _ & _ & Hd).
  - exact covered_gene_grabbed.
  - exact Hd.
Defined.

(** X10. Releasing the button ends both dragging and panning: until the next
    press, mouse moves change nothing. *)
Theorem release_ends_interaction (d : dom) (moves : list mouse_event)
  (st : renderer) :
  let idle := handleMouseUp st in
  dragNode idle = None
  /\ isDraggingCanvas idle = false
  /\ nodesData idle = nodesData st
  /\ (scale idle, offsetX idle, offsetY idle)
     = (scale st, offsetX st, offsetY st)
  /\ fold_left (fun s ev => handleMouseMove d ev s) moves idle = idle.
Proof.
  intros idle. repeat split.
  induction moves as [|ev moves IH]; [reflexivity|]. simpl. exact IH.
Qed.

(** * The generator as a whole *)

(** ** Filtering keeps labels and order *)

Lemma filter_from_spec i df r :
  In r (filter_from i df) <->
  i <= idx r
  /\ nth_error df (idx r - i)
     = Some (mk_raw (Tumor r) (Gene_Symbol r) (Some (PCC r)))
  /\ (threshold <= PCC r)%Q.
Proof.
  revert i. induction df as [|a df IH]; intros i.
  - simpl. split; [tauto|]. intros (_ & E & _). now destruct (idx r - i).
  - assert (Hrest : In r (filter_from (S i) df) <->
                    i < idx r
                    /\ nth_error (a :: df) (idx r - i)
                       = Some (mk_raw (Tumor r) (Gene_Symbol r)
                                 (Some (PCC r)))
                    /\ (threshold <= PCC r)%Q).
    { rewrite IH. split.
      - intros (Hle & Hnth & Hp). split; [lia|]. split; [|exact Hp].
        replace (idx r - i) with (S (idx r - S i)) by lia. exact Hnth.
      - intros (Hlt & Hnth & Hp). split; [lia|]. split; [|exact Hp].
        replace (idx r - i) with (S (idx r - S i)) in Hnth by lia.
        exact Hnth. }
    assert (Hhead : forall p,
               raw_PCC a = Some p ->
               (i = idx r
                /\ nth_error (a :: df) (idx r - i)
                   = Some (mk_raw (Tumor r) (Gene_Symbol r) (Some (PCC r))))
               <-> mk_row i (raw_Tumor a) (raw_Gene_Symbol a) p = r).
    { intros p Hp. split.
      - intros [-> E]. rewrite Nat.sub_diag in E. simpl in E.
        injection E as ->. simpl in Hp. injection Hp as <-. now destruct r.
      - intros <-. simpl. rewrite Nat.sub_diag. simpl.
        split; [reflexivity|]. destruct a. simpl in *. now subst. }
    simpl filter_from. destruct (raw_PCC a) as [p|] eqn:Ep.
    + specialize (Hhead p eq_refl).
      destruct (Qle_bool threshold p) eqn:Eq.
      * simpl. rewrite Hrest, <- Hhead. apply Qle_bool_iff in Eq. split.
        -- intros [[-> E]|(Hlt & E & Hp)].
           ++ split; [lia|]. split; [exact E|].
              rewrite Nat.sub_diag in E. simpl in E. injection E as ->.
              simpl in Ep. injection Ep as <-. exact Eq.
           ++ split; [lia|tauto].
        -- intros (Hle & E & Hp).
           destruct (Nat.eq_dec i (idx r)) as [Ei|Hne]; [left|right]; auto.
           split; [lia|tauto].
      * rewrite Hrest. split; [intros (Hlt & E & Hp); split; [lia|tauto]|].
        intros (Hle & E & Hp).
        destruct (Nat.eq_dec i (idx r)) as [Ei|Hne]; [|split; [lia|tauto]].
        exfalso. rewrite <- Ei, Nat.sub_diag in E. simpl in E.
        injection E as ->. simpl in Ep. injection Ep as <-.
        apply Qle_bool_iff in Hp. congruence.
    + rewrite Hrest. split; [intros (Hlt & E & Hp); split; [lia|tauto]|].
      intros (Hle & E & Hp).
      destruct (Nat.eq_dec i (idx r)) as [Ei|Hne]; [|split; [lia|tauto]].
      exfalso. rewrite <- Ei, Nat.sub_diag in E. simpl in E.
      injection E as ->. simpl in Ep. discriminate.
Qed.

Lemma filter_from_increasing i df :
  StronglySorted (fun a b => idx a < idx b) (filter_from i df).
Proof.
  revert i. induction df as [|a df IH]; intros i; simpl; [constructor|].
  destruct (raw_PCC a) as [p|]; [|apply IH].
  destruct (Qle_bool threshold p); [|apply IH].
  constructor; [apply IH|]. apply Forall_forall. intros r Hr.
  apply filter_from_spec in Hr. simpl. lia.
Qed.

(** X11. The filtered frame holds exactly the rows of the table whose
    correlation is a number at least 0.8, each under the label it has in
    the table (its position, from 0), in the order of the table. *)
Theorem filter_keeps_labels (df : list raw_row) :
  (forall r,
     In r (filter_df df) <->
     nth_error df (idx r)
     = Some (mk_raw (Tumor r) (Gene_Symbol r) (Some (PCC r)))
     /\ (0.8 <= PCC r)%Q)
  /\ StronglySorted (fun a b => idx a < idx b) (filter_df df).
Proof.
  split; [|apply filter_from_increasing].
  intros r. unfold filter_df. rewrite filter_from_spec, Nat.sub_0_r.
  split; [tauto|]. intros [E Hp]. split; [lia|]. split; assumption.
Qed.

(** ** Entries of [nodes_data] *)

Lemma node_entry_tissue c colors st n nd :
  In nd (node_entry c colors st n) -> Node.node_type nd = tissue ->
  n <> c
  /\ a_node_type (get_attrs n (G st)) = Some tissue
  /\ nd = mk_node n n tissue 25%R (get_or n colors "#999999")
            (from_option (a_gene_count (get_attrs n (G st))) 0) 0%R ""
            (fst (position_of n (fixed_positions st)))
            (snd (position_of n (fixed_positions st)))
            (n ++ " (n="
               ++ str_of_nat
                    (from_option (a_gene_count (get_attrs n (G st))) 0)
               ++ ")").
Proof.
  unfold node_entry. destruct (String.eqb n c) eqn:E; [intros []|].
  apply String.eqb_neq in E.
  destruct (a_node_type (get_attrs n (G st))) as [[]|]; simpl.
  - intros [].
  - intros [<-|[]] _. repeat split. exact E.
  - intros [<-|[]]; simpl; discriminate.
  - intros [].
Qed.

Lemma node_entry_gene_full c colors st n nd :
  In nd (node_entry c colors st n) -> Node.node_type nd = gene ->
  n <> c
  /\ a_node_type (get_attrs n (G st)) = Some gene
  /\ Node.id nd = n
  /\ Node.size nd = 3%R
  /\ Node.color nd
     = match a_tissue (get_attrs n (G st)) with
       | Some t => get_or t colors "#999999"
       | None => "#999999"
       end
  /\ (Node.x nd, Node.y nd) = position_of n (fixed_positions st).
Proof.
  unfold node_entry. destruct (String.eqb n c) eqn:E; [intros []|].
  apply String.eqb_neq in E.
  destruct (a_node_type (get_attrs n (G st))) as [[]|]; simpl.
  - intros [].
  - intros [<-|[]]; simpl; discriminate.
  - intros [<-|[]] _. simpl. repeat split; try exact E.
    now destruct (position_of n (fixed_positions st)).
  - intros [].
Qed.

Lemma node_entry_not_central c colors st n nd :
  In nd (node_entry c colors st n) -> Node.node_type nd <> central.
Proof.
  unfold node_entry. destruct (String.eqb n c); [intros []|].
  destruct (a_node_type (get_attrs n (G st))) as [[]|]; simpl.
  - intros [].
  - intros [<-|[]]; simpl; discriminate.
  - intros [<-|[]]; simpl; discriminate.
  - intros [].
Qed.

(** X12. The page has exactly one central node; it comes first in the array,
    bears the identifier given to the generator, has size 50 and is
    red. *)
Theorem one_central_node `{SortValues} (standard_normal : nat -> R)
  (df : list raw_row) (central_node : string) :
  let p := make_page standard_normal central_node (filter_df df) in
  count_type central (page_nodes p) = 1
  /\ exists c rest,
       page_nodes p = c :: rest
       /\ Node.node_type c = central
       /\ Node.id c = central_node
       /\ Node.size c = 50%R
       /\ Node.color c = "red"
       /\ Node.label c = (central_node ++ " (central)")%string
       /\ forall nd, In nd rest -> Node.node_type nd <> central.
Proof.
  intros p. unfold p, make_page. simpl page_nodes. unfold nodes_data.
  set (rest := flat_map _ _).
  assert (Hrest : forall nd, In nd rest -> Node.node_type nd <> central).
  { intros nd Hin. apply in_flat_map in Hin as (n & _ & Hin).
    eapply node_entry_not_central. exact Hin. }
  split.
  - unfold count_type. simpl. f_equal.
    rewrite filter_none; [reflexivity|]. intros nd Hin.
    specialize (Hrest nd Hin). unfold is_type.
    destruct (Node.node_type nd); simpl; congruence.
  - eexists. exists rest. repeat split. exact Hrest.
Qed.

(** ** Tissue nodes: count and colour *)

Lemma counter_rows_of fdf t :
  Counter (map Tumor fdf) t = List.length (rows_of t fdf).
Proof.
  unfold Counter, rows_of. induction fdf as [|r fdf IH]; simpl;
    [reflexivity|].
  rewrite (String.eqb_sym t (Tumor r)).
  destruct (String.eqb (Tumor r) t); simpl; now rewrite IH.
Qed.

Definition paint (d : Dict.t string) (it : nat * string) : Dict.t string :=
  Dict.set (snd it) (nth (fst it mod List.length color_list) color_list "") d.

Lemma paint_other l k d t :
  ~ In t l ->
  Dict.get t (fold_left paint (enumerate_from k l) d) = Dict.get t d.
Proof.
  revert k d. induction l as [|a l IH]; intros k d Hnot; simpl;
    [reflexivity|].
  rewrite IH by (intros Hin; apply Hnot; now right).
  apply dict_get_set_neq. simpl. intros ->. apply Hnot. now left.
Qed.

Lemma paint_rank l k d i t :
  NoDup l -> nth_error l i = Some t ->
  Dict.get t (fold_left paint (enumerate_from k l) d)
  = Some (nth ((k + i) mod 22) color_list "").
Proof.
  intros Hnd. revert k d i.
  induction Hnd as [|a l Hnot Hnd IH]; intros k d i Hnth.
  - now destruct i.
  - destruct i as [|i]; simpl in Hnth.
    + injection Hnth as ->. simpl fold_left. rewrite paint_other by exact Hnot.
      unfold paint. cbn [fst snd]. rewrite dict_get_set_eq.
      now rewrite Nat.add_0_r.
    + simpl fold_left. rewrite (IH (S k) _ i Hnth).
      replace (S k + i) with (k + S i) by lia. reflexivity.
Qed.

Lemma tissue_colors_lookup l :
  NoDup l ->
  forall i t, nth_error l i = Some t ->
  Dict.get t (tissue_colors l)
  = Some (nth (i mod 22) color_list "").
Proof.
  intros Hnd i t Hnth.
  exact (paint_rank l 0 [] i t Hnd Hnth).
Qed.

Section TissueAttributes.

Variable standard_normal : nat -> R.
Variable central_node : string.
Context `{SortValues}.
Variable fdf : list row.

(** A tissue node of the graph is one of the tissue labels and counts
    the filtered rows of that label. *)
Definition tissue_counted (g : Graph) : Prop :=
  forall n a,
    Dict.get n (_node g) = Some a -> a_node_type a = Some tissue ->
    In n (unique (map Tumor fdf))
    /\ a_gene_count a = Some (Counter (map Tumor fdf) n).

Lemma tissues_placed_counted :
  tissue_counted (G (tissues_placed central_node fdf)).
Proof.
  unfold tissues_placed. apply fold_left_invariant.
  - intros st [i t] Hin Hst n a. unfold place_tissue. simpl G. intros Hget Hty.
    apply node_add_edge in Hget as [Hget| ->]; [|discriminate].
    apply node_add_node in Hget as [[_ Hget]|[-> ->]].
    + now apply (Hst n).
    + split.
      * apply enumerate_from_In in Hin as [_ Hin].
        eapply nth_error_In. exact Hin.
      * now destruct (Dict.get t (_node (G st))).
  - intros n a. unfold initial_layout, add_node. simpl.
    destruct (String.eqb n central_node); [|discriminate].
    intros [= <-]. discriminate.
Qed.

Lemma build_layout_counted :
  tissue_counted (G (build_layout standard_normal central_node fdf)).
Proof.
  unfold build_layout. apply fold_left_invariant;
    [|apply tissues_placed_counted].
  intros st t _ Hst. unfold place_genes_of.
  apply fold_left_invariant; [|exact Hst].
  intros st' r _ Hst' n a. unfold place_gene. simpl G. intros Hget Hty.
  apply node_add_edge in Hget as [Hget| ->]; [|discriminate].
  destruct (has_node (Gene_Symbol r) (G st')) eqn:E; simpl in Hget.
  - now apply (Hst' n).
  - apply node_add_node in Hget as [[_ Hget]|[-> ->]].
    + now apply (Hst' n).
    + rewrite (has_node_false _ _ E) in Hty. discriminate.
Qed.

End TissueAttributes.

(** X13. For a table whose cells of [Tumor] and [Gene Symbol] all hold
    text: every tissue node of the page is one of the tissue labels of
    the filtered table; its [gene_count], shown in its label, is the
    number of filtered rows of that tissue, which the cap of 150 does
    not limit; its colour is the entry of the palette at its rank modulo
    22. *)
Theorem tissue_node_count_and_colour `{SortValues}
  (standard_normal : nat -> R) (df : list raw_row) (central_node : string)
  (nd : node) :
  let fdf := filter_df df in
  let p := make_page standard_normal central_node fdf in
  In nd (page_nodes p) -> Node.node_type nd = tissue ->
  exists i,
    nth_error (unique (map Tumor fdf)) i = Some (Node.id nd)
    /\ Node.id nd <> central_node
    /\ Node.gene_count nd = List.length (rows_of (Node.id nd) fdf)
    /\ Node.label nd
       = (Node.id nd ++ " (n=" ++ str_of_nat (Node.gene_count nd) ++ ")")%string
    /\ Node.color nd = nth (i mod 22) color_list ""
    /\ Node.size nd = 25%R.
Proof.
  intros fdf p Hin Hty. unfold p, make_page in Hin. simpl page_nodes in Hin.
  unfold nodes_data in Hin. destruct Hin as [<-|Hin]; [discriminate|].
  apply in_flat_map in Hin as (n & Hn & Hin).
  destruct (node_entry_tissue _ _ _ _ _ Hin Hty) as (Hne & Ha & ->).
  destruct (build_layout_counted standard_normal central_node fdf n
              (get_attrs n (G (build_layout standard_normal central_node fdf)))
              (get_attrs_get _ _ Hn) Ha) as [Hin_t Hcount].
  destruct (In_nth_error _ _ Hin_t) as [i Hi].
  exists i. simpl. rewrite Hcount. simpl.
  split; [exact Hi|]. split; [exact Hne|].
  split; [apply counter_rows_of|]. split; [reflexivity|].
  split; [|reflexivity].
  unfold get_or. now rewrite (tissue_colors_lookup _ (unique_NoDup _) i n Hi).
Qed.

(** The page of the end-to-end scenario has the tissue node TissueA. *)
Lemma tissue_node_count_and_colour_witness :
  exists i,
    nth_error (unique (map Tumor (filter_df three_rows))) i = Some "TissueA"
    /\ Node.gene_count (nth 1 (page_nodes three_rows_page) far_node)
       = List.length (rows_of "TissueA" (filter_df three_rows)).
Proof.
  destruct (@tissue_node_count_and_colour keeping_ties no_noise three_rows
              "GCH1" (nth 1 (page_nodes three_rows_page) far_node))
    as (i & Hi & _ & Hc & _).
  - right. left. reflexivity.
  - reflexivity.
  - exists i. split; [exact Hi|exact Hc].
Defined.

(** ** Colours *)

Lemma page_tissue_colour `{SortValues} sn c fdf nd :
  In nd (page_nodes (make_page sn c fdf)) -> Node.node_type nd = tissue ->
  forall i, nth_error (unique (map Tumor fdf)) i = Some (Node.id nd) ->
  Node.color nd = nth (i mod 22) color_list "".
Proof.
  intros Hin Hty i Hi. unfold make_page in Hin. simpl page_nodes in Hin.
  unfold nodes_data in Hin. destruct Hin as [<-|Hin]; [discriminate|].
  apply in_flat_map in Hin as (n & Hn & Hin).
  destruct (node_entry_tissue _ _ _ _ _ Hin Hty) as (_ & _ & ->).
  simpl in *. unfold get_or.
  now rewrite (tissue_colors_lookup _ (unique_NoDup _) i n Hi).
Qed.

Lemma page_gene_colour `{SortValues} sn c fdf nd :
  In nd (page_nodes (make_page sn c fdf)) -> Node.node_type nd = gene ->
  exists i,
    nth_error (unique (map Tumor fdf)) i = Some (Node.tissue_of nd)
    /\ Node.color nd = nth (i mod 22) color_list "".
Proof.
  intros Hin Hty. unfold make_page in Hin. simpl page_nodes in Hin.
  pose proof (nodes_data_gene _ _ _ _ Hin Hty) as (a & Hget & Ha & _ & Ht).
  destruct (build_layout_from_selection sn c fdf _ _ Hget Ha)
    as (t & r & Hin_t & _ & _ & _ & Hat).
  unfold nodes_data in Hin. destruct Hin as [<-|Hin]; [discriminate|].
  apply in_flat_map in Hin as (n & Hn & Hin).
  destruct (node_entry_gene_full _ _ _ _ _ Hin Hty)
    as (_ & _ & Hid & _ & Hcol & _).
  rewrite Hid in Hget. unfold get_attrs in Hcol. rewrite Hget, Hat in Hcol.
  rewrite Hat in Ht. simpl in Ht.
  destruct (In_nth_error _ _ Hin_t) as [i Hi]. exists i.
  rewrite Ht. split; [exact Hi|]. rewrite Hcol. unfold get_or.
  now rewrite (tissue_colors_lookup _ (unique_NoDup _) i t Hi).
Qed.

(** X14. A gene node has the colour of the tissue node whose name it carries. *)
Theorem gene_inherits_tissue_colour `{SortValues}
  (standard_normal : nat -> R) (df : list raw_row) (central_node : string)
  (g t : node) :
  let p := make_page standard_normal central_node (filter_df df) in
  In g (page_nodes p) -> Node.node_type g = gene ->
  In t (page_nodes p) -> Node.node_type t = tissue ->
  Node.id t = Node.tissue_of g ->
  Node.color g = Node.color t.
Proof.
  intros p Hg Hgt Ht Htt Hname.
  destruct (page_gene_colour _ _ _ _ Hg Hgt) as (i & Hi & ->).
  rewrite <- Hname in Hi.
  now rewrite (page_tissue_colour _ _ _ _ Ht Htt i Hi).
Qed.

(** Gene1 and TissueA in the page of the end-to-end scenario. *)
Lemma gene_inherits_tissue_colour_witness :
  Node.color (nth 2 (page_nodes three_rows_page) far_node)
  = Node.color (nth 1 (page_nodes three_rows_page) far_node).
Proof.
  apply (@gene_inherits_tissue_colour keeping_ties no_noise three_rows "GCH1").
  - right. right. left. reflexivity.
  - reflexivity.
  - right. left. reflexivity.
  - reflexivity.
  - reflexivity.
Defined.

(** X15. Colours do not tell tissues apart in general: two tissue nodes have
    the same colour when their ranks agree modulo 22, and also when
    their ranks modulo 22 are 7 and 16, the palette holding the same
    entry at both places. *)
Theorem palette_repeats `{SortValues} (standard_normal : nat -> R)
  (df : list raw_row) (central_node : string) (a b : node) (i j : nat) :
  let fdf := filter_df df in
  let p := make_page standard_normal central_node fdf in
  In a (page_nodes p) -> Node.node_type a = tissue ->
  In b (page_nodes p) -> Node.node_type b = tissue ->
  nth_error (unique (map Tumor fdf)) i = Some (Node.id a) ->
  nth_error (unique (map Tumor fdf)) j = Some (Node.id b) ->
  i mod 22 = j mod 22 \/ (i mod 22 = 7 /\ j mod 22 = 16) ->
  Node.color a = Node.color b.
Proof.
  intros fdf p Ha Hat Hb Hbt Hi Hj Hmod.
  rewrite (page_tissue_colour _ _ _ _ Ha Hat i Hi).
  rewrite (page_tissue_colour _ _ _ _ Hb Hbt j Hj).
  destruct Hmod as [->|[-> ->]]; reflexivity.
Qed.

Definition seventeen_rows : list raw_row :=
  map (fun t => mk_raw t "Gene1" (Some 0.9%Q))
    [ "T00"; "T01"; "T02"; "T03"; "T04"; "T05"; "T06"; "T07"; "T08";
      "T09"; "T10"; "T11"; "T12"; "T13"; "T14"; "T15"; "T16" ].

(** Seventeen tissues: the tissue nodes of rank 7 and of rank 16 have
    the same colour. *)
Lemma palette_repeats_witness :
  exists a b,
    Node.id a = "T07" /\ Node.id b = "T16" /\ Node.color a = Node.color b.
Proof.
  set (fdf := filter_df seventeen_rows).
  assert (H7 : In "T07" (unique (map Tumor fdf)))
    by (repeat (try (left; reflexivity); right)).
  assert (H16 : In "T16" (unique (map Tumor fdf)))
    by (repeat (try (left; reflexivity); right)).
  destruct (nodes_data_tissue "GCH1" (tissue_colors (unique (map Tumor fdf)))
              (@build_layout no_noise "GCH1" keeping_ties fdf) "T07"
              (@build_layout_typed no_noise "GCH1" keeping_ties fdf "T07" H7))
    as (a & Ha & Hat & Hai); [discriminate|].
  destruct (nodes_data_tissue "GCH1" (tissue_colors (unique (map Tumor fdf)))
              (@build_layout no_noise "GCH1" keeping_ties fdf) "T16"
              (@build_layout_typed no_noise "GCH1" keeping_ties fdf "T16" H16))
    as (b & Hb & Hbt & Hbi); [discriminate|].
  exists a, b. split; [exact Hai|]. split; [exact Hbi|].
  apply (@palette_repeats keeping_ties no_noise seventeen_rows "GCH1"
           a b 7 16).
  - exact Ha.
  - exact Hat.
  - exact Hb.
  - exact Hbt.
  - rewrite Hai. reflexivity.
  - rewrite Hbi. reflexivity.
  - right. split; reflexivity.
Defined.

(** ** The rows in the order in which the gene loop handles them *)

(** A row to place: its tissue, the size of the tissue's selection, and
    the row. *)
Definition processed `{SortValues} (fdf : list row)
  : list (string * nat * row) :=
  flat_map
    (fun t =>
       map (fun r => (t, List.length (select_genes fdf t), r))
           (select_genes fdf t))
    (unique (map Tumor fdf)).

Definition place_row (sn : nat -> R) (st : layout) (it : string * nat * row)
  : layout :=
  place_gene sn (fst (fst it)) (snd (fst it)) st (snd it).

Lemma fold_left_map {A B C} (f : A -> C -> A) (g : B -> C) l a :
  fold_left f (map g l) a = fold_left (fun a b => f a (g b)) l a.
Proof.
  revert a. induction l as [|b l IH]; intros a; simpl; [reflexivity|].
  apply IH.
Qed.

Lemma build_layout_processed `{SortValues} sn c fdf :
  build_layout sn c fdf
  = fold_left (place_row sn) (processed fdf) (tissues_placed c fdf).
Proof.
  unfold build_layout, processed.
  generalize (tissues_placed c fdf).
  induction (unique (map Tumor fdf)) as [|t ts IH]; intros st; simpl;
    [reflexivity|].
  rewrite fold_left_app, IH. f_equal.
  unfold place_genes_of. rewrite fold_left_map. reflexivity.
Qed.

Lemma processed_In `{SortValues} fdf t n r :
  In (t, n, r) (processed fdf) <->
  In t (unique (map Tumor fdf)) /\ In r (select_genes fdf t)
  /\ n = List.length (select_genes fdf t).
Proof.
  unfold processed. rewrite in_flat_map. split.
  - intros (t' & Ht & Hin). apply in_map_iff in Hin as (r' & E & Hr).
    injection E as -> <- ->. tauto.
  - intros (Ht & Hr & ->). exists t. split; [exact Ht|].
    apply in_map_iff. now exists r.
Qed.

Lemma place_rows_drawn sn l st :
  drawn (fold_left (place_row sn) l st) = drawn st + 2 * List.length l.
Proof.
  revert st. induction l as [|it l IH]; intros st; simpl; [lia|].
  rewrite IH. unfold place_row, place_gene. simpl. lia.
Qed.

Lemma place_rows_position_other sn l st s :
  (forall it, In it l -> Gene_Symbol (snd it) <> s) ->
  Dict.get s (fixed_positions (fold_left (place_row sn) l st))
  = Dict.get s (fixed_positions st).
Proof.
  revert st. induction l as [|it l IH]; intros st Hno; simpl; [reflexivity|].
  rewrite IH by (intros it' Hin; apply Hno; now right).
  unfold place_row, place_gene. simpl fixed_positions.
  apply dict_get_set_neq. apply Hno. now left.
Qed.

Lemma tissues_placed_drawn c fdf : drawn (tissues_placed c fdf) = 0.
Proof.
  unfold tissues_placed.
  apply (fold_left_invariant (fun st => drawn st = 0)); [|reflexivity].
  now intros st [i t] _ Hst.
Qed.

Lemma tissues_placed_position c fdf :
  (forall i t, nth_error (unique (map Tumor fdf)) i = Some t ->
               Dict.get t (fixed_positions (tissues_placed c fdf))
               = Some (tissue_anchor i))
  /\ (~ In c (unique (map Tumor fdf)) ->
      Dict.get c (fixed_positions (tissues_placed c fdf)) = Some (0%R, 0%R)).
Proof.
  unfold tissues_placed, enumerate. split.
  - intros i t Hnth.
    now rewrite (place_tissues_anchor _ _ _ 0 _ i t (unique_NoDup _) Hnth).
  - intros Hnot. rewrite place_tissues_other by exact Hnot.
    simpl. now rewrite String.eqb_refl.
Qed.

(** ** Where the nodes of the page are put *)

Lemma page_node_position c colors st nd :
  In nd (nodes_data c colors st) ->
  (Node.x nd, Node.y nd) = position_of (Node.id nd) (fixed_positions st).
Proof.
  unfold nodes_data. intros [<-|Hin].
  - simpl. now destruct (position_of c (fixed_positions st)).
  - apply in_flat_map in Hin as (n & _ & Hin). unfold node_entry in Hin.
    destruct (String.eqb n c); [destruct Hin|].
    destruct (a_node_type (get_attrs n (G st))) as [[]|]; simpl in Hin;
      try tauto; destruct Hin as [<-|[]]; simpl;
      now destruct (position_of n (fixed_positions st)).
Qed.

(** X16. The central node of the page sits at (0, 0), provided its identifier
    is neither a tissue label nor the gene symbol of a selected row. *)
Theorem central_node_at_origin `{SortValues} (standard_normal : nat -> R)
  (df : list raw_row) (central_node : string) :
  let fdf := filter_df df in
  let p := make_page standard_normal central_node fdf in
  ~ In central_node (unique (map Tumor fdf)) ->
  (forall it, In it (processed fdf) -> Gene_Symbol (snd it) <> central_node) ->
  forall nd, In nd (page_nodes p) -> Node.id nd = central_node ->
             Node.node_type nd = central
             /\ (Node.x nd, Node.y nd) = (0%R, 0%R).
Proof.
  intros fdf p Hnot Hsel nd Hin Hid. split.
  - unfold p, make_page in Hin. simpl page_nodes in Hin.
    unfold nodes_data in Hin. destruct Hin as [<-|Hin]; [reflexivity|].
    apply in_flat_map in Hin as (n & _ & Hin). unfold node_entry in Hin.
    destruct (String.eqb n central_node) eqn:E; [destruct Hin|].
    apply String.eqb_neq in E.
    destruct (a_node_type (get_attrs n (G _))) as [[]|]; simpl in Hin;
      try tauto; destruct Hin as [<-|[]]; simpl in Hid; congruence.
  - unfold p, make_page in Hin. simpl page_nodes in Hin.
    rewrite (page_node_position _ _ _ _ Hin), Hid.
    unfold position_of. rewrite build_layout_processed.
    rewrite place_rows_position_other by exact Hsel.
    now rewrite (proj2 (tissues_placed_position central_node fdf) Hnot).
Qed.

(** The central node of the end-to-end scenario. *)
Lemma central_node_at_origin_witness :
  (Node.x (nth 0 (page_nodes three_rows_page) far_node),
   Node.y (nth 0 (page_nodes three_rows_page) far_node)) = (0%R, 0%R).
Proof.
  apply (@central_node_at_origin keeping_ties no_noise three_rows "GCH1").
  - simpl. intros [E|[]]. discriminate.
  - intros it [<-|[<-|[]]]; simpl; discriminate.
  - left. reflexivity.
  - reflexivity.
Defined.

(** X17. A tissue node of the page carries the coordinates that the
    layout computed for the anchor of its rank,
    [(400 * cos (i * phi), 400 * sin (i * phi))], unchanged, provided its
    label is not the gene symbol of a selected row. *)
Theorem tissue_node_at_anchor `{SortValues} (standard_normal : nat -> R)
  (df : list raw_row) (central_node : string) (nd : node) (i : nat) :
  let fdf := filter_df df in
  let p := make_page standard_normal central_node fdf in
  In nd (page_nodes p) -> Node.node_type nd = tissue ->
  nth_error (unique (map Tumor fdf)) i = Some (Node.id nd) ->
  (forall it, In it (processed fdf) -> Gene_Symbol (snd it) <> Node.id nd) ->
  (Node.x nd, Node.y nd) = tissue_anchor i.
Proof.
  intros fdf p Hin Hty Hi Hsel.
  unfold p, make_page in Hin. simpl page_nodes in Hin.
  rewrite (page_node_position _ _ _ _ Hin).
  unfold position_of. rewrite build_layout_processed.
  rewrite place_rows_position_other by exact Hsel.
  now rewrite (proj1 (tissues_placed_position central_node fdf) i _ Hi).
Qed.

(** TissueA in the page of the end-to-end scenario. *)
Lemma tissue_node_at_anchor_witness :
  (Node.x (nth 1 (page_nodes three_rows_page) far_node),
   Node.y (nth 1 (page_nodes three_rows_page) far_node)) = tissue_anchor 0.
Proof.
  apply (@tissue_node_at_anchor keeping_ties no_noise three_rows "GCH1").
  - right. left. reflexivity.
  - reflexivity.
  - reflexivity.
  - intros it [<-|[<-|[]]]; simpl; discriminate.
Defined.

(** ** A gene symbol met in several rows *)

Lemma has_node_add_node n m kw g :
  has_node n (add_node m kw g) = String.eqb n m || has_node n g.
Proof.
  unfold add_node, has_node.
  destruct (Dict.get m (_node g)) eqn:E; simpl; apply dict_mem_set.
Qed.

Lemma has_node_add_edge n u v w g :
  has_node n (add_edge u v w g)
  = String.eqb n v || (String.eqb n u || has_node n g).
Proof.
  change (has_node n (add_edge u v w g))
    with (has_node n (ensure_node v (ensure_node u g))).
  now rewrite !has_node_ensure.
Qed.

Lemma eqb_false_of_neq a b : a <> b -> String.eqb b a = false.
Proof. intros Hne. apply String.eqb_neq. congruence. Qed.

Lemma place_row_absent sn st it s :
  Gene_Symbol (snd it) <> s -> fst (fst it) <> s ->
  has_node s (G st) = false -> has_node s (G (place_row sn st it)) = false.
Proof.
  intros Hg Ht Hs. unfold place_row, place_gene. simpl G.
  rewrite has_node_add_edge, (eqb_false_of_neq _ _ Hg), (eqb_false_of_neq _ _ Ht).
  simpl. destruct (negb (has_node (Gene_Symbol (snd it)) (G st)));
    [|exact Hs].
  now rewrite has_node_add_node, (eqb_false_of_neq _ _ Hg).
Qed.

Lemma place_rows_absent sn l st s :
  (forall it, In it l -> Gene_Symbol (snd it) <> s /\ fst (fst it) <> s) ->
  has_node s (G st) = false ->
  has_node s (G (fold_left (place_row sn) l st)) = false.
Proof.
  revert st. induction l as [|it l IH]; intros st Hno Hs; simpl; [exact Hs|].
  apply IH; [intros it' Hin; apply Hno; now right|].
  apply place_row_absent; try exact Hs; apply Hno; now left.
Qed.

Lemma tissues_placed_absent c fdf s :
  s <> c -> ~ In s (unique (map Tumor fdf)) ->
  has_node s (G (tissues_placed c fdf)) = false.
Proof.
  intros Hc Hnot. unfold tissues_placed.
  apply (fold_left_invariant (fun st => has_node s (G st) = false)).
  - intros st [i t] Hin Hst. unfold place_tissue. simpl G.
    apply enumerate_from_In in Hin.
    destruct Hin as [_ Hin]. apply nth_error_In in Hin.
    assert (Hne : t <> s) by (intros ->; now apply Hnot).
    rewrite has_node_add_edge, has_node_add_node.
    rewrite (eqb_false_of_neq _ _ Hne).
    assert (Hc' : c <> s) by congruence.
    now rewrite (eqb_false_of_neq _ _ Hc').
  - unfold initial_layout. simpl G. rewrite has_node_add_node.
    simpl. assert (Hc' : c <> s) by congruence.
    now rewrite (eqb_false_of_neq _ _ Hc').
Qed.

Lemma place_row_keeps_attrs sn st it s a :
  Dict.get s (_node (G st)) = Some a ->
  Dict.get s (_node (G (place_row sn st it))) = Some a.
Proof.
  intros Hget. unfold place_row, place_gene. simpl G.
  apply node_kept_add_edge.
  destruct (has_node (Gene_Symbol (snd it)) (G st)) eqn:E; simpl;
    [exact Hget|].
  apply has_node_false in E. unfold add_node. rewrite E. simpl.
  rewrite dict_get_set_neq; [exact Hget|]. intros E'. rewrite E' in E.
  congruence.
Qed.

Lemma place_rows_keep_attrs sn l st s a :
  Dict.get s (_node (G st)) = Some a ->
  Dict.get s (_node (G (fold_left (place_row sn) l st))) = Some a.
Proof.
  revert st. induction l as [|it l IH]; intros st Hget; simpl; [exact Hget|].
  now apply IH, place_row_keeps_attrs.
Qed.

Lemma place_row_new_attrs sn st t n r :
  has_node (Gene_Symbol r) (G st) = false ->
  Dict.get (Gene_Symbol r) (_node (G (place_row sn st (t, n, r))))
  = Some (mk_attrs (Some gene) None (Some (PCC r)) (Some t)).
Proof.
  intros Hs. unfold place_row, place_gene. simpl fst. simpl snd. simpl G.
  apply node_kept_add_edge. rewrite Hs. simpl.
  apply has_node_false in Hs. unfold add_node. rewrite Hs. simpl.
  apply dict_get_set_eq.
Qed.

Definition gene1_twice : list raw_row :=
  [ mk_raw "TissueA" "Gene1" (Some 0.9%Q);
    mk_raw "TissueB" "Gene1" (Some 0.95%Q) ].

Definition gene1_twice_page : page :=
  @make_page no_noise keeping_ties "GCH1" (filter_df gene1_twice).

(** X18. A gene node carries the tissue and the correlation of the first
    selected row, in the order of the gene loop, that has its symbol. *)
Theorem gene_attributes_from_first_row `{SortValues}
  (standard_normal : nat -> R) (df : list raw_row) (central_node : string)
  (l1 l2 : list (string * nat * row)) (t : string) (n : nat) (r : row) :
  let fdf := filter_df df in
  let p := make_page standard_normal central_node fdf in
  processed fdf = l1 ++ (t, n, r) :: l2 ->
  (forall it, In it l1 -> Gene_Symbol (snd it) <> Gene_Symbol r) ->
  Gene_Symbol r <> central_node ->
  ~ In (Gene_Symbol r) (unique (map Tumor fdf)) ->
  exists nd, In nd (page_nodes p)
             /\ Node.id nd = Gene_Symbol r
             /\ Node.node_type nd = gene
             /\ Node.tissue_of nd = t
             /\ Node.pcc nd = Q2R (PCC r).
Proof.
  intros fdf p Hproc Hfirst Hc Hnot.
  set (st := build_layout standard_normal central_node fdf).
  assert (Hget : Dict.get (Gene_Symbol r) (_node (G st))
                 = Some (mk_attrs (Some gene) None (Some (PCC r)) (Some t))).
  { unfold st. rewrite build_layout_processed, Hproc, fold_left_app.
    simpl fold_left. apply place_rows_keep_attrs, place_row_new_attrs.
    apply place_rows_absent; [|now apply tissues_placed_absent].
    intros it Hin. split; [now apply Hfirst|].
    intros E. apply Hnot. rewrite <- E.
    assert (Hin' : In it (processed fdf)).
    { rewrite Hproc. apply in_or_app. now left. }
    destruct it as [[t' n'] r']. apply processed_In in Hin'. tauto. }
  assert (Hin : In (Gene_Symbol r) (nodes (G st))).
  { apply dict_mem_In. unfold Dict.mem. now rewrite Hget. }
  eexists. split.
  - unfold p, make_page. simpl page_nodes. unfold nodes_data. right.
    apply in_flat_map. exists (Gene_Symbol r). split; [exact Hin|].
    unfold node_entry. fold st.
    rewrite (proj2 (String.eqb_neq _ _) Hc).
    unfold get_attrs. rewrite Hget. simpl. left. reflexivity.
  - simpl. repeat split.
Qed.

(** Gene1 is selected under TissueA with 0.9 and then under TissueB with
    0.95: its node carries TissueA and 0.9. *)
Lemma gene_attributes_from_first_row_witness :
  exists nd, In nd (page_nodes gene1_twice_page)
             /\ Node.id nd = "Gene1"
             /\ Node.node_type nd = gene
             /\ Node.tissue_of nd = "TissueA"
             /\ Node.pcc nd = Q2R 0.9%Q.
Proof.
  apply (@gene_attributes_from_first_row keeping_ties no_noise gene1_twice
           "GCH1" []
           [("TissueB", 1, mk_row 1 "TissueB" "Gene1" 0.95%Q)]
           "TissueA" 1 (mk_row 0 "TissueA" "Gene1" 0.9%Q)).
  - reflexivity.
  - intros it [].
  - discriminate.
  - simpl. intros [E|[E|[]]]; discriminate.
Defined.

(** X19. The node of a symbol is put where the last selected row with that
    symbol puts it: around the anchor of that row's tissue, at the angle
    and the distance computed from that row and from the two samples
    drawn for it, provided no row handled before it has the label of
    that tissue as its gene symbol (so that the tissue is still at its
    anchor when the row is handled). *)
Theorem position_from_last_row `{SortValues}
  (standard_normal : nat -> R) (df : list raw_row) (central_node : string)
  (l1 l2 : list (string * nat * row)) (t : string) (n : nat) (r : row)
  (i : nat) (nd : node) :
  let fdf := filter_df df in
  let p := make_page standard_normal central_node fdf in
  let k := 2 * List.length l1 in
  let a := (base_angle (idx r) n
            + normal standard_normal k (noise_scale (PCC r)) * 0.5)%R in
  let d := (base_distance (PCC r)
            + normal standard_normal (S k) (noise_scale (PCC r)) * 50)%R in
  processed fdf = l1 ++ (t, n, r) :: l2 ->
  (forall it, In it l2 -> Gene_Symbol (snd it) <> Gene_Symbol r) ->
  nth_error (unique (map Tumor fdf)) i = Some t ->
  (forall it, In it l1 -> Gene_Symbol (snd it) <> t) ->
  In nd (page_nodes p) -> Node.id nd = Gene_Symbol r ->
  (Node.x nd, Node.y nd)
  = ((fst (tissue_anchor i) + d * cos a)%R,
     (snd (tissue_anchor i) + d * sin a)%R).
Proof.
  intros fdf p k a d Hproc Hlast Hi Hanchor Hin Hid.
  unfold p, make_page in Hin. simpl page_nodes in Hin.
  rewrite (page_node_position _ _ _ _ Hin), Hid.
  rewrite build_layout_processed, Hproc, fold_left_app. simpl fold_left.
  set (st1 := fold_left (place_row standard_normal) l1
                (tissues_placed central_node fdf)).
  assert (Hd : drawn st1 = k).
  { unfold st1. rewrite place_rows_drawn, tissues_placed_drawn. reflexivity. }
  assert (Ht : position_of t (fixed_positions st1) = tissue_anchor i).
  { unfold position_of, st1.
    rewrite place_rows_position_other by exact Hanchor.
    now rewrite (proj1 (tissues_placed_position central_node fdf) i t Hi). }
  unfold position_of at 1.
  rewrite place_rows_position_other by exact Hlast.
  pose proof (place_gene_position standard_normal t n st1 r) as Hpos.
  unfold position_of at 1 in Hpos. cbv zeta in Hpos.
  rewrite Ht, Hd in Hpos.
  unfold place_row at 1. simpl fst. simpl snd.
  destruct (Dict.get (Gene_Symbol r)
              (fixed_positions (place_gene standard_normal t n st1 r)));
    exact Hpos.
Qed.

(** Gene1 is selected under TissueA and then under TissueB: its node is
    put around the anchor of TissueB, from the row of TissueB. *)
Lemma position_from_last_row_witness :
  (Node.x (nth 3 (page_nodes gene1_twice_page) far_node),
   Node.y (nth 3 (page_nodes gene1_twice_page) far_node))
  = ((fst (tissue_anchor 1)
      + (base_distance 0.95%Q + normal no_noise 3 (noise_scale 0.95%Q) * 50)
        * cos (base_angle 1 1
               + normal no_noise 2 (noise_scale 0.95%Q) * 0.5))%R,
     (snd (tissue_anchor 1)
      + (base_distance 0.95%Q + normal no_noise 3 (noise_scale 0.95%Q) * 50)
        * sin (base_angle 1 1
               + normal no_noise 2 (noise_scale 0.95%Q) * 0.5))%R).
Proof.
  apply (@position_from_last_row keeping_ties no_noise gene1_twice "GCH1"
           [("TissueA", 1, mk_row 0 "TissueA" "Gene1" 0.9%Q)] []
           "TissueB" 1 (mk_row 1 "TissueB" "Gene1" 0.95%Q) 1).
  - reflexivity.
  - intros it [].
  - reflexivity.
  - intros it [<-|[]]. simpl. discriminate.
  - right. right. right. left. reflexivity.
  - reflexivity.
Defined.

(** ** Links and the nodes they join *)

Lemma dict_set_In {V} k (v : V) d k' v' :
  In (k', v') (Dict.set k v d) -> (k' = k /\ v' = v) \/ In (k', v') d.
Proof.
  induction d as [|[k0 v0] d IH]; simpl.
  - intros [E|[]]. injection E as <- <-. now left.
  - destruct (String.eqb k k0) eqn:E; simpl.
    + apply String.eqb_eq in E. subst k0. intros [E'|Hin].
      * injection E' as <- <-. now left.
      * right. now right.
    + intros [E'|Hin]; [right; now left|].
      destruct (IH Hin) as [Hnew|Hold]; [now left|right; now right].
Qed.

Lemma dict_get_In {V} k (v : V) d : Dict.get k d = Some v -> In (k, v) d.
Proof.
  induction d as [|[k0 v0] d IH]; simpl; [discriminate|].
  destruct (String.eqb k k0) eqn:E.
  - apply String.eqb_eq in E. subst. intros [= ->]. now left.
  - intros Hg. right. now apply IH.
Qed.

(** Every adjacency entry, and every neighbour in it, is a key of [N]. *)
Definition closed (N : Dict.t attrs) (adj : Dict.t (Dict.t Q)) : Prop :=
  forall n ns, In (n, ns) adj ->
    Dict.mem n N = true /\ forall b w, In (b, w) ns -> Dict.mem b N = true.

Lemma closed_mono N N' adj :
  (forall n, Dict.mem n N = true -> Dict.mem n N' = true) ->
  closed N adj -> closed N' adj.
Proof.
  intros Hsub Hc n ns Hin. destruct (Hc n ns Hin) as [Hn Hns].
  split; [now apply Hsub|]. intros b w Hb. apply Hsub. eapply Hns. exact Hb.
Qed.

Lemma closed_set N adj k d :
  closed N adj -> Dict.mem k N = true ->
  (forall b w, In (b, w) d -> Dict.mem b N = true) ->
  closed N (Dict.set k d adj).
Proof.
  intros Hc Hk Hd n ns Hin.
  apply dict_set_In in Hin as [[-> ->]|Hin]; [now split|now apply Hc].
Qed.

Lemma closed_nbrs N adj u b w :
  closed N adj -> In (b, w) (nbrs u adj) -> Dict.mem b N = true.
Proof.
  unfold nbrs. intros Hc. destruct (Dict.get u adj) eqn:E; [|intros []].
  intros Hin. apply dict_get_In in E. exact (proj2 (Hc _ _ E) _ _ Hin).
Qed.

Definition links_closed (g : Graph) : Prop := closed (_node g) (_adj g).

Lemma ensure_node_closed m g : links_closed g -> links_closed (ensure_node m g).
Proof.
  unfold links_closed, ensure_node. destruct (has_node m g) eqn:E; [auto|].
  simpl. intros Hc. apply closed_set.
  - eapply closed_mono; [|exact Hc]. intros n Hn.
    rewrite dict_mem_set, Hn. apply orb_true_r.
  - now rewrite dict_mem_set, String.eqb_refl.
  - intros b w [].
Qed.

Lemma add_node_closed m kw g : links_closed g -> links_closed (add_node m kw g).
Proof.
  unfold links_closed, add_node. intros Hc.
  assert (Hsub : forall a n, Dict.mem n (_node g) = true ->
                             Dict.mem n (Dict.set m a (_node g)) = true).
  { intros a n Hn. rewrite dict_mem_set, Hn. apply orb_true_r. }
  destruct (Dict.get m (_node g)) eqn:E; simpl.
  - eapply closed_mono; [apply Hsub|exact Hc].
  - apply closed_set.
    + eapply closed_mono; [apply Hsub|exact Hc].
    + now rewrite dict_mem_set, String.eqb_refl.
    + intros b w [].
Qed.

Lemma add_edge_closed u v w g : links_closed g -> links_closed (add_edge u v w g).
Proof.
  intros Hc. set (g1 := ensure_node v (ensure_node u g)).
  assert (H1 : links_closed g1)
    by (apply ensure_node_closed, ensure_node_closed, Hc).
  assert (Hu : has_node u g1 = true).
  { unfold g1. rewrite !has_node_ensure, String.eqb_refl.
    now rewrite orb_true_r. }
  assert (Hv : has_node v g1 = true).
  { unfold g1. now rewrite has_node_ensure, String.eqb_refl. }
  assert (H2 : closed (_node g1)
                 (Dict.set u (Dict.set v w (nbrs u (_adj g1))) (_adj g1))).
  { apply closed_set; [exact H1|exact Hu|].
    intros b w' Hin. apply dict_set_In in Hin as [[-> _]|Hin]; [exact Hv|].
    eapply closed_nbrs; [exact H1|exact Hin]. }
  unfold links_closed, add_edge. fold g1. simpl.
  apply closed_set; [exact H2|exact Hv|].
  intros b w' Hin. apply dict_set_In in Hin as [[-> _]|Hin]; [exact Hu|].
  eapply closed_nbrs; [exact H2|exact Hin].
Qed.

Lemma edges_from_closed N adj seen e :
  closed N adj -> In e (edges_from seen adj) ->
  Dict.mem (fst (fst e)) N = true /\ Dict.mem (snd (fst e)) N = true.
Proof.
  revert seen. induction adj as [|[n ns] adj IH]; intros seen Hc Hin;
    simpl in Hin; [destruct Hin|].
  apply in_app_or in Hin as [Hin|Hin].
  - apply in_map_iff in Hin as ([b w] & <- & Hb).
    apply filter_In in Hb as [Hb _]. simpl.
    destruct (Hc n ns (or_introl eq_refl)) as [Hn Hns].
    split; [exact Hn|]. eapply Hns. exact Hb.
  - apply (IH (n :: seen)); [|exact Hin].
    intros n' ns' Hin'. apply Hc. now right.
Qed.

(** Every node other than the central one is typed as a tissue or as a
    gene. *)
Definition typed (c : string) (g : Graph) : Prop :=
  forall n a, Dict.get n (_node g) = Some a ->
    n = c \/ a_node_type a = Some tissue \/ a_node_type a = Some gene.

Lemma add_node_typed c m k gc pc tc g :
  k = tissue \/ k = gene ->
  typed c g -> typed c (add_node m (mk_attrs (Some k) gc pc tc) g).
Proof.
  intros Hk Hty n a Hget.
  apply node_add_node in Hget as [[_ Hget]|[_ ->]]; [now apply (Hty n)|].
  right. destruct (Dict.get m (_node g)); simpl;
    destruct Hk as [->| ->]; auto.
Qed.

Lemma add_edge_nodes u v w g :
  has_node u g = true -> has_node v g = true ->
  _node (add_edge u v w g) = _node g.
Proof.
  intros Hu Hv. unfold add_edge. simpl. unfold ensure_node at 2.
  rewrite Hu. unfold ensure_node. now rewrite Hv.
Qed.

Lemma has_node_typed t g : tissue_typed t g -> has_node t g = true.
Proof.
  intros (a & Hget & _). unfold has_node, Dict.mem. now rewrite Hget.
Qed.

Lemma tissues_placed_sound c fdf :
  typed c (G (tissues_placed c fdf))
  /\ has_node c (G (tissues_placed c fdf)) = true
  /\ links_closed (G (tissues_placed c fdf)).
Proof.
  unfold tissues_placed. apply fold_left_invariant.
  - intros st [i t] _ (Hty & Hc & Hcl). unfold place_tissue. simpl G.
    set (g1 := add_node t _ (G st)).
    assert (Hc1 : has_node c g1 = true).
    { unfold g1. rewrite has_node_add_node, Hc. apply orb_true_r. }
    assert (Ht1 : has_node t g1 = true).
    { unfold g1. now rewrite has_node_add_node, String.eqb_refl. }
    split; [|split].
    + unfold typed. rewrite (add_edge_nodes _ _ _ _ Hc1 Ht1).
      apply add_node_typed; [now left|exact Hty].
    + rewrite has_node_add_edge, Hc1. now rewrite !orb_true_r.
    + apply add_edge_closed, add_node_closed, Hcl.
  - unfold initial_layout. simpl G. split; [|split].
    + intros n a Hget. apply node_add_node in Hget as [[_ Hget]|[-> _]];
        [discriminate|now left].
    + now rewrite has_node_add_node, String.eqb_refl.
    + apply add_node_closed. intros n ns [].
Qed.

Lemma build_layout_sound `{SortValues} sn c fdf :
  typed c (G (build_layout sn c fdf))
  /\ links_closed (G (build_layout sn c fdf)).
Proof.
  rewrite build_layout_processed.
  cut (typed c (G (fold_left (place_row sn) (processed fdf)
                     (tissues_placed c fdf)))
       /\ (forall t, In t (unique (map Tumor fdf)) ->
             has_node t (G (fold_left (place_row sn) (processed fdf)
                              (tissues_placed c fdf))) = true)
       /\ links_closed (G (fold_left (place_row sn) (processed fdf)
                             (tissues_placed c fdf)))); [tauto|].
  apply fold_left_invariant.
  - intros st [[t n] r] Hin (Hty & Hts & Hcl).
    apply processed_In in Hin as (Ht & _ & _).
    unfold place_row, place_gene. simpl fst. simpl snd. simpl G.
    set (g1 := if negb (has_node (Gene_Symbol r) (G st)) then _ else G st).
    assert (Hmono : forall m, has_node m (G st) = true -> has_node m g1 = true).
    { intros m Hm. unfold g1. destruct (negb _); [|exact Hm].
      rewrite has_node_add_node, Hm. apply orb_true_r. }
    assert (Hg1 : has_node (Gene_Symbol r) g1 = true).
    { unfold g1. destruct (has_node (Gene_Symbol r) (G st)) eqn:E; simpl;
        [exact E|]. now rewrite has_node_add_node, String.eqb_refl. }
    assert (Ht1 : has_node t g1 = true) by (apply Hmono, Hts, Ht).
    split; [|split].
    + unfold typed. rewrite (add_edge_nodes _ _ _ _ Hg1 Ht1).
      unfold g1. destruct (negb _); [|exact Hty].
      apply add_node_typed; [now right|exact Hty].
    + intros t' Ht'. rewrite has_node_add_edge, (Hmono t' (Hts t' Ht')).
      now rewrite !orb_true_r.
    + apply add_edge_closed. unfold g1. destruct (negb _); [|exact Hcl].
      apply add_node_closed, Hcl.
  - destruct (tissues_placed_sound c fdf) as (Hty & _ & Hcl).
    split; [exact Hty|]. split; [|exact Hcl].
    intros t Ht. apply has_node_typed. now apply tissues_placed_typed.
Qed.

Lemma nodes_data_has_id c colors st n :
  typed c (G st) -> In n (nodes (G st)) ->
  In n (map Node.id (nodes_data c colors st)).
Proof.
  intros Hty Hin. unfold nodes_data. simpl.
  destruct (String.eqb n c) eqn:E.
  - apply String.eqb_eq in E. now left.
  - right. apply in_map_iff.
    pose proof (get_attrs_get _ _ Hin) as Hget.
    destruct (Hty _ _ Hget) as [->|[Ha|Ha]].
    + rewrite String.eqb_refl in E. discriminate.
    + eexists. split.
      2:{ apply in_flat_map. exists n. split; [exact Hin|].
          unfold node_entry. rewrite E, Ha. left. reflexivity. }
      reflexivity.
    + eexists. split.
      2:{ apply in_flat_map. exists n. split; [exact Hin|].
          unfold node_entry. rewrite E, Ha. left. reflexivity. }
      reflexivity.
Qed.

Lemma page_link_ends `{SortValues} sn c fdf l :
  In l (page_links (make_page sn c fdf)) ->
  In (Link.source l) (map Node.id (page_nodes (make_page sn c fdf)))
  /\ In (Link.target l) (map Node.id (page_nodes (make_page sn c fdf))).
Proof.
  unfold make_page. simpl page_nodes. simpl page_links.
  unfold links_data, edges. intros Hin.
  apply in_map_iff in Hin as (e & <- & He). simpl.
  destruct (build_layout_sound sn c fdf) as [Hty Hcl].
  destruct (edges_from_closed _ _ _ _ Hcl He) as [H1 H2].
  split; apply nodes_data_has_id; try exact Hty; now apply dict_mem_In.
Qed.

(** X20. Both ends of every link of the page are identifiers of nodes of the
    page. *)
Theorem links_join_page_nodes `{SortValues} (standard_normal : nat -> R)
  (df : list raw_row) (central_node : string) :
  let p := make_page standard_normal central_node (filter_df df) in
  forall l, In l (page_links p) ->
    (exists s, In s (page_nodes p) /\ Node.id s = Link.source l)
    /\ (exists t, In t (page_nodes p) /\ Node.id t = Link.target l).
Proof.
  intros p l Hin. destruct (page_link_ends _ _ _ _ Hin) as [H1 H2].
  apply in_map_iff in H1 as (s & Hs & Hs').
  apply in_map_iff in H2 as (t & Ht & Ht').
  split; [now exists s|now exists t].
Qed.

(** The link between GCH1 and TissueA in the page of the end-to-end
    scenario. *)
Lemma links_join_page_nodes_witness :
  (exists s, In s (page_nodes three_rows_page) /\ Node.id s = "GCH1")
  /\ (exists t, In t (page_nodes three_rows_page) /\ Node.id t = "TissueA").
Proof.
  apply (@links_join_page_nodes keeping_ties no_noise three_rows "GCH1"
           (mk_link "GCH1" "TissueA" (Q2R 5.0%Q))).
  left. reflexivity.
Defined.

Lemma nodeMap_finds ns k :
  In k (map Node.id ns) ->
  exists i nd, nodeMap ns k = Some i /\ nth_error ns i = Some nd
               /\ Node.id nd = k.
Proof.
  intros Hin. apply in_map_iff in Hin as (nd & Hid & Hin).
  apply In_nth_error in Hin as [i Hi].
  assert (Hi' : In i (indices_where (fun nd => String.eqb (Node.id nd) k) ns)).
  { apply indices_where_In. exists nd. split; [exact Hi|].
    rewrite Hid. apply String.eqb_refl. }
  unfold nodeMap. apply in_rev in Hi'.
  destruct (rev (indices_where _ ns)) as [|j js] eqn:E; [destruct Hi'|].
  assert (Hj : In j (indices_where (fun nd => String.eqb (Node.id nd) k) ns)).
  { apply in_rev. rewrite E. now left. }
  apply indices_where_In in Hj as (nd' & Hn & Hp).
  apply String.eqb_eq in Hp. now exists j, nd'.
Qed.

Lemma frozen_ids ns ns' :
  map frozen ns = map frozen ns' -> map Node.id ns = map Node.id ns'.
Proof.
  intros E.
  assert (Hid : forall l, map Node.id l = map Node.id (map frozen l)).
  { intros l. rewrite map_map. reflexivity. }
  now rewrite (Hid ns), (Hid ns'), E.
Qed.

(** X21. Whatever the user does with a generated page, the canvas shows it as
    last repainted, and that repaint drew every link of the page, from
    the node that bears its source to the node that bears its target. *)
Theorem session_paints_every_link `{SortValues} (standard_normal : nat -> R)
  (df : list raw_row) (central_node : string) (random : nat -> R) (d : dom)
  (inputs : list (dom * input)) :
  let p := make_page standard_normal central_node (filter_df df) in
  let st := session random d (page_nodes p) (page_links p) inputs in
  forall l, In l (page_links p) ->
    exists s t,
      In s (nodesData st) /\ Node.id s = Link.source l
      /\ In t (nodesData st) /\ Node.id t = Link.target l
      /\ In (Segment (Node.x s) (Node.y s) (Node.x t) (Node.y t))
            (shapes (last (painted st) (drawNetworkToContext st))).
Proof.
  intros p st l Hin.
  destruct (steady_session random d (page_nodes p) (page_links p) inputs)
    as (_ & Hn & Hl & ps & Hp). fold st in Hn, Hl, Hp.
  destruct (page_link_ends _ _ _ _ Hin) as [H1 H2]. fold p in H1, H2.
  rewrite <- (frozen_ids _ _ Hn) in H1, H2.
  destruct (nodeMap_finds _ _ H1) as (i & s & Hi & Hs & Hsid).
  destruct (nodeMap_finds _ _ H2) as (j & t & Hj & Ht & Htid).
  exists s, t. split; [eapply nth_error_In; exact Hs|]. split; [exact Hsid|].
  split; [eapply nth_error_In; exact Ht|]. split; [exact Htid|].
  rewrite Hp, last_last. unfold drawNetworkToContext. simpl shapes.
  apply in_or_app. left. apply in_flat_map. exists l. split.
  - now rewrite Hl.
  - rewrite Hi, Hj, Hs, Ht. now left.
Qed.

(** The page of the end-to-end scenario right after it has loaded. *)
Definition three_rows_loaded : renderer :=
  session no_noise sample_dom (page_nodes three_rows_page)
    (page_links three_rows_page) [].

(** The link between GCH1 and TissueA is on the first canvas. *)
Lemma session_paints_every_link_witness :
  exists s t,
    In s (nodesData three_rows_loaded) /\ Node.id s = "GCH1"
    /\ In t (nodesData three_rows_loaded) /\ Node.id t = "TissueA"
    /\ In (Segment (Node.x s) (Node.y s) (Node.x t) (Node.y t))
          (shapes (last (painted three_rows_loaded)
                     (drawNetworkToContext three_rows_loaded))).
Proof.
  apply (@session_paints_every_link keeping_ties no_noise three_rows "GCH1"
           no_noise sample_dom []
           (mk_link "GCH1" "TissueA" (Q2R 5.0%Q))).
  left. reflexivity.
Defined.

(** ** The discs of a repaint *)

Definition is_disc (s : shape) : bool :=
  match s with Disc _ _ _ _ _ => true | _ => false end.

Lemma at_indices_filter (p : node -> bool) pre ns :
  flat_map (at_index (pre ++ ns))
    (map fst (filter (fun it => p (snd it))
                (enumerate_from (List.length pre) ns)))
  = filter p ns.
Proof.
  revert pre. induction ns as [|a ns IH]; intros pre; simpl; [reflexivity|].
  specialize (IH (pre ++ [a])).
  rewrite <- app_assoc, length_app in IH. simpl in IH.
  rewrite Nat.add_1_r in IH.
  destruct (p a); simpl; [|exact IH].
  unfold at_index at 1. rewrite nth_error_app2 by lia.
  rewrite Nat.sub_diag. simpl. f_equal. exact IH.
Qed.

Lemma indices_nodes p ns :
  flat_map (at_index ns) (indices_where p ns) = filter p ns.
Proof. exact (at_indices_filter p [] ns). Qed.

Lemma filter_type_cons k a ns :
  filter (is_type k) (a :: ns)
  = if ntype_eqb (Node.node_type a) k then a :: filter (is_type k) ns
    else filter (is_type k) ns.
Proof. reflexivity. Qed.

Lemma type_partition ns :
  Permutation
    (filter (is_type gene) ns ++ filter (is_type tissue) ns
       ++ filter (is_type central) ns)
    ns.
Proof.
  induction ns as [|a ns IH]; [constructor|].
  rewrite !filter_type_cons.
  destruct (Node.node_type a); simpl ntype_eqb; cbv iota.
  - apply Permutation_sym. rewrite app_assoc. apply Permutation_cons_app.
    rewrite <- app_assoc. now apply Permutation_sym.
  - apply Permutation_sym, Permutation_cons_app. now apply Permutation_sym.
  - now constructor.
Qed.

Lemma page_central_first c colors st :
  indices_where (is_type central) (nodes_data c colors st) = [0].
Proof.
  unfold nodes_data, indices_where, enumerate. simpl. f_equal.
  rewrite filter_none; [reflexivity|]. intros [i nd] Hin. simpl.
  assert (Hnd : In nd (flat_map (node_entry c colors st) (nodes (G st)))).
  { rewrite <- (enumerate_from_snd 1). apply in_map_iff. now exists (i, nd). }
  apply in_flat_map in Hnd as (n & _ & Hnd).
  apply node_entry_not_central in Hnd. unfold is_type.
  destruct (Node.node_type nd); simpl; congruence.
Qed.

Lemma discs_only segs ds plates :
  (forall s, In s segs -> is_disc s = false) ->
  (forall s, In s plates -> is_disc s = false) ->
  filter is_disc (segs ++ map disc_of ds ++ plates) = map disc_of ds.
Proof.
  intros Hs Hp. rewrite !filter_app, (filter_none _ _ Hs), (filter_none _ _ Hp).
  rewrite app_nil_r. simpl. induction ds as [|a ds IH]; simpl; [reflexivity|].
  now rewrite IH.
Qed.

(** X22. Whatever the user does with a generated page, the repaint that the
    canvas shows drew the discs of the gene nodes in array order, then
    those of the tissue nodes in array order, then that of the central
    node, and nothing else as a disc: one disc for each node of the
    page, none twice and none left out. *)
Theorem session_paints_every_node_once `{SortValues}
  (standard_normal : nat -> R) (df : list raw_row) (central_node : string)
  (random : nat -> R) (d : dom) (inputs : list (dom * input)) :
  let p := make_page standard_normal central_node (filter_df df) in
  let st := session random d (page_nodes p) (page_links p) inputs in
  filter is_disc (shapes (last (painted st) (drawNetworkToContext st)))
  = map disc_of
      (filter (is_type gene) (nodesData st)
         ++ filter (is_type tissue) (nodesData st)
         ++ filter (is_type central) (nodesData st))
  /\ Permutation
       (filter is_disc (shapes (last (painted st) (drawNetworkToContext st))))
       (map disc_of (nodesData st))
  /\ List.length (nodesData st) = List.length (page_nodes p).
Proof.
  intros p st.
  destruct (steady_session random d (page_nodes p) (page_links p) inputs)
    as (_ & Hn & _ & ps & Hp). fold st in Hn, Hp.
  assert (Horder :
            filter is_disc
              (shapes (last (painted st) (drawNetworkToContext st)))
            = map disc_of
                (filter (is_type gene) (nodesData st)
                   ++ filter (is_type tissue) (nodesData st)
                   ++ filter (is_type central) (nodesData st))).
  { rewrite Hp, last_last. unfold drawNetworkToContext. simpl shapes.
    rewrite discs_only.
    - f_equal.
      assert (Hc : indices_where (is_type central) (nodesData st) = [0]).
      { rewrite (indices_where_frozen _ _ _ (static_is_type central) Hn).
        apply page_central_first. }
      unfold draw_order, index_where. rewrite Hc, !flat_map_app.
      rewrite !indices_nodes.
      replace (flat_map (at_index (nodesData st)) [0])
        with (filter (is_type central) (nodesData st))
        by (now rewrite <- indices_nodes, Hc).
      reflexivity.
    - intros s Hin. apply in_flat_map in Hin as (l & _ & Hin).
      destruct (nodeMap _ _); [|destruct Hin].
      destruct (nodeMap _ _); [|destruct Hin].
      destruct (nth_error _ _); [|destruct Hin].
      destruct (nth_error _ _); [|destruct Hin].
      destruct Hin as [<-|[]]. reflexivity.
    - intros s Hin. apply in_map_iff in Hin as (nd & <- & _). reflexivity. }
  split; [exact Horder|]. split.
  - rewrite Horder. apply Permutation_map, type_partition.
  - rewrite <- (length_map frozen), Hn. apply length_map.
Qed.

(** ** The count of gene nodes *)

Definition is_gene (a : attrs) : bool :=
  match a_node_type a with Some gene => true | _ => false end.

Definition gene_nodes (g : Graph) : list string :=
  filter (fun n => is_gene (get_attrs n g)) (nodes g).

Lemma genes_fresh m a g g' :
  has_node m g = false ->
  _node g' = Dict.set m a (_node g) ->
  gene_nodes g' = gene_nodes g ++ (if is_gene a then [m] else []).
Proof.
  intros Hfresh E. unfold gene_nodes, nodes, get_attrs. rewrite E.
  rewrite dict_keys_set. unfold has_node in Hfresh. rewrite Hfresh.
  rewrite filter_app. f_equal.
  - apply filter_ext_in. intros n Hin. rewrite dict_get_set.
    destruct (String.eqb n m) eqn:En; [|reflexivity].
    apply String.eqb_eq in En. subst n.
    apply dict_mem_In in Hin. congruence.
  - simpl. now rewrite dict_get_set_eq.
Qed.

Lemma genes_ensure m g : gene_nodes (ensure_node m g) = gene_nodes g.
Proof.
  unfold ensure_node. destruct (has_node m g) eqn:E; [reflexivity|].
  rewrite (genes_fresh m no_attrs g); [|exact E|reflexivity].
  simpl. apply app_nil_r.
Qed.

Lemma genes_add_edge u v w g : gene_nodes (add_edge u v w g) = gene_nodes g.
Proof.
  change (gene_nodes (add_edge u v w g))
    with (gene_nodes (ensure_node v (ensure_node u g))).
  now rewrite !genes_ensure.
Qed.

Lemma place_row_counted sn st it :
  genes_added st = List.length (gene_nodes (G st)) ->
  genes_added (place_row sn st it)
  = List.length (gene_nodes (G (place_row sn st it))).
Proof.
  intros Hst. unfold place_row, place_gene. simpl G. simpl genes_added.
  rewrite genes_add_edge.
  destruct (has_node (Gene_Symbol (snd it)) (G st)) eqn:E; simpl;
    [exact Hst|].
  rewrite (genes_fresh (Gene_Symbol (snd it))
             (mk_attrs (Some gene) None (Some (PCC (snd it)))
                (Some (fst (fst it)))) (G st)); [|exact E|].
  - rewrite length_app. simpl. lia.
  - unfold add_node. now rewrite (has_node_false _ _ E).
Qed.

Lemma tissues_placed_no_genes c fdf :
  genes_added (tissues_placed c fdf) = 0
  /\ gene_nodes (G (tissues_placed c fdf)) = [].
Proof.
  split.
  - unfold tissues_placed.
    apply (fold_left_invariant (fun st => genes_added st = 0));
      [|reflexivity].
    now intros st [i t] _ Hst.
  - unfold gene_nodes. apply filter_none. intros n Hin.
    apply get_attrs_get in Hin.
    pose proof (tissues_placed_gene_free c fdf _ _ Hin) as Hfree.
    unfold is_gene. destruct (a_node_type _) as [[]|]; congruence.
Qed.

Lemma central_never_gene `{SortValues} sn c fdf :
  is_gene (get_attrs c (G (build_layout sn c fdf))) = false.
Proof.
  destruct (tissues_placed_sound c fdf) as (_ & Hc & _).
  unfold has_node, Dict.mem in Hc.
  destruct (Dict.get c (_node (G (tissues_placed c fdf)))) as [a|] eqn:E;
    [|discriminate].
  pose proof (tissues_placed_gene_free c fdf _ _ E) as Hfree.
  unfold get_attrs. rewrite build_layout_processed.
  rewrite (place_rows_keep_attrs sn _ _ _ _ E).
  unfold is_gene. destruct (a_node_type a) as [[]|]; congruence.
Qed.

Lemma nodes_data_genes c colors st :
  is_gene (get_attrs c (G st)) = false ->
  count_type gene (nodes_data c colors st) = List.length (gene_nodes (G st)).
Proof.
  intros Hc. unfold count_type, nodes_data, gene_nodes. simpl filter.
  change (is_type gene (central_entry c (fixed_positions st))) with false.
  cbv iota. induction (nodes (G st)) as [|n l IH]; simpl; [reflexivity|].
  rewrite filter_app, length_app, IH. unfold node_entry, is_gene at 2.
  destruct (String.eqb n c) eqn:E.
  - apply String.eqb_eq in E. subst n. unfold is_gene in Hc.
    destruct (a_node_type (get_attrs c (G st))) as [[]|];
      try discriminate; reflexivity.
  - destruct (a_node_type (get_attrs n (G st))) as [[]|]; reflexivity.
Qed.

(** X23. The number that the run reports as gene nodes added is the number of
    gene nodes of the page. *)
Theorem added_counts_gene_nodes `{SortValues} (standard_normal : nat -> R)
  (df : list raw_row) (central_node : string) :
  let fdf := filter_df df in
  genes_added (build_layout standard_normal central_node fdf)
  = count_type gene
      (page_nodes (make_page standard_normal central_node fdf)).
Proof.
  intros fdf. unfold make_page. simpl page_nodes.
  rewrite nodes_data_genes by apply central_never_gene.
  rewrite build_layout_processed. apply fold_left_invariant.
  - intros st it _. apply place_row_counted.
  - destruct (tissues_placed_no_genes central_node fdf) as [-> ->].
    reflexivity.
Qed.

(** ** A correlation that [np.random.normal] refuses *)

Lemma rejects_above r : (1.5 < PCC r)%Q -> rejects r = true.
Proof.
  intros Hlt. unfold rejects, noise_scale. apply negb_true_iff.
  destruct (Qle_bool 0 (0.3 + 0.6 * (1 - PCC r))) eqn:E; [|reflexivity].
  apply Qle_bool_iff in E. exfalso. Lqa.lra.
Qed.

Lemma entered_fails `{SortValues} fdf ts t r :
  In t ts -> In r (select_genes fdf t) -> rejects r = true ->
  snd (entered fdf ts) = true.
Proof.
  induction ts as [|t0 ts IH]; intros Ht Hr Hrej; [destruct Ht|]. simpl.
  destruct (existsb rejects (select_genes fdf t0)) eqn:E; [reflexivity|].
  destruct Ht as [->|Ht].
  - assert (Hex : existsb rejects (select_genes fdf t) = true)
      by (apply existsb_exists; now exists r).
    congruence.
  - specialize (IH Ht Hr Hrej). now destruct (entered fdf ts).
Qed.

Definition is_output (ev : event) : bool :=
  match ev with
  | Added _ | Written _ _ | Saved _ | Opened _ => true
  | _ => false
  end.

Lemma limiting_silent `{SortValues} fdf ts ev :
  In ev (limiting fdf ts) -> is_output ev = false.
Proof.
  intros Hin. unfold limiting in Hin.
  apply in_flat_map in Hin as (t & _ & Hin).
  destruct (max_genes_per_tissue <? _); [|destruct Hin].
  destruct Hin as [<-|[]]. reflexivity.
Qed.

Lemma print_all_no_output w evs log :
  (forall ev, In ev evs -> is_output ev = false) ->
  filter is_output (snd (print_all w evs log)) = filter is_output log.
Proof.
  revert log. induction evs as [|ev evs IH]; intros log Hev; simpl;
    [reflexivity|].
  unfold bind, print. destruct (streams w log ev); simpl; [reflexivity|].
  rewrite IH by (intros ev' Hin; apply Hev; now right).
  rewrite filter_app. simpl. rewrite (Hev ev (or_introl eq_refl)).
  apply app_nil_r.
Qed.

Lemma handler_no_output w e log :
  filter is_output
    (snd ((print w (Error e) ;;; print w (Traceback e) ;;;
           ret (@None Graph, @None (Dict.t (R * R)))) log))
  = filter is_output log.
Proof.
  unfold bind, print, ret.
  destruct (streams w log (Error e)); simpl; [reflexivity|].
  destruct (streams w (log ++ [Error e]) (Traceback e)); simpl;
    rewrite !filter_app; simpl; now rewrite ?app_nil_r.
Qed.

Definition excessive_world : world :=
  mk_world (fun _ => inr (Frame [mk_raw "TissueA" "Gene1" (Some 1.6%Q)]))
           (fun _ => None) (fun _ => None) (fun _ => None)
           (fun _ _ => None).

(** X24. When a selected row has a correlation above 1.5, the scale
    handed to [np.random.normal] is negative.  Whatever the prints do,
    the run then reports no count of gene nodes and writes, saves and
    opens no page; when every print succeeds it ends in the handler with
    the [ValueError] and its stack trace as the last two messages and
    returns [(None, None)]. *)
Theorem excessive_correlation_aborts `{SortValues}
  (standard_normal : nat -> R) (w : world)
  (input_file central_node output_file : string) (log : list event)
  (rows : list raw_row) (t : string) (r : row) :
  let fdf := filter_df rows in
  let run :=
    create_web_network standard_normal w input_file central_node output_file
      log in
  read_csv w input_file = inr (Frame rows) ->
  In t (unique (map Tumor fdf)) -> In r (select_genes fdf t) ->
  (1.5 < PCC r)%Q ->
  (quiet w ->
   fst run = inr (None, None)
   /\ exists pre, snd run = pre ++ [Error ValueError; Traceback ValueError])
  /\ filter is_output (snd run) = filter is_output log.
Proof.
  intros fdf run Hread Ht Hr Hlt.
  pose proof (entered_fails fdf _ t r Ht Hr (rejects_above r Hlt)) as Hent.
  split.
  - intros Hq. unfold run, create_web_network, bind, try_except, lift.
    rewrite print_quiet by exact Hq. rewrite Hread. simpl.
    unfold lay_out, bind, guard, raise, ret.
    rewrite print_quiet by exact Hq. rewrite print_all_quiet by exact Hq.
    fold fdf. rewrite Hent. simpl. rewrite !print_quiet by exact Hq. simpl.
    split; [reflexivity|]. eexists. rewrite <- app_assoc. reflexivity.
  - unfold run, create_web_network. unfold bind at 1, print at 1.
    destruct (streams w log (Loading input_file)); simpl; [reflexivity|].
    unfold try_except, bind at 1, lift. rewrite Hread. simpl.
    unfold lay_out, bind at 1 2, print at 1.
    destruct (streams w _ (Found _ _)); simpl.
    { rewrite handler_no_output, filter_app. simpl. apply app_nil_r. }
    unfold bind at 1 2. fold fdf.
    pose proof (print_all_no_output w
                  (limiting fdf (fst (entered fdf (unique (map Tumor fdf)))))
                  ((log ++ [Loading input_file])
                     ++ [Found (List.length (unique (map Tumor fdf)))
                           (List.length fdf)])
                  (limiting_silent fdf _)) as Hlim.
    destruct (print_all w _ _) as [[e|[]] log'] eqn:Ep; simpl in Hlim |- *.
    + rewrite handler_no_output, Hlim, !filter_app. simpl.
      now rewrite !app_nil_r.
    + rewrite Hent. unfold guard, raise. simpl.
      rewrite handler_no_output, Hlim, !filter_app. simpl.
      now rewrite !app_nil_r.
Qed.

(** A table whose only row has the correlation 1.6. *)
Lemma excessive_correlation_aborts_witness :
  filter is_output
    (snd (@create_web_network no_noise keeping_ties excessive_world
            "data/tumor.csv" "GCH1" "Network Tumor/index.html" []))
  = [].
Proof.
  apply (@excessive_correlation_aborts keeping_ties no_noise excessive_world
           "data/tumor.csv" "GCH1" "Network Tumor/index.html" []
           [mk_raw "TissueA" "Gene1" (Some 1.6%Q)]
           "TissueA" (mk_row 0 "TissueA" "Gene1" 1.6%Q)).
  - reflexivity.
  - left. reflexivity.
  - left. reflexivity.
  - reflexivity.
Defined.

(** ** The legends: [createLegend], lines 680-705, and
    [drawLegendToContext], lines 436-503 *)

(** An entry of the legend of the page: the colour of its swatch and
    its caption. *)
Record legend_item := mk_item {
  swatch : string;
  caption : string
}.

(** The caption of a tissue, as both legends compose it. *)
Definition tissue_caption (nd : node) : string :=
  Node.name nd ++ " (n=" ++ str_of_nat (Node.gene_count nd) ++ ")".

Definition createLegend (ns : list node) : list legend_item :=
  (match nodeMap ns "GCH1" with
   | Some _ => [mk_item "red" "GCH1 (central)"]
   | None => []
   end)
  ++ map (fun nd => mk_item (Node.color nd) (tissue_caption nd))
         (filter (is_type tissue) ns).

(** What [drawLegendToContext] puts on the image that is downloaded. *)
Inductive mark :=
| Box (x y w h : R)
| Dot (cx cy r : R) (fill : string) (lineWidth : R)
| Text (text : string) (x y : R).

Definition legendX : R := 30%R.
Definition legendY : R := 60%R.
Definition legendWidth : R := 220%R.
Definition lineHeight : R := 25%R.

Definition tissue_marks (it : nat * node) : list mark :=
  let y := (legendY + 20 + (INR (fst it) + 1) * lineHeight)%R in
  [ Dot (legendX + 15) y 8 (Node.color (snd it)) 0.5;
    Text (tissue_caption (snd it)) (legendX + 30) (y + 4) ].

Definition drawLegendToContext (ns : list node) : list mark :=
  let legendItems := 1 + List.length (filter (is_type tissue) ns) in
  let legendHeight := (INR legendItems * lineHeight + 20)%R in
  Box legendX legendY legendWidth legendHeight
  :: (match index_where (is_type central) ns with
      | Some _ =>
          [ Dot (legendX + 15) (legendY + 20) 8 "red" 1;
            Text "GCH1 (central)" (legendX + 30) (legendY + 24) ]
      | None => []
      end)
  ++ flat_map tissue_marks (enumerate (filter (is_type tissue) ns)).

(** X25. The box that [drawLegendToContext] draws first is 220 wide and 25
    high per entry plus 20, counting one entry for the central node and
    one per tissue node; every dot drawn after it, and the point at
    which every caption starts, lies within the box. *)
Theorem legend_box_holds_marks (ns : list node) :
  let h := (INR (1 + count_type tissue ns) * 25 + 20)%R in
  exists rest,
    drawLegendToContext ns = Box 30 60 220 h :: rest
    /\ (forall cx cy r fill lw,
          In (Dot cx cy r fill lw) rest ->
          (30 <= cx - r /\ cx + r <= 30 + 220
           /\ 60 <= cy - r /\ cy + r <= 60 + h)%R)
    /\ (forall text x y,
          In (Text text x y) rest ->
          (30 <= x <= 30 + 220 /\ 60 <= y <= 60 + h)%R).
Proof.
  intros h. eexists. split; [reflexivity|].
  assert (Hn : (0 <= INR (count_type tissue ns))%R) by apply pos_INR.
  assert (Hh : h = (INR (count_type tissue ns) * 25 + 45)%R).
  { unfold h. rewrite plus_INR. simpl INR. lra. }
  assert (Hrank : forall it,
             In it (enumerate (filter (is_type tissue) ns)) ->
             (0 <= INR (fst it)
              /\ INR (fst it) + 1 <= INR (count_type tissue ns))%R).
  { intros [i nd] Hin. apply enumerate_from_In in Hin as [_ Hin].
    assert (Hlt : i < count_type tissue ns).
    { unfold count_type. apply nth_error_Some.
      rewrite Nat.sub_0_r in Hin. congruence. }
    simpl fst. split; [apply pos_INR|].
    rewrite <- S_INR. apply le_INR. lia. }
  split.
  - intros cx cy r fill lw Hin. apply in_app_or in Hin as [Hin|Hin].
    + destruct (index_where (is_type central) ns); [|destruct Hin].
      destruct Hin as [E|[E|[]]]; [|discriminate].
      injection E as <- <- <- _ _. unfold legendX, legendY. lra.
    + apply in_flat_map in Hin as (it & Hit & Hin).
      destruct (Hrank it Hit) as [H0 H1].
      destruct Hin as [E|[E|[]]]; [|discriminate].
      injection E as <- <- <- _ _. unfold legendX, legendY, lineHeight. lra.
  - intros text x y Hin. apply in_app_or in Hin as [Hin|Hin].
    + destruct (index_where (is_type central) ns); [|destruct Hin].
      destruct Hin as [E|[E|[]]]; [discriminate|].
      injection E as _ <- <-. unfold legendX, legendY. lra.
    + apply in_flat_map in Hin as (it & Hit & Hin).
      destruct (Hrank it Hit) as [H0 H1].
      destruct Hin as [E|[E|[]]]; [discriminate|].
      injection E as _ <- <-. unfold legendX, legendY, lineHeight. lra.
Qed.

Lemma nodeMap_mem ns k :
  match nodeMap ns k with Some _ => true | None => false end
  = str_mem k (map Node.id ns).
Proof.
  destruct (str_mem k (map Node.id ns)) eqn:E.
  - apply str_mem_In in E.
    destruct (nodeMap_finds ns k E) as (i & nd & -> & _). reflexivity.
  - unfold nodeMap.
    destruct (rev (indices_where _ ns)) as [|j js] eqn:Ej; [reflexivity|].
    assert (Hj : In j (indices_where
                         (fun nd => String.eqb (Node.id nd) k) ns)).
    { apply in_rev. rewrite Ej. now left. }
    apply indices_where_In in Hj as (nd & Hn & Hp).
    apply String.eqb_eq in Hp.
    assert (Hin : In k (map Node.id ns)).
    { apply in_map_iff. exists nd. split; [exact Hp|].
      eapply nth_error_In. exact Hn. }
    apply str_mem_In in Hin. congruence.
Qed.

Lemma page_tissue_caption c colors st nd :
  In nd (nodes_data c colors st) -> Node.node_type nd = tissue ->
  tissue_caption nd = Node.label nd.
Proof.
  unfold nodes_data. intros [<-|Hin] Hty; [discriminate|].
  apply in_flat_map in Hin as (n & _ & Hin).
  destruct (node_entry_tissue _ _ _ _ _ Hin Hty) as (_ & _ & ->).
  reflexivity.
Qed.

Lemma flat_map_same {A B} (f g : A -> list B) l :
  (forall a, In a l -> f a = g a) -> flat_map f l = flat_map g l.
Proof.
  induction l as [|a l IH]; intros Hfg; simpl; [reflexivity|].
  rewrite (Hfg a (or_introl eq_refl)), IH; [reflexivity|].
  intros b Hb. apply Hfg. now right.
Qed.

Lemma is_type_eq k nd : is_type k nd = true -> Node.node_type nd = k.
Proof. unfold is_type. destruct (Node.node_type nd), k; simpl; congruence. Qed.

(** X26. The legends of a page generated from a table whose cells of
    [Tumor] and [Gene Symbol] all hold text.  Each of them lists the
    tissue nodes in the order of the array, with the colour of the node
    and a caption, built from the node's identifier and gene count, that
    equals the label of the node.  The legend of the page shows the
    entry of the central
    node only when some node bears the identifier GCH1; the legend of
    the downloaded image always shows it; in both its caption reads
    GCH1 whatever the central node of the page is. *)
Theorem legends_of_generated_page `{SortValues} (standard_normal : nat -> R)
  (df : list raw_row) (central_node : string) :
  let p := make_page standard_normal central_node (filter_df df) in
  let ns := page_nodes p in
  let ts := filter (is_type tissue) ns in
  createLegend ns
  = (if str_mem "GCH1" (map Node.id ns)
     then [mk_item "red" "GCH1 (central)"] else [])
    ++ map (fun nd => mk_item (Node.color nd) (Node.label nd)) ts
  /\ drawLegendToContext ns
     = Box 30 60 220 (INR (1 + List.length ts) * 25 + 20)
       :: Dot (30 + 15) (60 + 20) 8 "red" 1
       :: Text "GCH1 (central)" (30 + 30) (60 + 24)
       :: flat_map
            (fun it =>
               [ Dot (30 + 15) (60 + 20 + (INR (fst it) + 1) * 25) 8
                     (Node.color (snd it)) 0.5;
                 Text (Node.label (snd it)) (30 + 30)
                      (60 + 20 + (INR (fst it) + 1) * 25 + 4) ])
            (enumerate ts).
Proof.
  intros p ns ts.
  assert (Hcap : forall nd, In nd ts -> tissue_caption nd = Node.label nd).
  { intros nd Hin. apply filter_In in Hin as [Hin Hty].
    apply is_type_eq in Hty. unfold ns, p, make_page in Hin.
    simpl page_nodes in Hin. eapply page_tissue_caption; eassumption. }
  split.
  - unfold createLegend. fold ts. f_equal.
    + rewrite <- nodeMap_mem. now destruct (nodeMap ns "GCH1").
    + apply map_ext_in. intros nd Hin. now rewrite (Hcap nd Hin).
  - unfold drawLegendToContext. fold ts. unfold index_where.
    unfold ns, p, make_page. simpl page_nodes.
    rewrite page_central_first. simpl app. f_equal. f_equal. f_equal.
    apply flat_map_same. intros [i nd] Hin. unfold tissue_marks.
    simpl fst. simpl snd. rewrite Hcap; [reflexivity|].
    rewrite <- (enumerate_from_snd 0 ts). apply in_map_iff.
    now exists (i, nd).
Qed.
